(** * MMARIA & SIMONe plot publisher: archive and catalogue logic

    A shallow embedding of [mmaria_simone_webapp.py]: the file mirror
    ([mirror_current_and_archive]), the archive writer ([_archive_file]),
    the backfill sweep ([archive_only_from_old_incoming]), the scan command
    ([scan_cmd]) and the archive search ([search]).

    The data root [DATA_DIR] is a finite map from relative paths to nodes,
    the SQLite table [archive_images] is the list of its rows in rowid
    order, and the printed lines are collected in the world.  Every
    operation is a function from a world to a world and an outcome, the
    outcome being a value or a raised exception. *)

From stdpp Require Import gmap strings list fin_maps sorting.
From Stdlib Require Import ZArith Lia Ascii.

Open Scope Z_scope.

(** ** Text helpers *)

Module Text.

(** [str.split(sep)] for a one-character separator. *)
Fixpoint split_on (sep : ascii) (s : string) : list string :=
  match s with
  | EmptyString => [EmptyString]
  | String c s' =>
      if Ascii.eqb c sep then EmptyString :: split_on sep s'
      else match split_on sep s' with
           | [] => [String c EmptyString]
           | w :: ws => String c w :: ws
           end
  end.

(** ["/".join(parts)], which is what [PurePath.as_posix] yields for a
    relative path. *)
Fixpoint join_posix (parts : list string) : string :=
  match parts with
  | [] => EmptyString
  | [p] => p
  | p :: ps => p +:+ "/" +:+ join_posix ps
  end.

(** Matching of a file name against the glob pattern ["*.png"]: the name
    ends in [.png] (case-sensitive, leading dots are not special for
    [Path.glob]). *)
Definition is_png (name : string) : bool :=
  let k := String.length name in
  (4 <=? k)%nat && String.eqb (String.substring (k - 4) 4 name) ".png".

(** Characters removed by [str.strip()]: those for which [str.isspace]
    holds, among the code points below 256. *)
Definition is_space (c : ascii) : bool :=
  let n := nat_of_ascii c in
  ((9 <=? n) && (n <=? 13) || (28 <=? n) && (n <=? 32)
   || (n =? 133) || (n =? 160))%nat.

Fixpoint lstrip (s : string) : string :=
  match s with
  | EmptyString => EmptyString
  | String c s' => if is_space c then lstrip s' else s
  end.

(** Right strip: a character is kept when something that is kept follows
    it or when it is not a space. *)
Fixpoint rstrip (s : string) : string :=
  match s with
  | EmptyString => EmptyString
  | String c s' =>
      match rstrip s' with
      | EmptyString => if is_space c then EmptyString else String c EmptyString
      | t => String c t
      end
  end.

Definition strip (s : string) : string := rstrip (lstrip s).

End Text.

(** ** Calendar dates from timestamps *)

Module Calendar.

(** Proleptic Gregorian date of a day number counted from 1970-01-01. *)
Definition civil_from_days (z : Z) : Z * Z * Z :=
  let z := z + 719468 in
  let era := z / 146097 in
  let doe := z - era * 146097 in
  let yoe := (doe - doe / 1460 + doe / 36524 - doe / 146096) / 365 in
  let y := yoe + era * 400 in
  let doy := doe - (365 * yoe + yoe / 4 - yoe / 100) in
  let mp := (5 * doy + 2) / 153 in
  let d := doy - (153 * mp + 2) / 5 + 1 in
  let m := if mp <? 10 then mp + 3 else mp - 9 in
  (if m <=? 2 then y + 1 else y, m, d).

(** [datetime.fromtimestamp(ts, tz=timezone.utc)], reduced to the fields
    that [strftime("%Y-%m-%d")] reads.  The timestamp is in whole seconds.
    Years outside [MINYEAR..MAXYEAR] make the call raise. *)
Definition fromtimestamp_utc (ts : Z) : option (Z * Z * Z) :=
  let '(y, m, d) := civil_from_days (ts / 86400) in
  if (1 <=? y) && (y <=? 9999) then Some (y, m, d) else None.

Definition digit (n : Z) : ascii :=
  ascii_of_nat (48 + Z.to_nat (n mod 10)).

Definition pad2 (n : Z) : string :=
  String (digit (n / 10)) (String (digit n) EmptyString).

Definition pad4 (n : Z) : string :=
  String (digit (n / 1000)) (String (digit (n / 100)) (pad2 n)).

(** [dt.strftime("%Y-%m-%d")], the year written with four digits. *)
Definition strftime_ymd (dt : Z * Z * Z) : string :=
  let '(y, m, d) := dt in pad4 y +:+ "-" +:+ pad2 m +:+ "-" +:+ pad2 d.

End Calendar.

(** ** Data model *)

(** A path is the list of its components below [DATA_DIR]. *)
Abbreviation path := (list string).

Definition INCOMING_DIR : path := ["incoming"].
Definition CURRENT_DIR : path := ["current"].
Definition ARCHIVE_DIR : path := ["archive"].
Definition OLD_INCOMING_DIR : path := ["old incoming"].

(** [Path.name]: the last component, empty for the root. *)
Definition name (p : path) : string := List.last p EmptyString.

(** A regular file: its modification time ([st_mtime], in seconds) and its
    bytes. *)
Record file := { f_mtime : Z; f_data : string }.

Inductive node :=
  | Dir (mtime : Z)
  | File (f : file).

#[global] Instance file_eq_dec : EqDecision file.
Proof. solve_decision. Defined.
#[global] Instance node_eq_dec : EqDecision node.
Proof. solve_decision. Defined.

(** An entry of [STATIONS]. *)
Record station_cfg := {
  key : string;
  project : string;
  country : string;
  station : string;
  map_embed : string;
  incoming_filename : string
}.

#[global] Instance station_cfg_eq_dec : EqDecision station_cfg.
Proof. solve_decision. Defined.

Definition STATIONS : list station_cfg := [
  {| key := "mmaria_scandinavia"; project := "MMARIA"; country := "Norway";
     station := "MMARIA Scandinavia";
     map_embed := "https://www.google.com/maps/d/u/0/embed?mid=1A70yF5VLpIKCW6-V_TgGJFn6Qok";
     incoming_filename := "multilink_overview_mmaria-norway.png" |};
  {| key := "mmaria_germany"; project := "MMARIA"; country := "Germany";
     station := "MMARIA Germany";
     map_embed := "https://www.google.com/maps/d/u/0/embed?mid=1I6D20ucZeomNTYKe3iDHF3jtPXm36CRx";
     incoming_filename := "multilink_overview_mmaria-germany.png" |};
  {| key := "simone_jicamarca"; project := "SIMONe"; country := "Peru";
     station := "SIMONe Jicamarca";
     map_embed := "https://www.google.com/maps/d/u/0/embed?mid=1IxOgSL2Yh3NxMPDsR3nCFNTTIeFXuF56";
     incoming_filename := "multilink_overview_simone-peru.png" |};
  {| key := "simone_piura"; project := "SIMONe"; country := "Peru";
     station := "SIMONe Piura";
     map_embed := "https://www.google.com/maps/d/embed?mid=1ynGhjIEs0zK7nZp6xt1RJE86ALFMGguI";
     incoming_filename := "multilink_overview_simone-peru2.png" |};
  {| key := "simone_argentina"; project := "SIMONe"; country := "Argentina";
     station := "SIMONe Argentina";
     map_embed := "https://www.google.com/maps/d/embed?mid=1AGS55_83ywb7weAJ-O2VqRNw6F0SKne5";
     incoming_filename := "multilink_overview_simone-argentina.png" |};
  {| key := "simone_newmexico"; project := "SIMONe"; country := "USA";
     station := "SIMONe New Mexico";
     map_embed := "https://www.google.com/maps/d/u/0/embed?mid=1jZVpT6BahHtqejR2qziAi5xh5bWKtcs&ehbc=2E312F";
     incoming_filename := "multilink_overview_simone-new_mexico.png" |};
  {| key := "simone_haystack"; project := "SIMONe"; country := "USA";
     station := "SIMONe Haystack";
     map_embed := "https://www.google.com/maps/d/embed?mid=1ugVi-xvVCkU7yc3lcuOJXbyV6qK1UDY&ehbc=2E312F";
     incoming_filename := "multilink_overview_simone-haystack.png" |}
].

(** A row of the table [archive_images] of [SCHEMA_SQL]. *)
Record row := {
  id : nat;
  image_name : string;
  row_country : string;
  row_station : string;
  date : string;
  station_key : string;
  file_path : string
}.

#[global] Instance row_eq_dec : EqDecision row.
Proof. solve_decision. Defined.

(** The columns of the constraint [UNIQUE (station_key, date)]. *)
Definition unique_key (r : row) : string * string := (station_key r, date r).

(** The dictionary returned by [_archive_file]. *)
Record info := { i_key : string; i_date : string; i_archive : string }.

#[global] Instance info_eq_dec : EqDecision info.
Proof. solve_decision. Defined.

Inductive exn :=
  | FileNotFoundError
  | FileExistsError
  | NotADirectoryError
  | IsADirectoryError
  | SameFileError
  | ValueError
  | TypeError.

#[global] Instance exn_eq_dec : EqDecision exn.
Proof. solve_decision. Defined.

(** What the program prints. *)
Inductive line :=
  | Warn (src : path) (e : exn)
  | ScanDone (created archived_old : nat)
  | Created (it : info)
  | Backfilled (it : info).

Record world := {
  fs : gmap path node;
  db : list row;
  out : list line;
  now : Z
}.

Definition with_fs (f : gmap path node) (w : world) : world :=
  {| fs := f; db := db w; out := out w; now := now w |}.
Definition with_db (d : list row) (w : world) : world :=
  {| fs := fs w; db := d; out := out w; now := now w |}.
Definition with_out (o : list line) (w : world) : world :=
  {| fs := fs w; db := db w; out := o; now := now w |}.

(** ** Outcomes and the monad of operations *)

Inductive outcome (A : Type) :=
  | Ok (a : A)
  | Raise (e : exn).
Arguments Ok {A} a.
Arguments Raise {A} e.

Definition M (A : Type) : Type := world -> world * outcome A.

Definition ret {A} (a : A) : M A := fun w => (w, Ok a).
Definition raise {A} (e : exn) : M A := fun w => (w, Raise e).
Definition bind {A B} (c : M A) (k : A -> M B) : M B :=
  fun w => match c w with
           | (w', Ok a) => k a w'
           | (w', Raise e) => (w', Raise e)
           end.

(** [try: c except Exception as e: ...], the outcome handed to the caller
    as a value. *)
Definition try {A} (c : M A) : M (outcome A) :=
  fun w => let '(w', r) := c w in (w', Ok r).

Notation "x <- c ;; k" := (bind c (fun x => k))
  (at level 100, c at next level, right associativity).
Notation "c ;;; k" := (bind c (fun _ => k))
  (at level 100, right associativity).

Definition print (l : line) : M unit :=
  fun w => (with_out (out w ++ [l]) w, Ok tt).

(** ** File-system primitives *)

Definition is_dir (f : gmap path node) (p : path) : bool :=
  match f !! p with Some (Dir _) => true | _ => false end.

Definition is_file (f : gmap path node) (p : path) : bool :=
  match f !! p with Some (File _) => true | _ => false end.

(** [Path.exists]. *)
Definition path_exists (p : path) : M bool :=
  fun w => (w, Ok (bool_decide (is_Some (fs w !! p)))).

(** [Path.stat().st_mtime]. *)
Definition stat_mtime (p : path) : M Z :=
  fun w => match fs w !! p with
           | Some (File f) => (w, Ok (f_mtime f))
           | Some (Dir m) => (w, Ok m)
           | None => (w, Raise FileNotFoundError)
           end.

(** [Path.mkdir(parents=True, exist_ok=True)], walking down from [pre]:
    missing directories are created, stamped with the clock, existing
    ones are kept, and a regular file on the way makes the call raise. *)
Fixpoint mkdir_from (pre : path) (comps : list string) : M unit :=
  match comps with
  | [] => ret tt
  | c :: cs =>
      let p := pre ++ [c] in
      fun w => match fs w !! p with
               | None => mkdir_from p cs (with_fs (<[p := Dir (now w)]> (fs w)) w)
               | Some (Dir _) => mkdir_from p cs w
               | Some (File _) =>
                   (w, Raise (match cs with
                              | [] => FileExistsError
                              | _ => NotADirectoryError
                              end))
               end
  end.

Definition mkdir (p : path) : M unit := mkdir_from [] p.

(** The directory that holds [p]; the data root holds the top level. *)
Definition parent (p : path) : path := removelast p.

(** [shutil.copy2(src, dst)]: a directory as destination means the file
    of the same name inside it; bytes and modification time are copied. *)
Definition copy2 (src dst : path) : M unit :=
  fun w =>
    let dst' := if is_dir (fs w) dst then dst ++ [name src] else dst in
    match fs w !! src with
    | None => (w, Raise FileNotFoundError)
    | Some (Dir _) =>
        (w, Raise (if decide (src = dst') then SameFileError else IsADirectoryError))
    | Some (File f) =>
        if decide (src = dst') then (w, Raise SameFileError)
        else if is_dir (fs w) dst' then (w, Raise IsADirectoryError)
        else match parent dst' with
             | [] => (with_fs (<[dst' := File f]> (fs w)) w, Ok tt)
             | d => match fs w !! d with
                    | Some (Dir _) => (with_fs (<[dst' := File f]> (fs w)) w, Ok tt)
                    | Some (File _) => (w, Raise NotADirectoryError)
                    | None => (w, Raise FileNotFoundError)
                    end
             end
    end.

(** [Path.unlink(missing_ok=True)]. *)
Definition unlink (p : path) : M unit :=
  fun w => match fs w !! p with
           | None => (w, Ok tt)
           | Some (File _) => (with_fs (delete p (fs w)) w, Ok tt)
           | Some (Dir _) => (w, Raise IsADirectoryError)
           end.

(** ** The catalogue table *)

Definition next_id (rows : list row) : nat :=
  S (foldr Nat.max 0%nat (id <$> rows)).

Definition conflicts (k d : string) (r : row) : bool :=
  bool_decide (station_key r = k ∧ date r = d).

(** [INSERT INTO archive_images(...) VALUES (...) ON CONFLICT(station_key,
    date) DO UPDATE SET image_name, country, station, file_path]. *)
Definition upsert (img ctry stn d k fp : string) (rows : list row) : list row :=
  if existsb (conflicts k d) rows
  then (fun r => if conflicts k d r
                 then {| id := id r; image_name := img; row_country := ctry;
                         row_station := stn; date := date r;
                         station_key := station_key r; file_path := fp |}
                 else r) <$> rows
  else rows ++ [ {| id := next_id rows; image_name := img; row_country := ctry;
                    row_station := stn; date := d; station_key := k;
                    file_path := fp |} ].

Definition db_upsert (img ctry stn d k fp : string) : M unit :=
  fun w => (with_db (upsert img ctry stn d k fp (db w)) w, Ok tt).

(** ** Sorting *)

(** A stable insertion sort, standing for Python's [sorted] and for the
    [ORDER BY] of the search. *)
Fixpoint insert_sorted {A} (le : A -> A -> bool) (x : A) (l : list A) : list A :=
  match l with
  | [] => [x]
  | y :: l' => if le x y then x :: l else y :: insert_sorted le x l'
  end.

Definition sorted {A} (le : A -> A -> bool) (l : list A) : list A :=
  foldr (insert_sorted le) [] l.

(** ** Archive writer and file mirror *)

Definition _ensure_dirs_for_station (k : string) : M unit :=
  mkdir (INCOMING_DIR ++ [k]) ;;;
  mkdir (CURRENT_DIR ++ [k]) ;;;
  mkdir (ARCHIVE_DIR ++ [k]) ;;;
  mkdir (OLD_INCOMING_DIR ++ [k]).

Definition utc_date_from_mtime (p : path) : M string :=
  ts <- stat_mtime p ;;
  match Calendar.fromtimestamp_utc ts with
  | Some dt => ret (Calendar.strftime_ymd dt)
  | None => raise ValueError
  end.

Definition _archive_file (src : path) (station_cfg : station_cfg) : M (option info) :=
  let k := key station_cfg in
  _ensure_dirs_for_station k ;;;
  e <- path_exists src ;;
  if negb e then ret None else
  date_str <- utc_date_from_mtime src ;;
  match Text.split_on "-" date_str with
  | [yyyy; mm; dd] =>
      let archive_dir := ARCHIVE_DIR ++ [k; yyyy; mm; dd] in
      mkdir archive_dir ;;;
      let image_name := name src in
      let archive_dst := archive_dir ++ [image_name] in
      copy2 src archive_dst ;;;
      db_upsert image_name (country station_cfg) (station station_cfg)
                date_str k (Text.join_posix archive_dst) ;;;
      ret (Some {| i_key := k; i_date := date_str;
                   i_archive := Text.join_posix archive_dst |})
  | _ => raise ValueError
  end.

Definition _is_newer_than_current (src current_dst : path) : M bool :=
  e <- path_exists current_dst ;;
  if negb e then ret true else
  r <- try (a <- stat_mtime src ;; b <- stat_mtime current_dst ;; ret (a >? b)) ;;
  match r with
  | Ok b => ret b
  | Raise _ => ret false
  end.

Definition mirror_current_and_archive (station_cfg : station_cfg) : M (option info) :=
  let k := key station_cfg in
  _ensure_dirs_for_station k ;;;
  let src := INCOMING_DIR ++ [k; incoming_filename station_cfg] in
  e <- path_exists src ;;
  if negb e then ret None else
  let current_dst := CURRENT_DIR ++ [k; "latest.png"] in
  newer <- _is_newer_than_current src current_dst ;;
  if newer then
    copy2 src current_dst ;;;
    _archive_file src station_cfg
  else
    _archive_file src station_cfg.

(** ** Backfill sweep and scan *)

Section Sweep.

(** [os.scandir]: the names of the entries of a directory, in the order
    in which the operating system yields them. *)
Variable scandir : gmap path node -> path -> list string.

(** [[p for p in src_dir.glob("*.png") if p.is_file()]]. *)
Definition glob_png_files (src_dir : path) : M (list path) :=
  fun w =>
    (w, Ok (if is_dir (fs w) src_dir
            then List.filter (is_file (fs w))
                   ((fun n => src_dir ++ [n]) <$>
                      List.filter Text.is_png (scandir (fs w) src_dir))
            else [])).

(** The keys [p.stat().st_mtime] of [sorted], computed for every element
    before the sort. *)
Fixpoint with_mtime (ps : list path) : M (list (Z * path)) :=
  match ps with
  | [] => ret []
  | p :: ps' =>
      m <- stat_mtime p ;;
      rest <- with_mtime ps' ;;
      ret ((m, p) :: rest)
  end.

Definition sorted_by_mtime (ps : list path) : M (list path) :=
  keyed <- with_mtime ps ;;
  ret (snd <$> sorted (fun a b => fst a <=? fst b) keyed).

(** The body of the loop over [pngs], with the list [archived] that it
    appends to. *)
Fixpoint sweep_loop (station_cfg : station_cfg) (pngs : list path)
    (archived : list info) : M (list info) :=
  match pngs with
  | [] => ret archived
  | src :: rest =>
      r <- try (_archive_file src station_cfg) ;;
      archived' <-
        match r with
        | Raise e => print (Warn src e) ;;; ret archived
        | Ok None => ret archived
        | Ok (Some it) =>
            r' <- try (unlink src) ;;
            match r' with
            | Raise e => print (Warn src e) ;;; ret (archived ++ [it])
            | Ok _ => ret (archived ++ [it])
            end
        end ;;
      sweep_loop station_cfg rest archived'
  end.

Definition archive_only_from_old_incoming (station_cfg : station_cfg)
    : M (option (list info)) :=
  let k := key station_cfg in
  _ensure_dirs_for_station k ;;;
  let src_dir := OLD_INCOMING_DIR ++ [k] in
  e <- path_exists src_dir ;;
  if negb e then ret None else
  files <- glob_png_files src_dir ;;
  pngs <- sorted_by_mtime files ;;
  archived <- sweep_loop station_cfg pngs [] ;;
  ret (Some archived).

(** First loop of [scan_cmd]. *)
Fixpoint scan_incoming (sts : list station_cfg) (created : list info) : M (list info) :=
  match sts with
  | [] => ret created
  | st :: rest =>
      it <- mirror_current_and_archive st ;;
      scan_incoming rest (match it with
                          | Some i => created ++ [i]
                          | None => created
                          end)
  end.

(** Second loop of [scan_cmd]; [list.extend(None)] raises [TypeError]. *)
Fixpoint scan_old_incoming (sts : list station_cfg) (archived_old : list info)
    : M (list info) :=
  match sts with
  | [] => ret archived_old
  | st :: rest =>
      archived <- archive_only_from_old_incoming st ;;
      match archived with
      | Some l => scan_old_incoming rest (archived_old ++ l)
      | None => raise TypeError
      end
  end.

Fixpoint print_all (ls : list line) : M unit :=
  match ls with
  | [] => ret tt
  | l :: ls' => print l ;;; print_all ls'
  end.

Definition scan_cmd : M unit :=
  created <- scan_incoming STATIONS [] ;;
  archived_old <- scan_old_incoming STATIONS [] ;;
  print (ScanDone (length created) (length archived_old)) ;;;
  print_all (Created <$> created) ;;;
  print_all (Backfilled <$> archived_old).

End Sweep.

(** A directory listing in the order of the map's enumeration; the
    operating system is free to use any other. *)
Definition listdir (f : gmap path node) (d : path) : list string :=
  omap (fun '(p, _) =>
          if decide (parent p = d ∧ p ≠ []) then Some (name p) else None)
       (map_to_list f).

(** ** Search *)

(** A row as the [SELECT] of the search returns it. *)
Record result := {
  res_image_name : string;
  res_country : string;
  res_station : string;
  res_date : string;
  res_file_path : string
}.

Definition to_result (r : row) : result :=
  {| res_image_name := image_name r; res_country := row_country r;
     res_station := row_station r; res_date := date r;
     res_file_path := file_path r |}.

Inductive column := ColCountry | ColStation | ColDate.

Definition column_of (c : column) (r : row) : string :=
  match c with
  | ColCountry => row_country r
  | ColStation => row_station r
  | ColDate => date r
  end.

(** [WHERE 1=1 AND c1 = ? AND c2 = ? ...]. *)
Definition where_all (conds : list (column * string)) (r : row) : bool :=
  forallb (fun '(c, v) => bool_decide (column_of c r = v)) conds.

(** [ORDER BY date DESC, station ASC], strings compared byte by byte. *)
Definition order_date_desc_station_asc (r1 r2 : row) : bool :=
  match String.compare (date r1) (date r2) with
  | Gt => true
  | Lt => false
  | Eq => String.leb (row_station r1) (row_station r2)
  end.

Definition arg (args : gmap string string) (k : string) : string :=
  Text.strip (default EmptyString (args !! k)).

Definition cond (c : column) (q : string) : list (column * string) :=
  if decide (q = EmptyString) then [] else [(c, q)].

(** The rows handed to the template by [search], for the query
    arguments [args] of the request. *)
Definition search (args : gmap string string) (w : world) : list result :=
  let q_country := arg args "country" in
  let q_station := arg args "station" in
  let q_date := arg args "date" in
  let params := cond ColCountry q_country ++ cond ColStation q_station
                ++ cond ColDate q_date in
  to_result <$>
    sorted order_date_desc_station_asc (List.filter (where_all params) (db w)).

(** ** Pages *)

(** [sorted({s[field] for s in STATIONS})]: the distinct values, in
    ascending order. *)
Definition sorted_set (l : list string) : list string :=
  sorted String.leb (remove_dups l).

Definition countries : list string := sorted_set (country <$> STATIONS).
Definition stations : list string := sorted_set (station <$> STATIONS).

(** [ROWS = STATIONS]. *)
Definition ROWS : list station_cfg := STATIONS.

(** What a view hands to [render_template]: the template and its
    variables, without [last_change], the local date of the request. *)
Inductive page :=
  | IndexPage (rows : list station_cfg) (cs ss : list string)
  | StationPage (row : station_cfg) (cs ss : list string)
  | SearchPage (results : list result) (cs ss : list string).

Inductive response :=
  | Rendered (p : page)
  | Status (body : string) (code : Z).

Definition index : response := Rendered (IndexPage ROWS countries stations).

(** [next((s for s in STATIONS if s["key"] == station_key), None)]. *)
Definition find_station (station_key : string) : option station_cfg :=
  List.find (fun s => bool_decide (key s = station_key)) STATIONS.

Definition station_view (station_key : string) : response :=
  match find_station station_key with
  | None => Status "Unknown station" 404
  | Some row => Rendered (StationPage row countries stations)
  end.

(** The image of a station as the index and station templates address
    it: ['current/' + row.key + '/latest.png']. *)
Definition current_rel (k : string) : string :=
  "current/" +:+ k +:+ "/latest.png".

Fixpoint replace_char (a b : ascii) (s : string) : string :=
  match s with
  | EmptyString => EmptyString
  | String c s' => String (if Ascii.eqb c a then b else c) (replace_char a b s')
  end.

Definition backslash : ascii := ascii_of_nat 92.

(** [path.replace('\\', '/')], the path that [data_file] hands to
    [send_from_directory]. *)
Definition data_file_norm (p : string) : string := replace_char backslash "/" p.

(** ** Creating the schema *)

Definition SCHEMA_SQL : string := "
CREATE TABLE IF NOT EXISTS archive_images (
    id INTEGER PRIMARY KEY AUTOINCREMENT,
    image_name TEXT NOT NULL,
    country TEXT NOT NULL,
    station TEXT NOT NULL,
    date TEXT NOT NULL,            -- YYYY-MM-DD (UTC)
    station_key TEXT NOT NULL,
    file_path TEXT NOT NULL,
    UNIQUE (station_key, date)
);
CREATE INDEX IF NOT EXISTS idx_archive_country ON archive_images(country);
CREATE INDEX IF NOT EXISTS idx_archive_station ON archive_images(station);
CREATE INDEX IF NOT EXISTS idx_archive_date ON archive_images(date);
".

(** The statements that [init_db_cmd] executes for the text [sql]:
    [for stmt in sql.strip().split(';'): s = stmt.strip(); if s: ...]. *)
Definition schema_statements (sql : string) : list string :=
  List.filter (fun s => negb (String.eqb s EmptyString))
              (Text.strip <$> Text.split_on ";" (Text.strip sql)).

(** * Properties *)

(** ** Worlds and the monad *)

Lemma with_fs_db f w : db (with_fs f w) = db w.
Proof. reflexivity. Qed.

Lemma bind_inv {A B} (c : M A) (k : A -> M B) w w' r :
  bind c k w = (w', r) ->
  (exists w1 a, c w = (w1, Ok a) /\ k a w1 = (w', r)) \/
  (exists e, c w = (w', Raise e) /\ r = Raise e).
Proof.
  unfold bind. destruct (c w) as [w1 [a|e]] eqn:E; intros H.
  - left. eauto.
  - right. inversion H; subst. eauto.
Qed.

Lemma bind_ok {A B} (c : M A) (k : A -> M B) w w1 a :
  c w = (w1, Ok a) -> bind c k w = k a w1.
Proof. unfold bind. intros ->. reflexivity. Qed.

Lemma bind_raise {A B} (c : M A) (k : A -> M B) w w1 e :
  c w = (w1, Raise e) -> bind c k w = (w1, Raise e).
Proof. unfold bind. intros ->. reflexivity. Qed.

(** ** Operations that only read *)

Lemma path_exists_run p w :
  path_exists p w = (w, Ok (bool_decide (is_Some (fs w !! p)))).
Proof. reflexivity. Qed.

Lemma stat_mtime_same p w w' r : stat_mtime p w = (w', r) -> w' = w.
Proof. unfold stat_mtime. intros H. repeat (case_match; simplify_eq); done. Qed.

Lemma utc_date_same p w w' r : utc_date_from_mtime p w = (w', r) -> w' = w.
Proof.
  unfold utc_date_from_mtime. intros H.
  apply bind_inv in H as [(w1 & ts & H1 & H)|(e & H1 & _)];
    apply stat_mtime_same in H1; subst; [|done].
  unfold ret, raise in H. by case_match; simplify_eq.
Qed.

(** ** The table only changes by upserts *)

Inductive upserts : list row -> list row -> Prop :=
  | upserts_refl rows : upserts rows rows
  | upserts_step rows rows' img ctry stn d k fp :
      upserts rows rows' ->
      upserts rows (upsert img ctry stn d k fp rows').

Lemma upserts_trans a b c : upserts a b -> upserts b c -> upserts a c.
Proof. intros Hab Hbc. induction Hbc; [done | by constructor; auto]. Qed.

Lemma upserts_one img ctry stn d k fp rows :
  upserts rows (upsert img ctry stn d k fp rows).
Proof. constructor. constructor. Qed.

Definition db_upserted (w w' : world) : Prop := upserts (db w) (db w').

#[global] Instance db_upserted_preorder : PreOrder db_upserted.
Proof.
  split.
  - intros w. constructor.
  - intros a b c. apply upserts_trans.
Qed.

(** ** Operations that respect a preorder on worlds *)

Section Respects.

Context (R : relation world) `{!PreOrder R}.

Definition respects {A} (c : M A) : Prop :=
  forall w w' r, c w = (w', r) -> R w w'.

Lemma respects_ret {A} (a : A) : respects (ret a).
Proof. intros w w' r H. inversion H. reflexivity. Qed.

Lemma respects_raise {A} e : respects (@raise A e).
Proof. intros w w' r H. inversion H. reflexivity. Qed.

Lemma respects_bind {A B} (c : M A) (k : A -> M B) :
  respects c -> (forall a, respects (k a)) -> respects (bind c k).
Proof.
  intros Hc Hk w w' r H.
  apply bind_inv in H as [(w1 & a & H1 & H)|(e & H1 & _)].
  - etrans; [by eapply Hc | by eapply Hk].
  - by eapply Hc.
Qed.

Lemma respects_try {A} (c : M A) : respects c -> respects (try c).
Proof.
  intros Hc w w' r H. unfold try in H.
  destruct (c w) as [w1 r1] eqn:E. inversion H; subst. by eapply Hc.
Qed.

Lemma respects_path_exists p : respects (path_exists p).
Proof. intros w w' r H. inversion H. reflexivity. Qed.

Lemma respects_stat_mtime p : respects (stat_mtime p).
Proof.
  intros w w' r H. unfold stat_mtime in H.
  repeat (case_match; simplify_eq); reflexivity.
Qed.

Lemma respects_utc_date p : respects (utc_date_from_mtime p).
Proof.
  apply respects_bind; [apply respects_stat_mtime|].
  intros ts. case_match; [apply respects_ret | apply respects_raise].
Qed.

Lemma respects_is_newer src cur : respects (_is_newer_than_current src cur).
Proof.
  apply respects_bind; [apply respects_path_exists|].
  intros e. destruct (negb e); [apply respects_ret|].
  apply respects_bind.
  - apply respects_try.
    repeat (apply respects_bind; [apply respects_stat_mtime|]; intros ?).
    apply respects_ret.
  - intros [b|x]; apply respects_ret.
Qed.

Lemma respects_print l : (forall w, R w (with_out (out w ++ [l]) w)) -> respects (print l).
Proof. intros H w w' r E. inversion E. apply H. Qed.

Lemma respects_print_all ls : (forall l, respects (print l)) -> respects (print_all ls).
Proof.
  intros H. induction ls as [|l ls IH]; simpl.
  - apply respects_ret.
  - apply respects_bind; [apply H | intros _; apply IH].
Qed.

(** The compound operations respect [R] as soon as the writing
    primitives do, at the places where the station's operations use
    them. *)
Section Station.

Variable st : station_cfg.

Hypothesis R_ensure : respects (_ensure_dirs_for_station (key st)).
Hypothesis R_mkdir_archive :
  forall y m d, respects (mkdir (ARCHIVE_DIR ++ [key st; y; m; d])).
Hypothesis R_copy_archive :
  forall src y m d,
    respects (copy2 src ((ARCHIVE_DIR ++ [key st; y; m; d]) ++ [name src])).
Hypothesis R_upsert :
  forall img ctry stn d k fp, respects (db_upsert img ctry stn d k fp).

Lemma respects_archive_file src : respects (_archive_file src st).
Proof.
  unfold _archive_file.
  apply respects_bind; [apply R_ensure | intros _].
  apply respects_bind; [apply respects_path_exists | intros e].
  destruct (negb e); [apply respects_ret|].
  apply respects_bind; [apply respects_utc_date | intros ds].
  destruct (Text.split_on _ _) as [|y [|m [|d [|]]]]; try apply respects_raise.
  apply respects_bind; [apply R_mkdir_archive | intros _].
  apply respects_bind; [apply R_copy_archive | intros _].
  apply respects_bind; [apply R_upsert | intros _].
  apply respects_ret.
Qed.

Hypothesis R_copy_current :
  forall src, respects (copy2 src (CURRENT_DIR ++ [key st; "latest.png"])).

Lemma respects_mirror : respects (mirror_current_and_archive st).
Proof.
  unfold mirror_current_and_archive.
  apply respects_bind; [apply R_ensure | intros _].
  apply respects_bind; [apply respects_path_exists | intros e].
  destruct (negb e); [apply respects_ret|].
  apply respects_bind; [apply respects_is_newer | intros newer].
  destruct newer; [|apply respects_archive_file].
  apply respects_bind; [apply R_copy_current | intros _].
  apply respects_archive_file.
Qed.

Hypothesis R_print : forall l, respects (print l).

Lemma respects_sweep_loop pngs archived :
  (forall p, p ∈ pngs -> respects (unlink p)) ->
  respects (sweep_loop st pngs archived).
Proof.
  revert archived. induction pngs as [|src rest IH]; intros archived Hun; simpl.
  - apply respects_ret.
  - apply respects_bind; [apply respects_try, respects_archive_file | intros r].
    apply respects_bind.
    + destruct r as [[it|]|e].
      * apply respects_bind.
        { apply respects_try, Hun. by left. }
        intros [[]|e]; [apply respects_ret|].
        apply respects_bind; [apply R_print | intros _; apply respects_ret].
      * apply respects_ret.
      * apply respects_bind; [apply R_print | intros _; apply respects_ret].
    + intros archived'. apply IH. intros p Hp. apply Hun. by right.
Qed.

End Station.

End Respects.

(** ** How the operations change the world *)

(** The places of the layout that hold directories: the four roots, the
    station directories, and the year, month and day levels of the
    archive.  Everything else holds files. *)
Definition dirpos (p : path) : bool :=
  (length p <=? 2)%nat
  || (bool_decide (head p = Some "archive") && (length p <=? 5)%nat).

(** What may happen at one path: nothing, a directory appears at a
    directory place, a file is written at a file place in [W], or a file
    is removed from a file place in [D]. *)
Definition fs_change (W D : path -> Prop) (w w' : world) (p : path) : Prop :=
  fs w' !! p = fs w !! p
  \/ (fs w !! p = None /\ dirpos p = true /\ fs w' !! p = Some (Dir (now w)))
  \/ (W p /\ dirpos p = false /\ is_dir (fs w) p = false /\ is_file (fs w') p = true)
  \/ (D p /\ dirpos p = false /\ is_file (fs w) p = true /\ fs w' !! p = None).

Record evolve (W D : path -> Prop) (w w' : world) : Prop := {
  ev_now : now w' = now w;
  ev_db : upserts (db w) (db w');
  ev_out : out w `prefix_of` out w';
  ev_fs : forall p, fs_change W D w w' p
}.

#[global] Instance evolve_preorder W D : PreOrder (evolve W D).
Proof.
  split.
  - intros w. split; [done | constructor | done | by left].
  - intros a b c [Hn1 Hd1 Ho1 Hf1] [Hn2 Hd2 Ho2 Hf2]. split.
    + congruence.
    + by eapply upserts_trans.
    + by etrans.
    + intros p. specialize (Hf1 p). specialize (Hf2 p).
      unfold fs_change, is_dir, is_file in *. rewrite Hn1 in Hf2.
      destruct Hf1 as [E1|[(E1 & P1 & F1)|[(W1 & P1 & N1 & F1)|(D1 & P1 & F1 & N1)]]];
      destruct Hf2 as [E2|[(E2 & P2 & F2)|[(W2 & P2 & N2 & F2)|(D2 & P2 & F2 & N2)]]];
      try congruence;
      destruct (fs a !! p) as [[]|] eqn:Ea; try congruence;
      destruct (fs b !! p) as [[]|] eqn:Eb; try congruence;
      destruct (fs c !! p) as [[]|] eqn:Ec; try congruence;
      simplify_eq;
      first [ by left | by right; left | by right; right; left
            | by right; right; right ].
Qed.

Lemma evolve_mono (W W' D D' : path -> Prop) w w' :
  (forall p, W p -> W' p) -> (forall p, D p -> D' p) ->
  evolve W D w w' -> evolve W' D' w w'.
Proof.
  intros HW HD [Hn Hd Ho Hf]. split; try done.
  intros p. destruct (Hf p) as [E|[E|[(Wp & E)|(Dp & E)]]].
  - by left.
  - by right; left.
  - right; right; left. split; [by apply HW | done].
  - right; right; right. split; [by apply HD | done].
Qed.

Lemma respects_mono (W W' D D' : path -> Prop) {A} (c : M A) :
  (forall p, W p -> W' p) -> (forall p, D p -> D' p) ->
  respects (evolve W D) c -> respects (evolve W' D') c.
Proof. intros HW HD Hc w w' r E. eapply evolve_mono; eauto. Qed.

Lemma dirpos_prefix (q r : path) :
  q <> [] -> dirpos (q ++ r) = true -> dirpos q = true.
Proof.
  unfold dirpos. destruct q as [|c q]; [done|]. intros _. simpl.
  rewrite !length_app.
  intros H. apply orb_true_iff in H as [H|H].
  - apply orb_true_iff. left. apply Nat.leb_le. apply Nat.leb_le in H. lia.
  - apply andb_true_iff in H as [H1 H2]. apply orb_true_iff. right.
    rewrite H1. simpl. apply Nat.leb_le. apply Nat.leb_le in H2. lia.
Qed.

Lemma dirpos_app_false (q r : path) :
  dirpos q = false -> dirpos (q ++ r) = false.
Proof.
  intros H. destruct (dirpos (q ++ r)) eqn:E; [|done].
  apply dirpos_prefix in E; [congruence|]. by intros ->.
Qed.

Section Evolve.

Context (W D : path -> Prop).

Lemma evolve_mkdir_from pre comps :
  (forall q r, comps = q ++ r -> q <> [] -> dirpos (pre ++ q) = true) ->
  respects (evolve W D) (mkdir_from pre comps).
Proof.
  revert pre. induction comps as [|c cs IH]; intros pre Hpos; simpl.
  - apply respects_ret. apply _.
  - intros w w' r H.
    assert (Hp : dirpos (pre ++ [c]) = true) by by apply (Hpos [c] cs).
    assert (Hrest : forall q r0, cs = q ++ r0 -> q <> [] ->
                                 dirpos ((pre ++ [c]) ++ q) = true).
    { intros q r0 -> Hq. rewrite <- app_assoc. by apply (Hpos (c :: q) r0). }
    destruct (fs w !! (pre ++ [c])) as [[m|f]|] eqn:E.
    + by eapply IH.
    + inversion H; subst. reflexivity.
    + etrans; [|by eapply IH].
      split; simpl; [done | constructor | done |].
      intros p. unfold fs_change. simpl.
      destruct (decide (p = pre ++ [c])) as [->|Hne].
      * right; left. by rewrite lookup_insert_eq.
      * left. by rewrite lookup_insert_ne.
Qed.

Lemma evolve_mkdir p : dirpos p = true -> respects (evolve W D) (mkdir p).
Proof.
  intros Hp. apply evolve_mkdir_from. intros q r -> Hq. simpl.
  by eapply dirpos_prefix.
Qed.

Lemma evolve_ensure_dirs k : respects (evolve W D) (_ensure_dirs_for_station k).
Proof.
  unfold _ensure_dirs_for_station.
  repeat (apply respects_bind; [apply _ | by apply evolve_mkdir | intros _]).
  by apply evolve_mkdir.
Qed.

Lemma evolve_copy2 src dst :
  W dst -> W (dst ++ [name src]) -> dirpos dst = false ->
  respects (evolve W D) (copy2 src dst).
Proof.
  intros HW1 HW2 Hpos w w' r H. unfold copy2 in H.
  set (dst' := if is_dir (fs w) dst then dst ++ [name src] else dst) in *.
  assert (HW : W dst') by (unfold dst'; by destruct (is_dir _ dst)).
  assert (Hpos' : dirpos dst' = false).
  { unfold dst'. destruct (is_dir _ dst); [by apply dirpos_app_false | done]. }
  assert (Hwrite : forall f, is_dir (fs w) dst' = false ->
            evolve W D w (with_fs (<[dst' := File f]> (fs w)) w)).
  { intros f Hnd. split; simpl; [done | constructor | done |].
    intros p. unfold fs_change. simpl.
    destruct (decide (p = dst')) as [->|Hne].
    - right; right; left. unfold is_file. by rewrite lookup_insert_eq.
    - left. by rewrite lookup_insert_ne. }
  repeat (case_match; simplify_eq); try reflexivity; by apply Hwrite.
Qed.

Lemma evolve_unlink p :
  D p -> dirpos p = false -> respects (evolve W D) (unlink p).
Proof.
  intros HD Hpos w w' r H. unfold unlink in H.
  repeat (case_match; simplify_eq); try reflexivity.
  split; simpl; [done | constructor | done |].
  intros q. unfold fs_change. simpl.
  destruct (decide (q = p)) as [->|Hne].
  - right; right; right. unfold is_file. rewrite lookup_delete_eq.
    by match goal with E : fs _ !! p = _ |- _ => rewrite E end.
  - left. by rewrite lookup_delete_ne.
Qed.

Lemma evolve_upsert img ctry stn d k fp :
  respects (evolve W D) (db_upsert img ctry stn d k fp).
Proof.
  intros w w' r H. inversion H; subst.
  split; simpl; [done | apply upserts_one | done | by left].
Qed.

Lemma evolve_print l : respects (evolve W D) (print l).
Proof.
  intros w w' r H. inversion H; subst.
  split; simpl; [done | constructor | by eexists | by left].
Qed.

End Evolve.

(** ** Sorting *)

Lemma insert_sorted_perm {A} (le : A -> A -> bool) x l :
  insert_sorted le x l ≡ₚ x :: l.
Proof.
  induction l as [|y l IH]; simpl; [done|].
  destruct (le x y); [done|]. rewrite IH. apply Permutation_swap.
Qed.

Lemma sorted_perm {A} (le : A -> A -> bool) l : sorted le l ≡ₚ l.
Proof.
  induction l as [|x l IH]; simpl; [done|].
  rewrite insert_sorted_perm. by rewrite IH.
Qed.

Section SortedOrder.

Context {A} (le : A -> A -> bool).
Hypothesis le_total : forall x y, le x y = false -> le y x = true.
Hypothesis le_trans : forall x y z, le x y = true -> le y z = true -> le x z = true.

Lemma insert_sorted_strongly x l :
  StronglySorted (fun a b => le a b = true) l ->
  StronglySorted (fun a b => le a b = true) (insert_sorted le x l).
Proof.
  induction 1 as [|y l Hl IH Hy]; simpl.
  - repeat constructor.
  - destruct (le x y) eqn:E.
    + constructor; [by constructor|].
      constructor; [done|].
      eapply Forall_impl; [exact Hy|]. intros z Hz. by eapply le_trans.
    + constructor; [done|].
      rewrite insert_sorted_perm. constructor; [by apply le_total | done].
Qed.

Lemma sorted_strongly l :
  StronglySorted (fun a b => le a b = true) (sorted le l).
Proof.
  induction l as [|x l IH]; simpl; [constructor|].
  by apply insert_sorted_strongly.
Qed.

End SortedOrder.

(** ** Listing and sorting the backlog *)

Section SweepFacts.

Variable scandir : gmap path node -> path -> list string.

Lemma glob_png_files_inv src_dir w w' r :
  glob_png_files scandir src_dir w = (w', r) ->
  w' = w /\ exists l, r = Ok l /\
    forall p, p ∈ l -> is_file (fs w) p = true /\
      exists n, p = src_dir ++ [n] /\ Text.is_png n = true /\ n ∈ scandir (fs w) src_dir.
Proof.
  unfold glob_png_files. intros H. inversion H; subst. split; [done|].
  eexists. split; [done|]. intros p Hp.
  destruct (is_dir (fs w') src_dir); [|by apply elem_of_nil in Hp].
  apply list_elem_of_In, filter_In in Hp as [Hp Hf]. split; [done|].
  apply list_elem_of_In, list_elem_of_fmap in Hp as (n & -> & Hn).
  apply list_elem_of_In, filter_In in Hn as [Hn Hpng].
  exists n. split_and!; [done..|]. by apply list_elem_of_In.
Qed.

Lemma with_mtime_inv ps w w' r :
  with_mtime ps w = (w', r) ->
  w' = w /\ forall keyed, r = Ok keyed ->
    snd <$> keyed = ps /\
    Forall (fun mp => stat_mtime mp.2 w = (w, Ok mp.1)) keyed.
Proof.
  revert w' r. induction ps as [|p ps IH]; intros w' r H; simpl in H.
  - inversion H; subst. split; [done|]. intros keyed [= <-]. by split.
  - apply bind_inv in H as [(w1 & m & H1 & H)|(e & H1 & ->)].
    + pose proof (stat_mtime_same _ _ _ _ H1) as ->.
      apply bind_inv in H as [(w2 & rest & H2 & H)|(e & H2 & ->)].
      * apply IH in H2 as [-> H2]. inversion H; subst. split; [done|].
        intros keyed [= <-]. destruct (H2 rest eq_refl) as [E F].
        split; [simpl; by f_equal | by constructor].
      * apply IH in H2 as [-> _]. split; [done|]. by intros.
    + pose proof (stat_mtime_same _ _ _ _ H1) as ->. split; [done|]. by intros.
Qed.

Lemma sorted_by_mtime_inv ps w w' r :
  sorted_by_mtime ps w = (w', r) ->
  w' = w /\ forall l, r = Ok l -> l ≡ₚ ps.
Proof.
  unfold sorted_by_mtime. intros H.
  apply bind_inv in H as [(w1 & keyed & H1 & H)|(e & H1 & ->)];
    apply with_mtime_inv in H1 as [-> H1]; [|split; [done|by intros]].
  inversion H; subst. split; [done|]. intros l [= <-].
  destruct (H1 keyed eq_refl) as [<- _].
  by rewrite sorted_perm.
Qed.

End SweepFacts.

(** ** The compound operations only write where they should *)

Definition under (pre p : path) : Prop := pre `prefix_of` p.

(** Where [mirror_current_and_archive] writes for station key [k]. *)
Definition writes_of (k : string) (p : path) : Prop :=
  under (ARCHIVE_DIR ++ [k]) p \/ under (CURRENT_DIR ++ [k]) p.

(** The files of the backlog of station key [k]. *)
Definition backlog_of (k : string) (p : path) : Prop :=
  exists n, p = OLD_INCOMING_DIR ++ [k; n].

Lemma respects_bind_post (R : relation world) `{!PreOrder R} {A B}
    (P : A -> Prop) (c : M A) (k : A -> M B) :
  respects R c ->
  (forall w w1 a, c w = (w1, Ok a) -> P a) ->
  (forall a, P a -> respects R (k a)) ->
  respects R (bind c k).
Proof.
  intros Hc HP Hk w w' r H.
  apply bind_inv in H as [(w1 & a & H1 & H)|(e & H1 & _)].
  - etrans; [by eapply Hc | eapply Hk; [by eapply HP | done]].
  - by eapply Hc.
Qed.

Section EvolveCompound.

Context (W D : path -> Prop) (st : station_cfg).

Hypothesis W_archive : forall p, under (ARCHIVE_DIR ++ [key st]) p -> W p.

Lemma evolve_archive_file src : respects (evolve W D) (_archive_file src st).
Proof.
  apply respects_archive_file; [apply _ | apply evolve_ensure_dirs | ..].
  - intros y m d. by apply evolve_mkdir.
  - intros src' y m d. apply evolve_copy2; [| |done].
    + apply W_archive. by eexists [_; _; _; _].
    + apply W_archive. by eexists [_; _; _; _; _].
  - intros. apply evolve_upsert.
Qed.

Lemma evolve_sweep_loop pngs archived :
  (forall p, p ∈ pngs -> D p /\ dirpos p = false) ->
  respects (evolve W D) (sweep_loop st pngs archived).
Proof.
  intros Hp.
  apply respects_sweep_loop; [apply _ | apply evolve_ensure_dirs | ..].
  - intros y m d. by apply evolve_mkdir.
  - intros src' y m d. apply evolve_copy2; [| |done].
    + apply W_archive. by eexists [_; _; _; _].
    + apply W_archive. by eexists [_; _; _; _; _].
  - intros. apply evolve_upsert.
  - apply evolve_print.
  - intros p Hin. destruct (Hp p Hin). by apply evolve_unlink.
Qed.

Hypothesis D_backlog : forall p, backlog_of (key st) p -> D p.

Lemma evolve_archive_only scandir :
  respects (evolve W D) (archive_only_from_old_incoming scandir st).
Proof.
  unfold archive_only_from_old_incoming.
  apply respects_bind; [apply _ | apply evolve_ensure_dirs | intros _].
  apply respects_bind; [apply _ | apply respects_path_exists, _ | intros e].
  destruct (negb e); [apply respects_ret, _|].
  apply (respects_bind_post _ (fun l => forall p, p ∈ l -> backlog_of (key st) p)).
  { intros w w' r H. apply glob_png_files_inv in H as [-> _]. reflexivity. }
  { intros w w1 l H. apply glob_png_files_inv in H as [-> (l' & [= <-] & Hl)].
    intros p Hp. destruct (Hl p Hp) as (_ & n & -> & _). by exists n. }
  intros files Hfiles.
  apply (respects_bind_post _ (fun l => forall p, p ∈ l -> backlog_of (key st) p)).
  { intros w w' r H. apply sorted_by_mtime_inv in H as [-> _]. reflexivity. }
  { intros w w1 l H. apply sorted_by_mtime_inv in H as [-> Hl].
    intros p Hp. apply Hfiles. by rewrite <- (Hl l eq_refl). }
  intros pngs Hpngs.
  apply respects_bind; [apply _ | | intros; apply respects_ret, _].
  apply evolve_sweep_loop. intros p Hp. split; [by apply D_backlog, Hpngs|].
  by destruct (Hpngs p Hp) as [n ->].
Qed.

Hypothesis W_current : forall p, under (CURRENT_DIR ++ [key st]) p -> W p.

Lemma evolve_mirror : respects (evolve W D) (mirror_current_and_archive st).
Proof.
  apply respects_mirror; [apply _ | apply evolve_ensure_dirs | ..].
  - intros y m d. by apply evolve_mkdir.
  - intros src' y m d. apply evolve_copy2; [| |done].
    + apply W_archive. by eexists [_; _; _; _].
    + apply W_archive. by eexists [_; _; _; _; _].
  - intros. apply evolve_upsert.
  - intros src. apply evolve_copy2; [| |done].
    + apply W_current. by eexists [_].
    + apply W_current. by eexists [_; _].
Qed.

End EvolveCompound.

(** Where a scan writes and what it removes. *)
Definition scan_writes (p : path) : Prop :=
  exists st, st ∈ STATIONS /\ writes_of (key st) p.
Definition scan_removes (p : path) : Prop :=
  exists st, st ∈ STATIONS /\ backlog_of (key st) p.

Lemma evolve_scan_incoming W D sts created :
  (forall st p, st ∈ sts -> writes_of (key st) p -> W p) ->
  respects (evolve W D) (scan_incoming sts created).
Proof.
  revert created. induction sts as [|st sts IH]; intros created HW; simpl.
  - apply respects_ret, _.
  - apply respects_bind; [apply _ | |].
    + apply evolve_mirror; intros p Hp; (apply (HW st); [by left|]);
        [by left | by right].
    + intros it. apply IH. intros st' p Hin. apply HW. by right.
Qed.

Lemma evolve_scan_old_incoming scandir W D sts archived_old :
  (forall st p, st ∈ sts -> writes_of (key st) p -> W p) ->
  (forall st p, st ∈ sts -> backlog_of (key st) p -> D p) ->
  respects (evolve W D) (scan_old_incoming scandir sts archived_old).
Proof.
  revert archived_old. induction sts as [|st sts IH]; intros acc HW HD; simpl.
  - apply respects_ret, _.
  - apply respects_bind; [apply _ | |].
    + apply evolve_archive_only; intros p Hp.
      * apply (HW st); [by left | by left].
      * apply (HD st); [by left | done].
    + intros [l|]; [|apply respects_raise, _].
      apply IH; intros st' p Hin; [apply HW | apply HD]; by right.
Qed.

Lemma evolve_scan_cmd scandir :
  respects (evolve scan_writes scan_removes) (scan_cmd scandir).
Proof.
  unfold scan_cmd.
  apply respects_bind; [apply _ | |intros created].
  { apply evolve_scan_incoming. intros st p Hin Hp. by exists st. }
  apply respects_bind; [apply _ | |intros archived_old].
  { apply evolve_scan_old_incoming; intros st p Hin Hp; by exists st. }
  apply respects_bind; [apply _ | apply evolve_print | intros _].
  apply respects_bind; [apply _ | | intros _].
  - apply respects_print_all; [apply _ | apply evolve_print].
  - apply respects_print_all; [apply _ | apply evolve_print].
Qed.

(** ** One record per station and day *)

(** The records of the table for station key [S] and day [D]. *)
Definition records_for (S D : string) (rows : list row) : list row :=
  List.filter (fun r => bool_decide (unique_key r = (S, D))) rows.

Definition unique_rows (rows : list row) : Prop := NoDup (unique_key <$> rows).

Lemma conflicts_spec k d r : conflicts k d r = true <-> unique_key r = (k, d).
Proof.
  unfold conflicts, unique_key. rewrite bool_decide_eq_true.
  split; [by intros [-> ->] | by intros [= -> ->]].
Qed.

Lemma existsb_conflicts k d rows :
  existsb (conflicts k d) rows = true <-> (k, d) ∈ unique_key <$> rows.
Proof.
  rewrite existsb_exists, list_elem_of_fmap. split.
  - intros (r & Hin & Hc). exists r. split; [by symmetry; apply conflicts_spec|].
    by apply list_elem_of_In.
  - intros (r & E & Hin). exists r. split; [by apply list_elem_of_In|].
    by apply conflicts_spec.
Qed.

Lemma upsert_keys img ctry stn d k fp rows :
  unique_key <$> upsert img ctry stn d k fp rows =
  if existsb (conflicts k d) rows then unique_key <$> rows
  else (unique_key <$> rows) ++ [(k, d)].
Proof.
  unfold upsert. destruct (existsb _ rows).
  - rewrite <- list_fmap_compose. apply list_fmap_ext. intros i r _. simpl.
    by destruct (conflicts k d r).
  - by rewrite fmap_app.
Qed.

Lemma upsert_unique img ctry stn d k fp rows :
  unique_rows rows -> unique_rows (upsert img ctry stn d k fp rows).
Proof.
  unfold unique_rows. rewrite upsert_keys.
  destruct (existsb _ rows) eqn:E; [done|]. intros H.
  apply NoDup_app. split_and!; [done| |apply NoDup_singleton].
  intros x Hx Hx'. apply list_elem_of_singleton in Hx' as ->.
  apply existsb_conflicts in Hx. congruence.
Qed.

Lemma upserts_unique a b : upserts a b -> unique_rows a -> unique_rows b.
Proof. induction 1; [done|]. intros. by apply upsert_unique, IHupserts. Qed.

Lemma unique_rows_records_for S D rows :
  unique_rows rows -> (length (records_for S D rows) <= 1)%nat.
Proof.
  unfold unique_rows, records_for. induction rows as [|r rows IH]; simpl; [lia|].
  intros H. apply NoDup_cons in H as [Hr H]. specialize (IH H).
  case_bool_decide as E; simpl; [|done].
  enough (List.filter (fun r0 => bool_decide (unique_key r0 = (S, D))) rows = [])
    as -> by (simpl; lia).
  destruct (List.filter _ rows) as [|r' l] eqn:F; [done|]. exfalso.
  assert (Hin : In r' (List.filter (fun r0 => bool_decide (unique_key r0 = (S, D))) rows))
    by (rewrite F; by left).
  apply filter_In in Hin as [Hin Hk]. apply bool_decide_eq_true in Hk.
  apply Hr. rewrite E, <- Hk. apply list_elem_of_fmap. exists r'.
  split; [done | by apply list_elem_of_In].
Qed.

Section Reachable.

Variable scandir : gmap path node -> path -> list string.

(** The worlds that the program can be in: after [init-db] the table is
    empty; between two operations the outside may rewrite the files and
    time passes; the operations are run in any order. *)
Inductive reachable : world -> Prop :=
  | reach_init w : db w = [] -> reachable w
  | reach_outside w f t :
      reachable w ->
      reachable {| fs := f; db := db w; out := out w; now := t |}
  | reach_archive w src st w' r :
      reachable w -> _archive_file src st w = (w', r) -> reachable w'
  | reach_mirror w st w' r :
      reachable w -> mirror_current_and_archive st w = (w', r) -> reachable w'
  | reach_sweep w st w' r :
      reachable w -> archive_only_from_old_incoming scandir st w = (w', r) ->
      reachable w'
  | reach_scan w w' r :
      reachable w -> scan_cmd scandir w = (w', r) -> reachable w'.

Lemma reachable_unique w : reachable w -> unique_rows (db w).
Proof.
  induction 1 as [w E|w f t _ IH|w src st w' r _ IH H|w st w' r _ IH H
                 |w st w' r _ IH H|w w' r _ IH H]; simpl.
  - rewrite E. constructor.
  - done.
  - eapply upserts_unique; [|exact IH].
    by eapply ev_db, (evolve_archive_file _ (fun _ => False)).
  - eapply upserts_unique; [|exact IH].
    by eapply ev_db, (evolve_mirror (fun _ => True) (fun _ => False)).
  - eapply upserts_unique; [|exact IH].
    by eapply ev_db, (evolve_archive_only (fun _ => True) (fun _ => True)).
  - eapply upserts_unique; [|exact IH].
    by eapply ev_db, evolve_scan_cmd.
Qed.

(** C1: whatever operations ran, and in whatever order, the table holds
    at most one record for a station key and a day. *)
Theorem one_record_per_station_day w S D :
  reachable w -> (length (records_for S D (db w)) <= 1)%nat.
Proof. intros H. by apply unique_rows_records_for, reachable_unique. Qed.

End Reachable.

(** ** What an evolution keeps *)

Section EvolveFacts.

Context {W D : path -> Prop} {w w' : world}.
Hypothesis Hev : evolve W D w w'.

Lemma evolve_is_file_dirpos p :
  dirpos p = true -> is_file (fs w') p = is_file (fs w) p.
Proof.
  intros Hp. destruct (ev_fs _ _ _ _ Hev p) as [E|[(E & _ & E')|[(_ & P & _)|(_ & P & _)]]];
    try congruence; unfold is_file; by rewrite ?E, ?E'.
Qed.

Lemma evolve_is_dir_filepos p :
  dirpos p = false -> is_dir (fs w') p = is_dir (fs w) p.
Proof.
  intros Hp.
  destruct (ev_fs _ _ _ _ Hev p) as [E|[(_ & P & _)|[(_ & _ & N & F)|(_ & _ & F & N)]]];
    try congruence; unfold is_dir, is_file in *.
  - by rewrite E.
  - rewrite N. by destruct (fs w' !! p) as [[]|].
  - rewrite N. by destruct (fs w !! p) as [[]|].
Qed.

Lemma evolve_keeps_dir p m : fs w !! p = Some (Dir m) -> fs w' !! p = Some (Dir m).
Proof.
  intros E.
  destruct (ev_fs _ _ _ _ Hev p) as [E'|[(E' & _)|[(_ & _ & N & _)|(_ & _ & F & _)]]];
    unfold is_dir, is_file in *; rewrite ?E in *; congruence.
Qed.

Lemma evolve_is_dir_mono p : is_dir (fs w) p = true -> is_dir (fs w') p = true.
Proof.
  unfold is_dir at 1. destruct (fs w !! p) as [[m|]|] eqn:E; try done.
  intros _. unfold is_dir. by rewrite (evolve_keeps_dir p m).
Qed.

Lemma evolve_untouched p :
  ~ W p -> ~ D p -> dirpos p = false -> fs w' !! p = fs w !! p.
Proof.
  intros HW HD Hp.
  by destruct (ev_fs _ _ _ _ Hev p) as [E'|[(_ & P & _)|[(? & _)|(? & _)]]];
    try congruence.
Qed.

Lemma evolve_keeps_file p f :
  ~ W p -> ~ D p -> fs w !! p = Some (File f) -> fs w' !! p = Some (File f).
Proof.
  intros HW HD E.
  by destruct (ev_fs _ _ _ _ Hev p) as [E'|[(E' & _)|[(? & _)|(? & _)]]];
    try congruence.
Qed.

Lemma evolve_no_new_file p f :
  ~ W p -> fs w' !! p = Some (File f) -> fs w !! p = Some (File f).
Proof.
  intros HW E.
  by destruct (ev_fs _ _ _ _ Hev p) as [E'|[(_ & _ & E')|[(? & _)|(_ & _ & _ & E')]]];
    try congruence.
Qed.

End EvolveFacts.

(** ** Creating directories *)

(** No regular file stands where [mkdir_from pre comps] needs a
    directory. *)
Fixpoint clear_from (f : gmap path node) (pre : path) (comps : list string) : bool :=
  match comps with
  | [] => true
  | c :: cs => negb (is_file f (pre ++ [c])) && clear_from f (pre ++ [c]) cs
  end.

Definition clear (f : gmap path node) (p : path) : bool := clear_from f [] p.

Lemma clear_from_ext f f' pre comps :
  (forall q r, comps = q ++ r -> q <> [] ->
     is_file f' (pre ++ q) = is_file f (pre ++ q)) ->
  clear_from f' pre comps = clear_from f pre comps.
Proof.
  revert pre. induction comps as [|c cs IH]; intros pre H; simpl; [done|].
  rewrite (H [c] cs) by done. f_equal. apply IH.
  intros q r -> Hq. rewrite <- app_assoc. by apply (H (c :: q) r).
Qed.

Lemma clear_evolve W D w w' p :
  evolve W D w w' -> dirpos p = true -> clear (fs w') p = clear (fs w) p.
Proof.
  intros Hev Hp. apply clear_from_ext. intros q r -> Hq. simpl.
  eapply evolve_is_file_dirpos; [done|]. by eapply dirpos_prefix.
Qed.

Definition same_tables (w w' : world) : Prop :=
  db w' = db w /\ out w' = out w /\ now w' = now w.

#[global] Instance same_tables_preorder : PreOrder same_tables.
Proof.
  split; [done|]. intros a b c (?&?&?) (?&?&?). unfold same_tables. split_and!; congruence.
Qed.

Lemma same_tables_mkdir_from pre comps : respects same_tables (mkdir_from pre comps).
Proof.
  revert pre. induction comps as [|c cs IH]; intros pre w w' r H; simpl in H.
  - by inversion H.
  - destruct (fs w !! (pre ++ [c])) as [[m|f]|].
    + by eapply IH.
    + by inversion H.
    + by apply IH in H.
Qed.

Lemma same_tables_ensure_dirs k : respects same_tables (_ensure_dirs_for_station k).
Proof.
  unfold _ensure_dirs_for_station, mkdir.
  repeat (apply respects_bind; [apply _ | apply same_tables_mkdir_from | intros _]).
  apply same_tables_mkdir_from.
Qed.

Lemma mkdir_from_keeps pre comps w w' r p n :
  mkdir_from pre comps w = (w', r) -> fs w !! p = Some n -> fs w' !! p = Some n.
Proof.
  revert pre w. induction comps as [|c cs IH]; intros pre w H E; simpl in H.
  - by inversion H; subst.
  - destruct (fs w !! (pre ++ [c])) as [[m|f]|] eqn:E'.
    + by eapply IH.
    + by inversion H; subst.
    + eapply IH; [exact H|]. simpl. rewrite lookup_insert_ne; [done|congruence].
Qed.

Lemma mkdir_from_ok pre comps w :
  clear_from (fs w) pre comps = true ->
  exists w', mkdir_from pre comps w = (w', Ok tt) /\
    forall q r, comps = q ++ r -> q <> [] -> is_dir (fs w') (pre ++ q) = true.
Proof.
  revert pre w. induction comps as [|c cs IH]; intros pre w H; simpl in *.
  - eexists. split; [done|]. intros q r E Hq. by destruct q.
  - apply andb_true_iff in H as [Hc H].
    assert (Hpost : forall w1 w',
      mkdir_from (pre ++ [c]) cs w1 = (w', Ok tt) ->
      is_dir (fs w1) (pre ++ [c]) = true ->
      (forall q r, cs = q ++ r -> q <> [] -> is_dir (fs w') ((pre ++ [c]) ++ q) = true) ->
      forall q r, c :: cs = q ++ r -> q <> [] -> is_dir (fs w') (pre ++ q) = true).
    { intros w1 w' Hrun Hd Hrest q r E Hq. destruct q as [|c' q]; [done|].
      injection E as <- ->. destruct q as [|c2 q].
      - unfold is_dir in *. destruct (fs w1 !! (pre ++ [c])) as [[m|]|] eqn:E1; try done.
        by rewrite (mkdir_from_keeps _ _ _ _ _ _ _ Hrun E1).
      - rewrite (cons_middle c pre), app_assoc. by eapply Hrest. }
    unfold is_file in Hc. destruct (fs w !! (pre ++ [c])) as [[m|f]|] eqn:E; [|done|].
    + destruct (IH (pre ++ [c]) w H) as (w' & Hrun & Hrest).
      exists w'. split; [done|]. eapply Hpost; [done| |done].
      unfold is_dir. by rewrite E.
    + set (w1 := with_fs (<[pre ++ [c] := Dir (now w)]> (fs w)) w).
      destruct (IH (pre ++ [c]) w1) as (w' & Hrun & Hrest).
      { rewrite <- H. apply clear_from_ext. intros q r -> Hq. simpl.
        unfold is_file. rewrite lookup_insert_ne; [done|].
        intros E'. apply (f_equal length) in E'. rewrite !length_app in E'.
        destruct q; [done|]. simpl in E'. lia. }
      exists w'. split; [done|]. eapply Hpost; [done| |done].
      unfold is_dir, w1. simpl. by rewrite lookup_insert_eq.
Qed.

Lemma mkdir_from_raise pre comps w :
  clear_from (fs w) pre comps = false ->
  exists w' e, mkdir_from pre comps w = (w', Raise e).
Proof.
  revert pre w. induction comps as [|c cs IH]; intros pre w H; simpl in *; [done|].
  unfold is_file in H. destruct (fs w !! (pre ++ [c])) as [[m|f]|] eqn:E; simpl in H.
  - by apply IH.
  - eauto.
  - apply IH. rewrite <- H. apply clear_from_ext. intros q r -> Hq. simpl.
    unfold is_file. rewrite lookup_insert_ne; [done|].
    intros E'. apply (f_equal length) in E'. rewrite !length_app in E'.
    destruct q; [done|]. simpl in E'. lia.
Qed.

Definition nowhere (p : path) : Prop := False.

Lemma mkdir_ok p w :
  clear (fs w) p = true -> dirpos p = true ->
  exists w', mkdir p w = (w', Ok tt) /\
    evolve nowhere nowhere w w' /\ same_tables w w' /\
    forall q r, p = q ++ r -> q <> [] -> is_dir (fs w') q = true.
Proof.
  intros Hc Hp. destruct (mkdir_from_ok [] p w Hc) as (w' & Hrun & Hd).
  exists w'. split_and!; [done| | |done].
  - by eapply evolve_mkdir.
  - by eapply same_tables_mkdir_from.
Qed.

Lemma mkdir_raise p w :
  clear (fs w) p = false -> dirpos p = true ->
  exists w' e, mkdir p w = (w', Raise e) /\
    evolve nowhere nowhere w w' /\ same_tables w w'.
Proof.
  intros Hc Hp. destruct (mkdir_from_raise [] p w Hc) as (w' & e & Hrun).
  exists w', e. split_and!; [done| |].
  - by eapply evolve_mkdir.
  - by eapply same_tables_mkdir_from.
Qed.

(** The directories of a station. *)
Definition station_dirs (k : string) : list path :=
  [INCOMING_DIR ++ [k]; CURRENT_DIR ++ [k]; ARCHIVE_DIR ++ [k]; OLD_INCOMING_DIR ++ [k]].

(** No regular file stands in the way of the directories of station
    key [k]. *)
Definition ensure_ok (f : gmap path node) (k : string) : bool :=
  forallb (clear f) (station_dirs k).

Lemma ensure_ok_evolve W D w w' k :
  evolve W D w w' -> ensure_ok (fs w') k = ensure_ok (fs w) k.
Proof.
  intros Hev. unfold ensure_ok, station_dirs. simpl.
  by rewrite !(clear_evolve W D w w').
Qed.

Lemma ensure_dirs_ok k w :
  ensure_ok (fs w) k = true ->
  exists w', _ensure_dirs_for_station k w = (w', Ok tt) /\
    evolve nowhere nowhere w w' /\ same_tables w w' /\
    forall d, d ∈ station_dirs k -> is_dir (fs w') d = true.
Proof.
  unfold ensure_ok, station_dirs, _ensure_dirs_for_station. simpl.
  rewrite !andb_true_iff. intros (H1 & H2 & H3 & H4 & _).
  destruct (mkdir_ok _ w H1 eq_refl) as (w1 & R1 & E1 & T1 & D1).
  rewrite (bind_ok _ _ _ _ _ R1).
  rewrite <- (clear_evolve _ _ _ _ _ E1) in H2 by done.
  rewrite <- (clear_evolve _ _ _ _ _ E1) in H3 by done.
  rewrite <- (clear_evolve _ _ _ _ _ E1) in H4 by done.
  destruct (mkdir_ok _ w1 H2 eq_refl) as (w2 & R2 & E2 & T2 & D2).
  rewrite (bind_ok _ _ _ _ _ R2).
  rewrite <- (clear_evolve _ _ _ _ _ E2) in H3 by done.
  rewrite <- (clear_evolve _ _ _ _ _ E2) in H4 by done.
  destruct (mkdir_ok _ w2 H3 eq_refl) as (w3 & R3 & E3 & T3 & D3).
  rewrite (bind_ok _ _ _ _ _ R3).
  rewrite <- (clear_evolve _ _ _ _ _ E3) in H4 by done.
  destruct (mkdir_ok _ w3 H4 eq_refl) as (w4 & R4 & E4 & T4 & D4).
  exists w4. split_and!; [done| | |].
  - etrans; [exact E1|]. etrans; [exact E2|]. by etrans.
  - etrans; [exact T1|]. etrans; [exact T2|]. by etrans.
  - intros d Hd. repeat (apply elem_of_cons in Hd as [->|Hd]).
    + eapply evolve_is_dir_mono; [exact E4|]. eapply evolve_is_dir_mono; [exact E3|].
      eapply evolve_is_dir_mono; [exact E2|]. by apply (D1 _ []).
    + eapply evolve_is_dir_mono; [exact E4|]. eapply evolve_is_dir_mono; [exact E3|].
      by apply (D2 _ []).
    + eapply evolve_is_dir_mono; [exact E4|]. by apply (D3 _ []).
    + by apply (D4 _ []).
    + by apply elem_of_nil in Hd.
Qed.

Lemma ensure_dirs_raise k w :
  ensure_ok (fs w) k = false ->
  exists w' e, _ensure_dirs_for_station k w = (w', Raise e) /\
    evolve nowhere nowhere w w' /\ same_tables w w'.
Proof.
  intros H.
  destruct (_ensure_dirs_for_station k w) as [w' [[]|e]] eqn:R.
  - exfalso. revert R H.
    unfold ensure_ok, station_dirs, _ensure_dirs_for_station. cbn [forallb]. intros R.
    apply bind_inv in R as [(w1 & [] & R1 & R)|(e & R1 & ?)]; [|done].
    apply bind_inv in R as [(w2 & [] & R2 & R)|(e & R2 & ?)]; [|done].
    apply bind_inv in R as [(w3 & [] & R3 & R)|(e & R3 & ?)]; [|done].
    pose proof (evolve_mkdir nowhere nowhere (INCOMING_DIR ++ [k]) eq_refl _ _ _ R1) as E1.
    pose proof (evolve_mkdir nowhere nowhere (CURRENT_DIR ++ [k]) eq_refl _ _ _ R2) as E2.
    pose proof (evolve_mkdir nowhere nowhere (ARCHIVE_DIR ++ [k]) eq_refl _ _ _ R3) as E3.
    destruct (clear (fs w) (INCOMING_DIR ++ [k])) eqn:C1; cbn [andb].
    2:{ destruct (mkdir_raise _ w C1 eq_refl) as (? & ? & ? & _). congruence. }
    rewrite <- (clear_evolve _ _ _ _ (CURRENT_DIR ++ [k]) E1) by done.
    destruct (clear (fs w1) (CURRENT_DIR ++ [k])) eqn:C2; cbn [andb].
    2:{ destruct (mkdir_raise _ w1 C2 eq_refl) as (? & ? & ? & _). congruence. }
    rewrite <- (clear_evolve _ _ _ _ (ARCHIVE_DIR ++ [k]) E1) by done.
    rewrite <- (clear_evolve _ _ _ _ (ARCHIVE_DIR ++ [k]) E2) by done.
    destruct (clear (fs w2) (ARCHIVE_DIR ++ [k])) eqn:C3; cbn [andb].
    2:{ destruct (mkdir_raise _ w2 C3 eq_refl) as (? & ? & ? & _). congruence. }
    rewrite <- (clear_evolve _ _ _ _ (OLD_INCOMING_DIR ++ [k]) E1) by done.
    rewrite <- (clear_evolve _ _ _ _ (OLD_INCOMING_DIR ++ [k]) E2) by done.
    rewrite <- (clear_evolve _ _ _ _ (OLD_INCOMING_DIR ++ [k]) E3) by done.
    destruct (clear (fs w3) (OLD_INCOMING_DIR ++ [k])) eqn:C4; cbn [andb]; [done|].
    destruct (mkdir_raise _ w3 C4 eq_refl) as (? & ? & ? & _). congruence.
  - exists w', e. split_and!; [done| |].
    + by eapply evolve_ensure_dirs.
    + by eapply same_tables_ensure_dirs.
Qed.

Lemma mkdir_from_lookup pre comps w w' r p :
  mkdir_from pre comps w = (w', r) ->
  (forall q r0, comps = q ++ r0 -> q <> [] -> p <> pre ++ q) ->
  fs w' !! p = fs w !! p.
Proof.
  revert pre w. induction comps as [|c cs IH]; intros pre w H Hp; simpl in H.
  - by inversion H; subst.
  - assert (Hrest : forall q r0, cs = q ++ r0 -> q <> [] -> p <> (pre ++ [c]) ++ q).
    { intros q r0 -> Hq. rewrite <- app_assoc. by apply (Hp (c :: q) r0). }
    destruct (fs w !! (pre ++ [c])) as [[m|f]|] eqn:E'.
    + by eapply IH.
    + by inversion H; subst.
    + rewrite (IH _ _ H Hrest). simpl. rewrite lookup_insert_ne; [done|].
      intros E. by apply (Hp [c] cs).
Qed.

(** [src] is not a directory of the station, nor one above them. *)
Definition not_station_dir (k : string) (src : path) : Prop :=
  forall d, d ∈ station_dirs k -> ~ src `prefix_of` d.

Lemma not_station_dir_deep k src : (2 < length src)%nat -> not_station_dir k src.
Proof.
  intros Hl d Hd [r E]. apply (f_equal length) in E. rewrite length_app in E.
  unfold station_dirs in Hd.
  repeat (apply elem_of_cons in Hd as [->|Hd]; [simpl in E; lia|]).
  by apply elem_of_nil in Hd.
Qed.

Lemma ensure_dirs_lookup k w w' r src :
  not_station_dir k src ->
  _ensure_dirs_for_station k w = (w', r) -> fs w' !! src = fs w !! src.
Proof.
  intros Hsrc. unfold _ensure_dirs_for_station, mkdir.
  assert (Hone : forall d w0 w1 r0, d ∈ station_dirs k ->
            mkdir_from [] d w0 = (w1, r0) -> fs w1 !! src = fs w0 !! src).
  { intros d w0 w1 r0 Hd H. eapply mkdir_from_lookup; [exact H|].
    intros q r1 -> Hq ->. apply (Hsrc _ Hd). by exists r1. }
  assert (Hin : forall d, d ∈ station_dirs k -> d ∈ station_dirs k) by done.
  unfold station_dirs in Hin at 1.
  intros H.
  apply bind_inv in H as [(w1 & [] & H1 & H)|(e & H1 & _)].
  2:{ eapply Hone; [|exact H1]. apply Hin. by repeat constructor. }
  assert (E1 : fs w1 !! src = fs w !! src).
  { eapply Hone; [|exact H1]. apply Hin. by repeat constructor. }
  apply bind_inv in H as [(w2 & [] & H2 & H)|(e & H2 & _)].
  2:{ rewrite <- E1. eapply Hone; [|exact H2]. apply Hin. by repeat constructor. }
  assert (E2 : fs w2 !! src = fs w1 !! src).
  { eapply Hone; [|exact H2]. apply Hin. by repeat constructor. }
  apply bind_inv in H as [(w3 & [] & H3 & H)|(e & H3 & _)].
  2:{ rewrite <- E1, <- E2. eapply Hone; [|exact H3]. apply Hin. by repeat constructor. }
  assert (E3 : fs w3 !! src = fs w2 !! src).
  { eapply Hone; [|exact H3]. apply Hin. by repeat constructor. }
  rewrite <- E1, <- E2, <- E3. eapply Hone; [|exact H]. apply Hin. by repeat constructor.
Qed.

(** ** Copying *)

(** Where [shutil.copy2(src, dst)] writes. *)
Definition copy_target (f : gmap path node) (src dst : path) : path :=
  if is_dir f dst then dst ++ [name src] else dst.

Lemma parent_snoc (p : path) c : parent (p ++ [c]) = p.
Proof. apply removelast_last. Qed.

Lemma copy2_ok src dst w file :
  fs w !! src = Some (File file) ->
  src <> copy_target (fs w) src dst ->
  is_dir (fs w) (copy_target (fs w) src dst) = false ->
  is_dir (fs w) (parent (copy_target (fs w) src dst)) = true ->
  copy2 src dst w =
    (with_fs (<[copy_target (fs w) src dst := File file]> (fs w)) w, Ok tt).
Proof.
  intros Hsrc Hne Hnd Hpar. unfold copy2.
  fold (copy_target (fs w) src dst). rewrite Hsrc.
  destruct (decide _) as [|_]; [done|]. rewrite Hnd.
  unfold is_dir in Hpar.
  destruct (parent _) as [|c d]; [done|].
  by destruct (fs w !! (c :: d)) as [[]|].
Qed.

Lemma copy2_raise src dst w :
  match fs w !! src with
  | Some (File _) =>
      src = copy_target (fs w) src dst \/
      is_dir (fs w) (copy_target (fs w) src dst) = true
  | _ => True
  end ->
  exists e, copy2 src dst w = (w, Raise e).
Proof.
  unfold copy2. fold (copy_target (fs w) src dst).
  destruct (fs w !! src) as [[m|file]|]; intros H; [eauto..| |eauto].
  destruct (decide _) as [|Hne]; [eauto|].
  destruct H as [H|H]; [done|]. rewrite H. eauto.
Qed.

(** ** Dates *)

Lemma digit_not_dash n : Ascii.eqb (Calendar.digit n) "-" = false.
Proof.
  unfold Calendar.digit.
  assert (H : (Z.to_nat (n mod 10) < 10)%nat).
  { pose proof (Z.mod_pos_bound n 10). lia. }
  generalize dependent (Z.to_nat (n mod 10)). intros k H.
  do 10 (destruct k as [|k]; [reflexivity|]). lia.
Qed.

Lemma split_on_digit n s :
  Text.split_on "-" (String (Calendar.digit n) s) =
  match Text.split_on "-" s with
  | [] => [String (Calendar.digit n) EmptyString]
  | w :: ws => String (Calendar.digit n) w :: ws
  end.
Proof. cbn [Text.split_on]. by rewrite digit_not_dash. Qed.

Lemma split_on_dash s :
  Text.split_on "-" (String "-" s) = EmptyString :: Text.split_on "-" s.
Proof. reflexivity. Qed.

Lemma append_String c s t : String c s +:+ t = String c (s +:+ t).
Proof. reflexivity. Qed.

Lemma append_Empty t : EmptyString +:+ t = t.
Proof. reflexivity. Qed.

Lemma split_strftime y m d :
  Text.split_on "-" (Calendar.strftime_ymd (y, m, d)) =
  [Calendar.pad4 y; Calendar.pad2 m; Calendar.pad2 d].
Proof.
  unfold Calendar.strftime_ymd, Calendar.pad4, Calendar.pad2.
  repeat first [rewrite append_String | rewrite append_Empty].
  repeat first [rewrite split_on_digit | rewrite split_on_dash].
  reflexivity.
Qed.

(** ** The archive writer, case by case *)

(** The day directory of the archive for station key [k]. *)
Definition archive_dir (k : string) (dt : Z * Z * Z) : path :=
  let '(y, m, d) := dt in
  ARCHIVE_DIR ++ [k; Calendar.pad4 y; Calendar.pad2 m; Calendar.pad2 d].

(** The source is a regular file whose day can be computed, no regular
    file stands in the way of the day directory, and the place of the
    copy is free for a file. *)
Definition archivable (f : gmap path node) (k : string) (src : path) : bool :=
  match f !! src with
  | Some (File file) =>
      match Calendar.fromtimestamp_utc (f_mtime file) with
      | Some dt =>
          let tgt := copy_target f src (archive_dir k dt ++ [name src]) in
          clear f (archive_dir k dt)
          && negb (bool_decide (src = tgt)) && negb (is_dir f tgt)
      | None => false
      end
  | _ => false
  end.

Lemma archive_dir_dirpos k dt : dirpos (archive_dir k dt) = true.
Proof. by destruct dt as [[y m] d]. Qed.

Lemma archive_dst_filepos k dt n : dirpos (archive_dir k dt ++ [n]) = false.
Proof. by destruct dt as [[y m] d]. Qed.

Lemma archive_dir_under k dt r : under (ARCHIVE_DIR ++ [k]) (archive_dir k dt ++ r).
Proof. destruct dt as [[y m] d]. by eexists (_ :: _ :: _ :: r). Qed.

Lemma copy_target_filepos f src dst :
  dirpos dst = false -> dirpos (copy_target f src dst) = false.
Proof.
  intros H. unfold copy_target. destruct (is_dir f dst); [|done].
  by apply dirpos_app_false.
Qed.

Lemma copy_target_evolve W D w w' src dst :
  evolve W D w w' -> dirpos dst = false ->
  copy_target (fs w') src dst = copy_target (fs w) src dst.
Proof.
  intros Hev Hd. unfold copy_target.
  by rewrite (evolve_is_dir_filepos Hev).
Qed.

Lemma utc_date_run p w file :
  fs w !! p = Some (File file) ->
  utc_date_from_mtime p w =
    (w, match Calendar.fromtimestamp_utc (f_mtime file) with
        | Some dt => Ok (Calendar.strftime_ymd dt)
        | None => Raise ValueError
        end).
Proof.
  intros E. unfold utc_date_from_mtime, bind, stat_mtime. rewrite E.
  by destruct (Calendar.fromtimestamp_utc _).
Qed.

Lemma archive_file_inv src st w w' r :
  not_station_dir (key st) src ->
  _archive_file src st w = (w', r) ->
  evolve (under (ARCHIVE_DIR ++ [key st])) nowhere w w' /\
  match r with
  | Raise e =>
      same_tables w w' /\
      (ensure_ok (fs w) (key st) = false \/
       (is_Some (fs w !! src) /\ archivable (fs w) (key st) src = false))
  | Ok None =>
      same_tables w w' /\ ensure_ok (fs w) (key st) = true /\
      fs w !! src = None /\
      _ensure_dirs_for_station (key st) w = (w', Ok tt)
  | Ok (Some it) =>
      ensure_ok (fs w) (key st) = true /\
      archivable (fs w) (key st) src = true /\
      exists file dt,
        fs w !! src = Some (File file) /\
        Calendar.fromtimestamp_utc (f_mtime file) = Some dt /\
        it = {| i_key := key st; i_date := Calendar.strftime_ymd dt;
                i_archive := Text.join_posix (archive_dir (key st) dt ++ [name src]) |} /\
        fs w' !! copy_target (fs w) src (archive_dir (key st) dt ++ [name src])
          = Some (File file) /\
        db w' = upsert (name src) (country st) (station st)
                  (Calendar.strftime_ymd dt) (key st)
                  (Text.join_posix (archive_dir (key st) dt ++ [name src])) (db w) /\
        out w' = out w /\ now w' = now w
  end.
Proof.
  intros Hsrc H. split.
  { eapply evolve_archive_file; [|exact H]. done. }
  revert H. unfold _archive_file.
  destruct (ensure_ok (fs w) (key st)) eqn:Hens.
  2:{ destruct (ensure_dirs_raise _ _ Hens) as (w1 & e & R1 & E1 & T1).
      rewrite (bind_raise _ _ _ _ _ R1). intros [= <- <-]. split; [done | by left]. }
  destruct (ensure_dirs_ok _ _ Hens) as (w1 & R1 & E1 & T1 & D1).
  rewrite (bind_ok _ _ _ _ _ R1).
  pose proof (ensure_dirs_lookup _ _ _ _ _ Hsrc R1) as Esrc.
  unfold bind at 1. rewrite path_exists_run, Esrc.
  destruct (fs w !! src) as [nd|] eqn:Ew; cbn [bool_decide negb].
  2:{ rewrite bool_decide_false by (by intros [? ?]). cbn [negb].
      intros [= <- <-]. done. }
  rewrite bool_decide_true by eauto. cbn [negb].
  unfold archivable. rewrite Ew.
  destruct nd as [m|file].
  { (* the source is a directory: the copy raises *)
    intros H.
    apply bind_inv in H as [(w2 & ds & H2 & H)|(e & H2 & ->)];
      pose proof (utc_date_same _ _ _ _ H2) as ->; [|by eauto].
    destruct (Text.split_on _ _) as [|y [|mm [|d [|]]]];
      try (inversion H; subst; by eauto).
    apply bind_inv in H as [(w2 & [] & H2' & H)|(e & H2' & ->)].
    2:{ split; [|by eauto]. etrans; [exact T1|]. by eapply same_tables_mkdir_from. }
    assert (T2 : same_tables w1 w2) by by eapply same_tables_mkdir_from.
    assert (E2 : fs w2 !! src = Some (Dir m)).
    { eapply mkdir_from_keeps; [exact H2'|]. by rewrite Esrc. }
    destruct (copy2_raise src (ARCHIVE_DIR ++ [key st; y; mm; d] ++ [name src]) w2)
      as [e He]; [by rewrite E2|].
    rewrite (bind_raise _ _ _ _ _ He) in H. inversion H; subst.
    split; [by etrans | by eauto]. }
  unfold bind at 1. rewrite (utc_date_run _ _ file) by by rewrite Esrc.
  destruct (Calendar.fromtimestamp_utc (f_mtime file)) as [dt|] eqn:Hdt.
  2:{ intros [= <- <-]. by eauto. }
  destruct dt as [[y m] d]. rewrite split_strftime.
  change (ARCHIVE_DIR ++ [key st; Calendar.pad4 y; Calendar.pad2 m; Calendar.pad2 d])
    with (archive_dir (key st) (y, m, d)).
  set (dt := (y, m, d)) in *. set (dir := archive_dir (key st) dt).
  set (dst := dir ++ [name src]).
  rewrite <- (clear_evolve _ _ _ _ dir E1) by apply archive_dir_dirpos.
  rewrite <- (copy_target_evolve _ _ _ _ src dst E1) by apply archive_dst_filepos.
  destruct (clear (fs w1) dir) eqn:Hclear.
  2:{ destruct (mkdir_raise _ _ Hclear (archive_dir_dirpos _ _)) as (w2 & e & R2 & E2 & T2).
      rewrite (bind_raise _ _ _ _ _ R2). intros [= <- <-].
      split; [by etrans | by eauto]. }
  destruct (mkdir_ok _ _ Hclear (archive_dir_dirpos _ _)) as (w2 & R2 & E2 & T2 & D2).
  rewrite (bind_ok _ _ _ _ _ R2).
  rewrite <- (copy_target_evolve _ _ _ _ src dst E2) by apply archive_dst_filepos.
  assert (Hf2 : fs w2 !! src = Some (File file)).
  { eapply evolve_keeps_file; [exact E2|by intros []..|]. by rewrite Esrc. }
  set (tgt := copy_target (fs w2) src dst).
  assert (Htgt : dirpos tgt = false) by apply copy_target_filepos, archive_dst_filepos.
  rewrite <- (evolve_is_dir_filepos E1 tgt), <- (evolve_is_dir_filepos E2 tgt) by done.
  cbn [andb].
  destruct (decide (src = tgt)) as [Heq|Hne].
  { rewrite bool_decide_true by done. cbn [negb andb].
    destruct (copy2_raise src dst w2) as [e He]; [rewrite Hf2; by left|].
    rewrite (bind_raise _ _ _ _ _ He). intros [= <- <-].
    split; [by etrans | by eauto]. }
  rewrite bool_decide_false by done. cbn [negb andb].
  destruct (is_dir (fs w2) tgt) eqn:Hnd; cbn [negb].
  { destruct (copy2_raise src dst w2) as [e He]; [rewrite Hf2; by right|].
    rewrite (bind_raise _ _ _ _ _ He). intros [= <- <-].
    split; [by etrans | by eauto]. }
  assert (Hpar : is_dir (fs w2) (parent tgt) = true).
  { unfold tgt, copy_target. destruct (is_dir (fs w2) dst) eqn:Hdd.
    - by rewrite parent_snoc.
    - unfold dst. rewrite parent_snoc. by apply (D2 _ []). }
  rewrite (bind_ok _ _ _ _ _ (copy2_ok src dst w2 file Hf2 Hne Hnd Hpar)).
  unfold bind, db_upsert, ret. intros [= <- <-]. split_and!; [done..|].
  exists file, dt. destruct T1 as (Td1 & To1 & Tn1), T2 as (Td2 & To2 & Tn2).
  fold dir. fold dst.
  rewrite <- (copy_target_evolve _ _ _ _ src dst E1) by apply archive_dst_filepos.
  rewrite <- (copy_target_evolve _ _ _ _ src dst E2) by apply archive_dst_filepos.
  split_and!; simpl; try done.
  - by rewrite lookup_insert_eq.
  - by rewrite Td2, Td1.
  - by rewrite To2, To1.
  - by rewrite Tn2, Tn1.
Qed.

(** ** What an upsert leaves in the table *)

Lemma elem_of_records_for S D rows r :
  r ∈ records_for S D rows <-> r ∈ rows /\ unique_key r = (S, D).
Proof.
  unfold records_for. rewrite !list_elem_of_In, filter_In.
  by rewrite bool_decide_eq_true.
Qed.

Lemma upsert_elem_of img ctry stn d k fp rows r :
  r ∈ upsert img ctry stn d k fp rows ->
  (r ∈ rows /\ unique_key r <> (k, d)) \/
  (unique_key r = (k, d) /\ image_name r = img /\ row_country r = ctry /\
   row_station r = stn /\ file_path r = fp).
Proof.
  unfold upsert. destruct (existsb _ rows) eqn:E.
  - intros (r0 & -> & Hin)%list_elem_of_fmap.
    destruct (conflicts k d r0) eqn:C.
    + right. apply conflicts_spec in C. by injection C as -> ->.
    + left. split; [done|]. intros C'%conflicts_spec. congruence.
  - intros [Hin| ->%list_elem_of_singleton]%elem_of_app.
    + left. split; [done|]. intros Hk.
      assert (existsb (conflicts k d) rows = true); [|congruence].
      apply existsb_conflicts, list_elem_of_fmap. by exists r.
    + by right.
Qed.

Lemma upsert_has_record img ctry stn d k fp rows :
  exists r, r ∈ records_for k d (upsert img ctry stn d k fp rows).
Proof.
  assert (H : (k, d) ∈ unique_key <$> upsert img ctry stn d k fp rows).
  { rewrite upsert_keys. destruct (existsb _ rows) eqn:E.
    - by apply existsb_conflicts.
    - apply elem_of_app. right. by apply list_elem_of_singleton. }
  apply list_elem_of_fmap in H as (r & E & Hin). exists r.
  by apply elem_of_records_for.
Qed.

Lemma upsert_keeps_others img ctry stn d k fp rows r :
  unique_key r <> (k, d) -> r ∈ rows -> r ∈ upsert img ctry stn d k fp rows.
Proof.
  intros Hk Hin. unfold upsert. destruct (existsb _ rows).
  - apply list_elem_of_fmap. exists r. split; [|done].
    destruct (conflicts k d r) eqn:C; [|done]. by apply conflicts_spec in C.
  - apply elem_of_app. by left.
Qed.


(** ** C5: the archive writer *)


Lemma evolve_nowhere_filepos w w' p :
  evolve nowhere nowhere w w' -> dirpos p = false -> fs w' !! p = fs w !! p.
Proof. intros Hev Hp. apply (evolve_untouched Hev); [by intros []..|done]. Qed.

(** ** The file mirror *)

Definition incoming_src (st : station_cfg) : path :=
  INCOMING_DIR ++ [key st; incoming_filename st].

Definition current_dst (k : string) : path := CURRENT_DIR ++ [k; "latest.png"].

(** [st_mtime] of a node. *)
Definition node_mtime (n : node) : Z :=
  match n with Dir m => m | File f => f_mtime f end.

(** The answer of [_is_newer_than_current], read off the files. *)
Definition newer (f : gmap path node) (src cur : path) : bool :=
  match f !! cur with
  | None => true
  | Some c =>
      match f !! src with
      | Some s => node_mtime s >? node_mtime c
      | None => false
      end
  end.

Lemma is_newer_run src cur w :
  _is_newer_than_current src cur w = (w, Ok (newer (fs w) src cur)).
Proof.
  unfold _is_newer_than_current, newer, bind, path_exists, try, stat_mtime, ret.
  destruct (fs w !! cur) as [c|] eqn:Ec.
  - rewrite bool_decide_true by eauto. cbn [negb].
    destruct (fs w !! src) as [[ms|fsrc]|] eqn:Es; rewrite ?Ec; by destruct c.
  - rewrite bool_decide_false by (by intros [? ?]). done.
Qed.

Lemma newer_spec f src cur :
  newer f src cur = true <->
  f !! cur = None \/
  exists s c, f !! src = Some s /\ f !! cur = Some c /\ node_mtime s > node_mtime c.
Proof.
  unfold newer. destruct (f !! cur) as [c|], (f !! src) as [s|]; split;
    try (intros [?|(? & ? & ? & ? & ?)]); try done; try (by left).
  - intros H%Z.gtb_gt. right. by exists s, c.
  - simplify_eq. by apply Z.gtb_gt.
Qed.

Lemma mirror_run st w w1 :
  _ensure_dirs_for_station (key st) w = (w1, Ok tt) ->
  mirror_current_and_archive st w =
    match fs w !! incoming_src st with
    | None => (w1, Ok None)
    | Some _ =>
        if newer (fs w) (incoming_src st) (current_dst (key st))
        then bind (copy2 (incoming_src st) (current_dst (key st)))
               (fun _ => _archive_file (incoming_src st) st) w1
        else _archive_file (incoming_src st) st w1
    end.
Proof.
  intros R1. unfold mirror_current_and_archive.
  rewrite (bind_ok _ _ _ _ _ R1).
  fold (incoming_src st). fold (current_dst (key st)).
  assert (Es : fs w1 !! incoming_src st = fs w !! incoming_src st).
  { eapply ensure_dirs_lookup; [|exact R1]. apply not_station_dir_deep. simpl. lia. }
  assert (Ec : fs w1 !! current_dst (key st) = fs w !! current_dst (key st)).
  { eapply ensure_dirs_lookup; [|exact R1]. apply not_station_dir_deep. simpl. lia. }
  unfold bind at 1. rewrite path_exists_run, Es.
  destruct (fs w !! incoming_src st) as [nd|] eqn:E.
  - rewrite bool_decide_true by eauto. cbn [negb].
    unfold bind at 1. rewrite is_newer_run.
    assert (newer (fs w1) (incoming_src st) (current_dst (key st)) =
            newer (fs w) (incoming_src st) (current_dst (key st))) as ->.
    { unfold newer. by rewrite Es, Ec, E. }
    by destruct (newer _ _ _).
  - rewrite bool_decide_false by (by intros [? ?]). done.
Qed.

Lemma current_not_under_archive k k' r :
  ~ under (ARCHIVE_DIR ++ [k']) (current_dst k ++ r).
Proof. by intros [q E]. Qed.

Lemma incoming_not_under_archive st k' :
  ~ under (ARCHIVE_DIR ++ [k']) (incoming_src st).
Proof. by intros [q E]. Qed.

(** The station's incoming file is promoted to [current]: the station
    directories can be made, the incoming path is a regular file, it is
    newer than [current], and [current] is not a directory. *)
Definition promoted (f : gmap path node) (st : station_cfg) : bool :=
  ensure_ok f (key st) && is_file f (incoming_src st)
  && newer f (incoming_src st) (current_dst (key st))
  && negb (is_dir f (current_dst (key st))).

Lemma mirror_current_after st w w' r :
  mirror_current_and_archive st w = (w', r) ->
  fs w' !! current_dst (key st) =
    if promoted (fs w) st then fs w !! incoming_src st
    else fs w !! current_dst (key st).
Proof.
  intros H. unfold promoted.
  set (src := incoming_src st) in *. set (cur := current_dst (key st)) in *.
  destruct (ensure_ok (fs w) (key st)) eqn:Hens; cbn [andb].
  2:{ destruct (ensure_dirs_raise _ _ Hens) as (w1 & e & R1 & E1 & _).
      unfold mirror_current_and_archive in H.
      rewrite (bind_raise _ _ _ _ _ R1) in H. injection H as <- <-.
      by apply (evolve_nowhere_filepos _ _ _ E1). }
  destruct (ensure_dirs_ok _ _ Hens) as (w1 & R1 & E1 & _ & D1).
  rewrite (mirror_run _ _ _ R1) in H. fold src cur in H.
  assert (Ec1 : fs w1 !! cur = fs w !! cur) by by apply (evolve_nowhere_filepos _ _ _ E1).
  assert (Es1 : fs w1 !! src = fs w !! src) by by apply (evolve_nowhere_filepos _ _ _ E1).
  assert (Harch : forall w2 w3 r3, _archive_file src st w2 = (w3, r3) ->
            fs w3 !! cur = fs w2 !! cur).
  { intros w2 w3 r3 R3.
    pose proof (evolve_archive_file _ nowhere st (fun _ Hp => Hp) src _ _ _ R3) as E3.
    apply (evolve_untouched E3); [|by intros []|done].
    apply (current_not_under_archive (key st) (key st) []). }
  unfold is_file. destruct (fs w !! src) as [[ms|file]|] eqn:Es; cbn [andb].
  - (* a directory: the copy raises *)
    destruct (newer (fs w) src cur).
    + destruct (copy2_raise src cur w1) as [e He]; [by rewrite Es1|].
      rewrite (bind_raise _ _ _ _ _ He) in H. by injection H as <- <-.
    + by rewrite (Harch _ _ _ H).
  - destruct (newer (fs w) src cur) eqn:Hnew; cbn [andb].
    2:{ by rewrite (Harch _ _ _ H). }
    destruct (is_dir (fs w) cur) eqn:Hd; cbn [negb].
    + (* the copy goes inside the directory *)
      apply bind_inv in H as [(w2 & [] & R2 & H)|(e & R2 & _)].
      * rewrite (Harch _ _ _ H).
        pose proof (evolve_copy2 (under cur) nowhere src cur
                      ltac:(by exists []) ltac:(by eexists [_]) eq_refl _ _ _ R2) as E2.
        rewrite <- Ec1. unfold is_dir in Hd.
        destruct (fs w !! cur) as [[mc|]|] eqn:Ecur; try done.
        rewrite Ec1. by apply (evolve_keeps_dir E2).
      * pose proof (evolve_copy2 (under cur) nowhere src cur
                      ltac:(by exists []) ltac:(by eexists [_]) eq_refl _ _ _ R2) as E2.
        unfold is_dir in Hd.
        destruct (fs w !! cur) as [[mc|]|] eqn:Ecur; try done.
        apply (evolve_keeps_dir E2). by rewrite Ec1.
    + assert (Ht : copy_target (fs w1) src cur = cur).
      { unfold copy_target, is_dir. rewrite Ec1. unfold is_dir in Hd. by rewrite Hd. }
      rewrite (bind_ok _ _ _ _ _ (copy2_ok src cur w1 file
                 ltac:(by rewrite Es1) ltac:(by rewrite Ht)
                 ltac:(rewrite Ht; unfold is_dir; rewrite Ec1; exact Hd)
                 ltac:(rewrite Ht; apply D1; unfold station_dirs, cur, current_dst;
                       by repeat constructor))) in H.
      rewrite (Harch _ _ _ H). simpl. rewrite Ht. by rewrite lookup_insert_eq.
  - by injection H as <- <-.
Qed.

(** The [current] file of station key [k] does not get older. *)
Definition current_monotone (k : string) (w w' : world) : Prop :=
  forall fc, fs w !! current_dst k = Some (File fc) ->
    exists fc', fs w' !! current_dst k = Some (File fc') /\ f_mtime fc <= f_mtime fc'.

#[global] Instance current_monotone_preorder k : PreOrder (current_monotone k).
Proof.
  split.
  - intros w fc E. exists fc. split; [done|lia].
  - intros a b c Hab Hbc fc E. destruct (Hab fc E) as (fc1 & E1 & L1).
    destruct (Hbc fc1 E1) as (fc2 & E2 & L2). exists fc2. split; [done|lia].
Qed.

Lemma current_monotone_untouched k w w' :
  fs w' !! current_dst k = fs w !! current_dst k -> current_monotone k w w'.
Proof. intros E fc Hfc. exists fc. rewrite E. split; [done|lia]. Qed.

Lemma current_not_written_by k k' :
  k <> k' -> ~ writes_of k' (current_dst k).
Proof. intros Hne [[q E]|[q E]]; [done|]. injection E as E _. done. Qed.

Lemma mirror_monotone st k w w' r :
  mirror_current_and_archive st w = (w', r) -> current_monotone k w w'.
Proof.
  intros H. destruct (decide (k = key st)) as [->|Hne].
  - intros fc Hfc. rewrite (mirror_current_after _ _ _ _ H).
    unfold promoted. destruct (ensure_ok _ _); cbn [andb]; [|exists fc; split; [done|lia]].
    unfold is_file, newer. rewrite Hfc.
    destruct (fs w !! incoming_src st) as [[ms|file]|]; cbn [andb];
      try (exists fc; split; [done|lia]).
    simpl. destruct (f_mtime file >? f_mtime fc) eqn:G; cbn [andb];
      [|exists fc; split; [done|lia]].
    unfold is_dir. rewrite Hfc. cbn [negb]. exists file. split; [done|].
    apply Z.gtb_gt in G. lia.
  - apply current_monotone_untouched.
    pose proof (evolve_mirror (writes_of (key st)) nowhere st
                  (fun _ Hp => or_introl Hp) (fun _ Hp => or_intror Hp) _ _ _ H) as E.
    apply (evolve_untouched E); [by apply current_not_written_by|by intros []|done].
Qed.

Lemma sweep_monotone scandir st k w w' r :
  archive_only_from_old_incoming scandir st w = (w', r) -> current_monotone k w w'.
Proof.
  intros H. apply current_monotone_untouched.
  pose proof (evolve_archive_only (under (ARCHIVE_DIR ++ [key st])) (backlog_of (key st)) st
                (fun _ Hp => Hp) (fun _ Hp => Hp) scandir _ _ _ H) as E.
  apply (evolve_untouched E); [|by intros [n Hn]|done].
  apply (current_not_under_archive k (key st) []).
Qed.

Lemma print_fs l w w' r : print l w = (w', r) -> fs w' = fs w.
Proof. by intros [= <- <-]. Qed.

Lemma print_all_fs ls w w' r : print_all ls w = (w', r) -> fs w' = fs w.
Proof.
  revert w. induction ls as [|l ls IH]; intros w H; simpl in H.
  - by injection H as <- <-.
  - apply bind_inv in H as [(w1 & [] & H1 & H)|(e & H1 & _)].
    + apply IH in H. by rewrite H, (print_fs _ _ _ _ H1).
    + by apply print_fs in H1.
Qed.

Lemma scan_monotone scandir k : respects (current_monotone k) (scan_cmd scandir).
Proof.
  assert (Hin : forall sts created, respects (current_monotone k) (scan_incoming sts created)).
  { induction sts as [|st sts IH]; intros created; simpl; [apply respects_ret, _|].
    apply respects_bind; [apply _| |intros it; apply IH].
    intros w w' r H. by eapply mirror_monotone. }
  assert (Hold : forall sts acc,
            respects (current_monotone k) (scan_old_incoming scandir sts acc)).
  { induction sts as [|st sts IH]; intros acc; simpl; [apply respects_ret, _|].
    apply respects_bind; [apply _| |].
    - intros w w' r H. by eapply sweep_monotone.
    - intros [l|]; [apply IH | apply respects_raise, _]. }
  assert (Hp : forall l, respects (current_monotone k) (print l)).
  { intros l w w' r H. apply current_monotone_untouched. by rewrite (print_fs _ _ _ _ H). }
  unfold scan_cmd.
  apply respects_bind; [apply _ | apply Hin | intros created].
  apply respects_bind; [apply _ | apply Hold | intros archived_old].
  apply respects_bind; [apply _ | apply Hp | intros _].
  apply respects_bind; [apply _ | | intros _]; by apply respects_print_all; [apply _|].
Qed.

(** C3: the comparison answers "newer" exactly when there is no current
    file or both timestamps can be read and the incoming one is strictly
    greater (so an unreadable timestamp counts as not newer); the mirror
    puts the incoming file, with its modification time and bytes, in the
    place of [current] exactly in that case; hence the modification time
    of [current] never decreases, neither in one mirror step nor over a
    whole scan, and an incoming file that is not newer leaves [current]
    as it is. *)
Theorem mirror_copies_iff_newer_and_never_regresses st w :
  let src := incoming_src st in
  let cur := current_dst (key st) in
  (forall s c,
     _is_newer_than_current s c w = (w, Ok (newer (fs w) s c)) /\
     (newer (fs w) s c = true <->
      fs w !! c = None \/
      exists ns nc, fs w !! s = Some ns /\ fs w !! c = Some nc /\
                    node_mtime ns > node_mtime nc) /\
     (fs w !! s = None -> is_Some (fs w !! c) -> newer (fs w) s c = false)) /\
  (forall file w' r,
     ensure_ok (fs w) (key st) = true ->
     fs w !! src = Some (File file) ->
     is_dir (fs w) cur = false ->
     mirror_current_and_archive st w = (w', r) ->
     (newer (fs w) src cur = true -> fs w' !! cur = Some (File file)) /\
     (newer (fs w) src cur = false -> fs w' !! cur = fs w !! cur)) /\
  (forall file fc w' r,
     fs w !! src = Some (File file) -> fs w !! cur = Some (File fc) ->
     f_mtime file <= f_mtime fc ->
     mirror_current_and_archive st w = (w', r) ->
     fs w' !! cur = Some (File fc)) /\
  (forall k w' r,
     mirror_current_and_archive st w = (w', r) -> current_monotone k w w') /\
  (forall scandir k w' r,
     scan_cmd scandir w = (w', r) -> current_monotone k w w').
Proof.
  intros src cur. subst src cur. split_and!.
  - intros s c. split_and!; [apply is_newer_run | apply newer_spec |].
    intros Hs [nc Hc]. unfold newer. by rewrite Hc, Hs.
  - intros file w' r Hens Hsrc Hd H.
    rewrite (mirror_current_after _ _ _ _ H). unfold promoted.
    unfold is_file. rewrite Hens, Hsrc, Hd. cbn [andb negb].
    split; intros ->; cbn [andb]; done.
  - intros file fc w' r Hsrc Hcur Hle H.
    rewrite (mirror_current_after _ _ _ _ H). unfold promoted.
    unfold newer. rewrite Hsrc, Hcur. simpl.
    assert ((f_mtime file >? f_mtime fc) = false) as ->.
    { apply not_true_is_false. intros G%Z.gtb_gt. lia. }
    by rewrite !andb_false_r.
  - intros k w' r H. by eapply mirror_monotone.
  - intros scandir k w' r H. by eapply scan_monotone.
Qed.

(** ** Archiving succeeds exactly on archivable sources *)

Lemma archivable_evolve W D w w' k src :
  evolve W D w w' -> fs w' !! src = fs w !! src ->
  archivable (fs w') k src = archivable (fs w) k src.
Proof.
  intros Hev Hsrc. unfold archivable. rewrite Hsrc.
  destruct (fs w !! src) as [[|file]|]; try done.
  destruct (Calendar.fromtimestamp_utc _) as [dt|]; [|done].
  rewrite (clear_evolve _ _ _ _ _ Hev) by apply archive_dir_dirpos.
  rewrite (copy_target_evolve _ _ _ _ _ _ Hev) by apply archive_dst_filepos.
  rewrite (evolve_is_dir_filepos Hev); [done|].
  apply copy_target_filepos, archive_dst_filepos.
Qed.

(** The file [file] of day [dt] has been archived for station [st]
    between [w] and [w']: the copy is in place and the record is
    upserted. *)
Definition archived_as (st : station_cfg) (src : path) (file : file)
    (dt : Z * Z * Z) (w w' : world) : Prop :=
  fs w' !! copy_target (fs w) src (archive_dir (key st) dt ++ [name src])
    = Some (File file) /\
  db w' = upsert (name src) (country st) (station st)
            (Calendar.strftime_ymd dt) (key st)
            (Text.join_posix (archive_dir (key st) dt ++ [name src])) (db w) /\
  out w' = out w /\ now w' = now w.

(** What [_archive_file] returns for [src] on day [dt]. *)
Definition info_of (st : station_cfg) (src : path) (dt : Z * Z * Z) : info :=
  {| i_key := key st; i_date := Calendar.strftime_ymd dt;
     i_archive := Text.join_posix (archive_dir (key st) dt ++ [name src]) |}.

Lemma archive_file_success src st w file dt :
  not_station_dir (key st) src ->
  ensure_ok (fs w) (key st) = true ->
  fs w !! src = Some (File file) ->
  Calendar.fromtimestamp_utc (f_mtime file) = Some dt ->
  archivable (fs w) (key st) src = true ->
  exists w', _archive_file src st w = (w', Ok (Some (info_of st src dt))) /\
    evolve (under (ARCHIVE_DIR ++ [key st])) nowhere w w' /\
    archived_as st src file dt w w'.
Proof.
  intros Hsrc Hens Hfile Hdt Harch.
  destruct (_archive_file src st w) as [w' r] eqn:R.
  destruct (archive_file_inv _ _ _ _ _ Hsrc R) as [Hev Hr].
  destruct r as [[it|]|e].
  - destruct Hr as (_ & _ & file' & dt' & Hf & Hd & -> & Htgt & Hdb & Ho & Hn).
    assert (file' = file) as -> by congruence.
    assert (dt' = dt) as -> by congruence.
    exists w'. by split_and!.
  - destruct Hr as (_ & _ & Hnone & _). congruence.
  - destruct Hr as (_ & [?|[_ ?]]); congruence.
Qed.

Lemma archive_file_failure src st w :
  not_station_dir (key st) src ->
  ensure_ok (fs w) (key st) = true ->
  is_Some (fs w !! src) ->
  archivable (fs w) (key st) src = false ->
  exists w' e, _archive_file src st w = (w', Raise e) /\
    evolve (under (ARCHIVE_DIR ++ [key st])) nowhere w w' /\ same_tables w w'.
Proof.
  intros Hsrc Hens [nd Hnd] Harch.
  destruct (_archive_file src st w) as [w' r] eqn:R.
  destruct (archive_file_inv _ _ _ _ _ Hsrc R) as [Hev Hr].
  destruct r as [[it|]|e].
  - destruct Hr as (_ & ? & _). congruence.
  - destruct Hr as (_ & _ & Hnone & _). congruence.
  - destruct Hr as (T & _). by exists w', e.
Qed.

(** ** C6: the mirror always archives *)


(** ** C9: a missing source *)

(** Nothing happened between [w] and [w'] but the creation of missing
    directories of station key [k]. *)
Definition only_station_dirs_made (k : string) (w w' : world) : Prop :=
  same_tables w w' /\
  forall p, fs w' !! p = fs w !! p \/
    (fs w !! p = None /\ fs w' !! p = Some (Dir (now w)) /\
     exists d, d ∈ station_dirs k /\ p `prefix_of` d).

Lemma ensure_dirs_only_dirs k w w' r :
  _ensure_dirs_for_station k w = (w', r) -> only_station_dirs_made k w w'.
Proof.
  intros H. split; [by eapply same_tables_ensure_dirs|]. intros p.
  destruct (decide (Exists (fun d => p `prefix_of` d) (station_dirs k))) as [Hex|Hnex].
  - pose proof (evolve_ensure_dirs nowhere nowhere k _ _ _ H) as Hev.
    destruct (ev_fs _ _ _ _ Hev p) as [E|[(E & _ & E')|[([] & _)|([] & _)]]].
    + by left.
    + right. split_and!; [done..|]. apply Exists_exists in Hex as (d & Hd & Hp).
      by exists d.
  - left. eapply ensure_dirs_lookup; [|exact H]. intros d Hd Hp.
    apply Hnex, Exists_exists. by exists d.
Qed.


(** ** C10: the sweep returns a list *)

Lemma mkdir_from_exn pre comps w w' e :
  mkdir_from pre comps w = (w', Raise e) ->
  e = FileExistsError \/ e = NotADirectoryError.
Proof.
  revert pre w. induction comps as [|c cs IH]; intros pre w H; simpl in H; [done|].
  destruct (fs w !! (pre ++ [c])) as [[m|f]|].
  - by eapply IH.
  - injection H as _ <-. destruct cs; auto.
  - by eapply IH.
Qed.

Lemma ensure_dirs_exn k w w' e :
  _ensure_dirs_for_station k w = (w', Raise e) ->
  e = FileExistsError \/ e = NotADirectoryError.
Proof.
  unfold _ensure_dirs_for_station, mkdir. intros H.
  repeat (apply bind_inv in H as [(? & [] & _ & H)|(? & H & [= <-])];
          [|by eapply mkdir_from_exn]).
  by eapply mkdir_from_exn.
Qed.

Lemma sweep_loop_returns st pngs archived w :
  exists w' l, sweep_loop st pngs archived w = (w', Ok l).
Proof.
  revert archived w. induction pngs as [|src rest IH]; intros archived w; simpl.
  - by eexists _, _.
  - unfold bind at 1, try at 1.
    destruct (_archive_file src st w) as [w1 [[it|]|e]].
    + unfold bind at 1, bind at 1, try at 1.
      destruct (unlink src w1) as [w2 [[]|e]]; apply IH.
    + apply IH.
    + apply IH.
Qed.

Lemma with_mtime_returns ps w :
  (forall p, p ∈ ps -> is_Some (fs w !! p)) ->
  exists keyed, with_mtime ps w = (w, Ok keyed).
Proof.
  induction ps as [|p ps IH]; intros H; simpl; [by eexists|].
  destruct IH as [keyed Hk]; [intros q Hq; apply H; by right|].
  destruct (H p) as [nd Hp]; [by left|].
  unfold bind, stat_mtime. rewrite Hp.
  destruct nd; rewrite Hk; by eexists.
Qed.

Lemma sorted_by_mtime_returns ps w :
  (forall p, p ∈ ps -> is_Some (fs w !! p)) ->
  exists l, sorted_by_mtime ps w = (w, Ok l).
Proof.
  intros H. destruct (with_mtime_returns ps w H) as [keyed Hk].
  unfold sorted_by_mtime, bind. rewrite Hk. by eexists.
Qed.

Lemma archive_only_returns scandir st w w1 :
  _ensure_dirs_for_station (key st) w = (w1, Ok tt) ->
  exists w' l, archive_only_from_old_incoming scandir st w = (w', Ok (Some l)).
Proof.
  intros R1. unfold archive_only_from_old_incoming.
  rewrite (bind_ok _ _ _ _ _ R1).
  assert (Hd : is_dir (fs w1) (OLD_INCOMING_DIR ++ [key st]) = true).
  { destruct (ensure_ok (fs w) (key st)) eqn:Hens.
    - destruct (ensure_dirs_ok _ _ Hens) as (w1' & R1' & _ & _ & D1).
      assert (w1' = w1) as -> by congruence.
      apply D1. unfold station_dirs. by repeat constructor.
    - destruct (ensure_dirs_raise _ _ Hens) as (? & ? & ? & _). congruence. }
  unfold bind at 1. rewrite path_exists_run.
  rewrite bool_decide_true.
  2:{ unfold is_dir in Hd. by destruct (fs w1 !! _). }
  cbn [negb]. unfold bind at 1.
  destruct (glob_png_files scandir (OLD_INCOMING_DIR ++ [key st]) w1) as [w2 r2] eqn:G.
  destruct (glob_png_files_inv _ _ _ _ _ G) as [-> (files & -> & Hfiles)].
  destruct (sorted_by_mtime_returns files w1) as [pngs Hs].
  { intros p Hp. destruct (Hfiles p Hp) as [Hf _]. unfold is_file in Hf.
    by destruct (fs w1 !! p). }
  unfold bind at 1. rewrite Hs.
  destruct (sweep_loop_returns st pngs [] w1) as (w' & l & Hl).
  unfold bind. rewrite Hl. by eexists _, _.
Qed.

Lemma scan_old_incoming_exn scandir sts archived_old w w' e :
  scan_old_incoming scandir sts archived_old w = (w', Raise e) ->
  exists st w0, st ∈ sts /\ _ensure_dirs_for_station (key st) w0 = (w', Raise e).
Proof.
  revert archived_old w. induction sts as [|st sts IH]; intros acc w H; simpl in H; [done|].
  destruct (_ensure_dirs_for_station (key st) w) as [w1 [[]|e1]] eqn:R1.
  - destruct (archive_only_returns scandir st w w1 R1) as (w2 & l & Hl).
    rewrite (bind_ok _ _ _ _ _ Hl) in H.
    destruct (IH _ _ H) as (st' & w0 & Hin & H0). exists st', w0. split; [by right|done].
  - unfold archive_only_from_old_incoming in H.
    rewrite (bind_raise _ _ _ _ _ (bind_raise _ _ _ _ _ R1)) in H.
    injection H as <- <-. exists st, w. split; [by left|done].
Qed.

(** C10: [archive_only_from_old_incoming] never returns [None].  Once
    [_ensure_dirs_for_station] has run, the station's old-incoming
    directory exists, so the call returns a list; the only other way out
    is the exception of [_ensure_dirs_for_station] itself.  The second
    loop of [scan_cmd] therefore never extends its list by [None]: it
    raises no [TypeError]. *)
Theorem sweep_returns_a_list_never_none scandir st w :
  (forall w1, _ensure_dirs_for_station (key st) w = (w1, Ok tt) ->
     is_dir (fs w1) (OLD_INCOMING_DIR ++ [key st]) = true) /\
  match _ensure_dirs_for_station (key st) w with
  | (_, Ok _) =>
      exists w' l, archive_only_from_old_incoming scandir st w = (w', Ok (Some l))
  | (w1, Raise e) =>
      archive_only_from_old_incoming scandir st w = (w1, Raise e)
  end /\
  (forall w', archive_only_from_old_incoming scandir st w <> (w', Ok None)) /\
  (forall sts archived_old w',
     scan_old_incoming scandir sts archived_old w <> (w', Raise TypeError)).
Proof.
  assert (H2 : match _ensure_dirs_for_station (key st) w with
    | (_, Ok _) =>
        exists w' l, archive_only_from_old_incoming scandir st w = (w', Ok (Some l))
    | (w1, Raise e) =>
        archive_only_from_old_incoming scandir st w = (w1, Raise e)
    end).
  { destruct (_ensure_dirs_for_station (key st) w) as [w1 [[]|e]] eqn:R1.
    - by eapply archive_only_returns.
    - unfold archive_only_from_old_incoming. by rewrite (bind_raise _ _ _ _ _ R1). }
  split_and!; [|exact H2| |].
  - intros w1 R1. destruct (ensure_ok (fs w) (key st)) eqn:Hens.
    + destruct (ensure_dirs_ok _ _ Hens) as (w1' & R1' & _ & _ & D1).
      assert (w1' = w1) as -> by congruence.
      apply D1. unfold station_dirs. by repeat constructor.
    + destruct (ensure_dirs_raise _ _ Hens) as (? & ? & ? & _). congruence.
  - intros w' H. destruct (_ensure_dirs_for_station (key st) w) as [w1 [[]|e]].
    + destruct H2 as (? & ? & ?). congruence.
    + congruence.
  - intros sts acc w' H.
    destruct (scan_old_incoming_exn _ _ _ _ _ _ H) as (st' & w0 & _ & H0).
    by destruct (ensure_dirs_exn _ _ _ _ H0).
Qed.

(** ** C8: the search *)

Lemma ascii_compare_lt_trans a b c :
  Ascii.compare a b = Lt -> Ascii.compare b c = Lt -> Ascii.compare a c = Lt.
Proof.
  unfold Ascii.compare. rewrite !N.compare_lt_iff. lia.
Qed.

Lemma string_compare_refl s : String.compare s s = Eq.
Proof.
  pose proof (String.compare_antisym s s) as H.
  by destruct (String.compare s s).
Qed.

Lemma string_compare_lt_trans a b c :
  String.compare a b = Lt -> String.compare b c = Lt -> String.compare a c = Lt.
Proof.
  revert b c. induction a as [|x a IH]; intros [|y b] [|z c]; simpl; try done.
  destruct (Ascii.compare x y) eqn:Exy; try done;
  destruct (Ascii.compare y z) eqn:Eyz; try done; intros Hab Hbc.
  - apply Ascii.compare_eq_iff in Exy as ->, Eyz as ->.
    pose proof (Ascii.compare_antisym z z) as H.
    destruct (Ascii.compare z z); try done. by eapply IH.
  - apply Ascii.compare_eq_iff in Exy as ->. by rewrite Eyz.
  - apply Ascii.compare_eq_iff in Eyz as ->. by rewrite Exy.
  - by rewrite (ascii_compare_lt_trans _ _ _ Exy Eyz).
Qed.

Lemma string_compare_gt_lt a b : String.compare a b = Gt <-> String.compare b a = Lt.
Proof.
  rewrite (String.compare_antisym a b). by destruct (String.compare b a).
Qed.

Lemma string_compare_gt_trans a b c :
  String.compare a b = Gt -> String.compare b c = Gt -> String.compare a c = Gt.
Proof.
  rewrite !string_compare_gt_lt. intros H1 H2. by eapply string_compare_lt_trans.
Qed.

Lemma string_leb_trans a b c :
  String.leb a b = true -> String.leb b c = true -> String.leb a c = true.
Proof.
  unfold String.leb.
  destruct (String.compare a b) eqn:Eab; try done;
  destruct (String.compare b c) eqn:Ebc; try done; intros _ _.
  - apply String.compare_eq_iff in Eab as ->. by rewrite Ebc.
  - apply String.compare_eq_iff in Eab as ->. by rewrite Ebc.
  - apply String.compare_eq_iff in Ebc as ->. by rewrite Eab.
  - by rewrite (string_compare_lt_trans _ _ _ Eab Ebc).
Qed.

Lemma order_total r1 r2 :
  order_date_desc_station_asc r1 r2 = false ->
  order_date_desc_station_asc r2 r1 = true.
Proof.
  unfold order_date_desc_station_asc.
  rewrite (String.compare_antisym (date r2) (date r1)).
  destruct (String.compare (date r1) (date r2)); simpl; try done.
  intros H. destruct (String.leb_total (row_station r1) (row_station r2)); congruence.
Qed.

Lemma order_trans r1 r2 r3 :
  order_date_desc_station_asc r1 r2 = true ->
  order_date_desc_station_asc r2 r3 = true ->
  order_date_desc_station_asc r1 r3 = true.
Proof.
  unfold order_date_desc_station_asc.
  destruct (String.compare (date r1) (date r2)) eqn:E12; try done;
  destruct (String.compare (date r2) (date r3)) eqn:E23; try done; intros H1 H2.
  - apply String.compare_eq_iff in E12, E23. rewrite E12, E23, string_compare_refl.
    by eapply string_leb_trans.
  - apply String.compare_eq_iff in E12. by rewrite E12, E23.
  - apply String.compare_eq_iff in E23. by rewrite <- E23, E12.
  - by rewrite (string_compare_gt_trans _ _ _ E12 E23).
Qed.

(** The value of a filter as [search] reads it: the query argument
    without surrounding white space, empty when the argument is absent. *)
Definition filter_value (args : gmap string string) (k : string) : string :=
  Text.strip (default EmptyString (args !! k)).

(** A record passes a filter when the filter's value is empty or equal
    to the record's column. *)
Definition passes (args : gmap string string) (k : string) (c : column) (r : row) : bool :=
  bool_decide (filter_value args k = EmptyString \/ column_of c r = filter_value args k).

Definition passes_all (args : gmap string string) (r : row) : bool :=
  passes args "country" ColCountry r && passes args "station" ColStation r
  && passes args "date" ColDate r.

(** Later day first; on the same day, station names in ascending order. *)
Definition listed_before (a b : result) : Prop :=
  String.compare (res_date a) (res_date b) = Gt \/
  (res_date a = res_date b /\ String.leb (res_station a) (res_station b) = true).

Lemma where_all_cond c q r :
  where_all (cond c q) r = bool_decide (q = EmptyString \/ column_of c r = q).
Proof.
  unfold cond. destruct (decide (q = EmptyString)) as [->|Hq].
  - rewrite bool_decide_true by (by left). reflexivity.
  - cbn [where_all forallb]. rewrite andb_true_r. apply bool_decide_ext. naive_solver.
Qed.

Lemma where_all_app c1 c2 r : where_all (c1 ++ c2) r = where_all c1 r && where_all c2 r.
Proof. unfold where_all. apply forallb_app. Qed.

(** C8, as the code has it: each filter is the query argument stripped
    of surrounding white space; the search returns exactly the records
    that agree by string equality with every filter whose stripped value
    is not empty, later days first and, within a day, by station name in
    ascending order. *)
Theorem search_returns_stripped_matches_in_order args w :
  search args w ≡ₚ to_result <$> List.filter (passes_all args) (db w) /\
  StronglySorted listed_before (search args w).
Proof.
  unfold search.
  assert (E : List.filter
                (where_all (cond ColCountry (arg args "country")
                            ++ cond ColStation (arg args "station")
                            ++ cond ColDate (arg args "date"))) (db w)
              = List.filter (passes_all args) (db w)).
  { apply filter_ext. intros r. rewrite !where_all_app, !where_all_cond.
    unfold passes_all, passes, filter_value, arg. by rewrite andb_assoc. }
  rewrite E. split.
  - by rewrite sorted_perm.
  - eapply StronglySorted_fmap; [|apply sorted_strongly; [apply order_total|apply order_trans]].
    intros r1 r2. unfold order_date_desc_station_asc, listed_before. simpl.
    destruct (String.compare (date r1) (date r2)) eqn:Ed; try done.
    + intros H. right. split; [by apply String.compare_eq_iff|done].
    + by left.
Qed.

(** ** The backfill sweep, file by file *)

(** The day on which the sweep archives a file, if it can archive it. *)
Definition plan (f : gmap path node) (k : string) (p : path) : option (Z * Z * Z) :=
  if archivable f k p
  then match f !! p with
       | Some (File file) => Calendar.fromtimestamp_utc (f_mtime file)
       | _ => None
       end
  else None.

Lemma plan_Some f k p dt :
  plan f k p = Some dt ->
  archivable f k p = true /\
  exists file, f !! p = Some (File file) /\
               Calendar.fromtimestamp_utc (f_mtime file) = Some dt.
Proof.
  unfold plan. destruct (archivable f k p) eqn:A; [|done].
  destruct (f !! p) as [[|file]|]; try done. eauto.
Qed.

Lemma plan_None f k p : plan f k p = None -> archivable f k p = false.
Proof.
  unfold plan, archivable. destruct (f !! p) as [[|file]|]; try done.
  destruct (Calendar.fromtimestamp_utc _); [|done].
  by destruct (_ && _).
Qed.

Lemma plan_evolve W D w w' k p :
  evolve W D w w' -> fs w' !! p = fs w !! p -> plan (fs w') k p = plan (fs w) k p.
Proof.
  intros Hev Hp. unfold plan. by rewrite (archivable_evolve _ _ _ _ _ _ Hev Hp), Hp.
Qed.

(** The upsert that archiving [p] on day [dt] makes. *)
Definition upsert_for (st : station_cfg) (p : path) (dt : Z * Z * Z)
    (rows : list row) : list row :=
  upsert (name p) (country st) (station st) (Calendar.strftime_ymd dt) (key st)
         (Text.join_posix (archive_dir (key st) dt ++ [name p])) rows.

Definition sweep_db (st : station_cfg) (pl : path -> option (Z * Z * Z))
    (rows : list row) (pngs : list path) : list row :=
  foldl (fun rows p => from_option (fun dt => upsert_for st p dt rows) rows (pl p))
        rows pngs.

Definition sweep_infos (st : station_cfg) (pl : path -> option (Z * Z * Z))
    (pngs : list path) : list info :=
  omap (fun p => info_of st p <$> pl p) pngs.

Definition failed (pl : path -> option (Z * Z * Z)) (pngs : list path) : list path :=
  List.filter (fun p => bool_decide (pl p = None)) pngs.

Lemma backlog_filepos k p : backlog_of k p -> dirpos p = false.
Proof. by intros [n ->]. Qed.

Lemma backlog_not_under_archive k k' p :
  backlog_of k p -> ~ under (ARCHIVE_DIR ++ [k']) p.
Proof. by intros [n ->] [q E]. Qed.

Lemma backlog_deep k p : backlog_of k p -> not_station_dir k p.
Proof. intros [n ->]. apply not_station_dir_deep. simpl. lia. Qed.

Lemma unlink_file p w file :
  fs w !! p = Some (File file) -> unlink p w = (with_fs (delete p (fs w)) w, Ok tt).
Proof. intros E. unfold unlink. by rewrite E. Qed.

Lemma sweep_infos_cons st pl p ps :
  sweep_infos st pl (p :: ps) =
  from_option (fun dt => [info_of st p dt]) [] (pl p) ++ sweep_infos st pl ps.
Proof. unfold sweep_infos. simpl. by destruct (pl p). Qed.

Lemma sweep_db_cons st pl rows p ps :
  sweep_db st pl rows (p :: ps) =
  sweep_db st pl (from_option (fun dt => upsert_for st p dt rows) rows (pl p)) ps.
Proof. reflexivity. Qed.

Lemma failed_cons pl p ps :
  failed pl (p :: ps) =
  match pl p with Some _ => failed pl ps | None => p :: failed pl ps end.
Proof. unfold failed. simpl. by destruct (pl p). Qed.

Lemma sweep_loop_spec st pl pngs : forall w archived,
  ensure_ok (fs w) (key st) = true ->
  NoDup pngs ->
  (forall p, p ∈ pngs ->
     backlog_of (key st) p /\ is_file (fs w) p = true /\ plan (fs w) (key st) p = pl p) ->
  exists w' es,
    sweep_loop st pngs archived w = (w', Ok (archived ++ sweep_infos st pl pngs)) /\
    evolve (under (ARCHIVE_DIR ++ [key st])) (fun p => p ∈ pngs) w w' /\
    db w' = sweep_db st pl (db w) pngs /\
    out w' = out w ++ zip_with Warn (failed pl pngs) es /\
    length es = length (failed pl pngs) /\
    (forall p, p ∈ pngs -> fs w' !! p = match pl p with Some _ => None | None => fs w !! p end).
Proof.
  induction pngs as [|src rest IH]; intros w archived Hens Hnd Hall.
  { exists w, []. simpl. rewrite !app_nil_r. split_and!; try done. by intros p Hp%elem_of_nil. }
  apply NoDup_cons in Hnd as [Hsrc Hnd].
  destruct (Hall src) as (Hb & Hf & Hpl); [by left|].
  assert (Hrest : forall w2, evolve (under (ARCHIVE_DIR ++ [key st])) (fun p => p = src) w w2 ->
    exists w' es,
      sweep_loop st rest (archived ++ from_option (fun dt => [info_of st src dt]) [] (pl src)) w2
        = (w', Ok ((archived ++ from_option (fun dt => [info_of st src dt]) [] (pl src))
                   ++ sweep_infos st pl rest)) /\
      evolve (under (ARCHIVE_DIR ++ [key st])) (fun p => p ∈ src :: rest) w w' /\
      db w' = sweep_db st pl (db w2) rest /\
      out w' = out w2 ++ zip_with Warn (failed pl rest) es /\
      length es = length (failed pl rest) /\
      fs w' !! src = fs w2 !! src /\
      (forall p, p ∈ rest -> fs w' !! p = match pl p with Some _ => None | None => fs w !! p end)).
  { intros w2 E2.
    assert (Hsame : forall p, p ∈ rest -> fs w2 !! p = fs w !! p).
    { intros p Hp. destruct (Hall p) as (Hbp & _); [by right|].
      apply (evolve_untouched E2); [by eapply backlog_not_under_archive| |by eapply backlog_filepos].
      intros ->. done. }
    destruct (IH w2 (archived ++ from_option (fun dt => [info_of st src dt]) [] (pl src)))
      as (w' & es & R & E & Hdb & Hout & Hlen & Hfs).
    - by rewrite (ensure_ok_evolve _ _ _ _ _ E2).
    - done.
    - intros p Hp. destruct (Hall p) as (Hbp & Hfp & Hplp); [by right|].
      split_and!; [done| |].
      + unfold is_file. rewrite (Hsame p Hp). exact Hfp.
      + rewrite <- Hplp. apply (plan_evolve _ _ _ _ _ _ E2). by apply Hsame.
    - exists w', es. split_and!; try done.
      + etrans.
        * eapply evolve_mono; [| |exact E2]; [done|]. intros p ->. by left.
        * eapply evolve_mono; [| |exact E]; [done|]. intros p Hp. by right.
      + apply (evolve_untouched E); [by eapply backlog_not_under_archive|done|by eapply backlog_filepos].
      + intros p Hp. rewrite (Hfs p Hp). by rewrite (Hsame p Hp). }
  unfold is_file in Hf. destruct (fs w !! src) as [[|file]|] eqn:Efile; try done.
  cbn [sweep_loop]. unfold bind at 1, try at 1.
  destruct (pl src) as [dt|] eqn:Epl.
  - (* the file is archived and removed *)
    apply plan_Some in Hpl as (Harch & file' & Hf' & Hdt).
    rewrite Efile in Hf'. injection Hf' as <-.
    destruct (archive_file_success src st w file dt (backlog_deep _ _ Hb) Hens Efile Hdt Harch)
      as (w1 & R1 & E1 & A1).
    rewrite R1. unfold bind at 1, bind at 1, try at 1.
    assert (Ef1 : fs w1 !! src = Some (File file)).
    { eapply evolve_keeps_file; [exact E1|by eapply backlog_not_under_archive|by intros []|done]. }
    rewrite (unlink_file _ _ _ Ef1). cbn [ret].
    destruct (Hrest (with_fs (delete src (fs w1)) w1)) as (w' & es & R & E & Hdb & Hout & Hlen & Hs & Hfs).
    { etrans; [eapply evolve_mono; [| |exact E1]; [done|by intros ? []]|].
      eapply (evolve_unlink (under (ARCHIVE_DIR ++ [key st])) (fun p => p = src) src
                eq_refl (backlog_filepos _ _ Hb)).
      by apply (unlink_file _ _ file). }
    cbn [from_option] in R. exists w', es.
    destruct A1 as (_ & Adb & Aout & _). split_and!.
    + rewrite R, sweep_infos_cons, Epl. cbn [from_option]. by rewrite <- app_assoc.
    + done.
    + rewrite Hdb, sweep_db_cons, Epl. cbn [from_option db with_fs].
      unfold upsert_for. by rewrite Adb.
    + rewrite Hout, failed_cons, Epl. cbn [out with_fs]. by rewrite Aout.
    + by rewrite Hlen, failed_cons, Epl.
    + intros p [->|Hp]%elem_of_cons.
      * rewrite Epl, Hs. cbn [fs with_fs]. apply lookup_delete_eq.
      * by apply Hfs.
  - (* the archival raises: a warning, the file stays *)
    apply plan_None in Hpl.
    destruct (archive_file_failure src st w (backlog_deep _ _ Hb) Hens ltac:(eauto) Hpl)
      as (w1 & e & R1 & E1 & T1).
    rewrite R1. unfold bind at 1, bind at 1, print at 1. cbn [ret].
    destruct (Hrest (with_out (out w1 ++ [Warn src e]) w1)) as (w' & es & R & E & Hdb & Hout & Hlen & Hs & Hfs).
    { etrans; [eapply evolve_mono; [| |exact E1]; [done|by intros ? []]|].
      eapply (evolve_print _ _ (Warn src e)). reflexivity. }
    cbn [from_option] in R. rewrite app_nil_r in R. exists w', (e :: es).
    destruct T1 as (Tdb & Tout & _). split_and!.
    + by rewrite R, sweep_infos_cons, Epl.
    + done.
    + rewrite Hdb, sweep_db_cons, Epl. cbn [from_option db with_out]. by rewrite Tdb.
    + rewrite Hout, failed_cons, Epl. cbn [out with_out zip_with]. rewrite Tout.
      by rewrite <- app_assoc.
    + rewrite failed_cons, Epl. simpl. by rewrite Hlen.
    + intros p [->|Hp]%elem_of_cons.
      * rewrite Epl, Hs. cbn [fs with_out].
        apply (evolve_untouched E1);
          [by eapply backlog_not_under_archive|by intros []|by eapply backlog_filepos].
      * by apply Hfs.
Qed.

(** ** The backfill sweep as a whole *)

(** [st_mtime] of the node at [p] (0 where there is none). *)
Definition mtime_of (f : gmap path node) (p : path) : Z :=
  match f !! p with Some nd => node_mtime nd | None => 0 end.

(** [p] is a regular file of the station's old-incoming directory whose
    name matches [*.png]. *)
Definition is_backlog_png (f : gmap path node) (k : string) (p : path) : Prop :=
  exists n, p = (OLD_INCOMING_DIR ++ [k]) ++ [n] /\ Text.is_png n = true /\
            is_file f p = true.

Lemma insert_sorted_fmap {A B} (g : A -> B) (le : B -> B -> bool) x l :
  insert_sorted le (g x) (g <$> l) =
  g <$> insert_sorted (fun a b => le (g a) (g b)) x l.
Proof.
  induction l as [|y l IH]; [done|].
  rewrite fmap_cons. cbn [insert_sorted].
  destruct (le (g x) (g y)); rewrite !fmap_cons; [done|]. by rewrite IH.
Qed.

Lemma sorted_fmap {A B} (g : A -> B) (le : B -> B -> bool) l :
  sorted le (g <$> l) = g <$> sorted (fun a b => le (g a) (g b)) l.
Proof.
  induction l as [|x l IH]; [done|].
  rewrite fmap_cons. unfold sorted in *. cbn [foldr].
  by rewrite IH, insert_sorted_fmap.
Qed.

Lemma with_mtime_eq ps w :
  (forall p, p ∈ ps -> is_Some (fs w !! p)) ->
  with_mtime ps w = (w, Ok ((fun p => (mtime_of (fs w) p, p)) <$> ps)).
Proof.
  induction ps as [|p ps IH]; intros H; [done|]. cbn [with_mtime].
  destruct (H p) as [nd Hp]; [by left|].
  assert (Hm : mtime_of (fs w) p = node_mtime nd) by (unfold mtime_of; by rewrite Hp).
  rewrite fmap_cons, Hm.
  unfold bind at 1, stat_mtime. rewrite Hp.
  destruct nd; unfold bind; rewrite IH by (intros q Hq; apply H; by right); done.
Qed.

Lemma sorted_by_mtime_eq ps w :
  (forall p, p ∈ ps -> is_Some (fs w !! p)) ->
  sorted_by_mtime ps w =
    (w, Ok (sorted (fun p q => mtime_of (fs w) p <=? mtime_of (fs w) q) ps)).
Proof.
  intros H. unfold sorted_by_mtime, bind. rewrite (with_mtime_eq _ _ H). unfold ret.
  rewrite (sorted_fmap (fun p => (mtime_of (fs w) p, p)) (fun a b => a.1 <=? b.1)).
  rewrite <- list_fmap_compose. simpl. by rewrite list_fmap_id.
Qed.

Lemma StronglySorted_on {A} (R1 R2 : relation A) l :
  (forall x y, x ∈ l -> y ∈ l -> R1 x y -> R2 x y) ->
  StronglySorted R1 l -> StronglySorted R2 l.
Proof.
  intros H. induction 1 as [|x l Hl IH Hx]; constructor.
  - apply IH. intros a b Ha Hb. apply H; by right.
  - apply Forall_forall. intros y Hy. apply H; [by left|by right|].
    by eapply Forall_forall in Hx.
Qed.

Section SweepSpec.

Variable scandir : gmap path node -> path -> list string.

(** The listing yields every entry of the directory once. *)
Hypothesis scandir_spec : forall f d,
  NoDup (scandir f d) /\ forall n, n ∈ scandir f d <-> is_Some (f !! (d ++ [n])).

Lemma glob_png_files_list d w :
  is_dir (fs w) d = true ->
  exists files, glob_png_files scandir d w = (w, Ok files) /\ NoDup files /\
    forall p, p ∈ files <->
      exists n, p = d ++ [n] /\ Text.is_png n = true /\ is_file (fs w) p = true.
Proof.
  intros Hd. unfold glob_png_files. rewrite Hd. eexists. split; [done|].
  destruct (scandir_spec (fs w) d) as [Hnd Hin]. split.
  - apply NoDup_ListNoDup, List.NoDup_filter, NoDup_ListNoDup.
    apply NoDup_fmap_2; [by intros a b ?%app_inv_head; simplify_eq|].
    by apply NoDup_ListNoDup, List.NoDup_filter, NoDup_ListNoDup.
  - intros p. rewrite list_elem_of_In, filter_In, <- list_elem_of_In, list_elem_of_fmap.
    split.
    + intros [(n & -> & Hn) Hf]. apply list_elem_of_In, filter_In in Hn as [_ Hpng].
      by exists n.
    + intros (n & -> & Hpng & Hf). split; [|done]. exists n. split; [done|].
      apply list_elem_of_In, filter_In. split; [|done].
      apply list_elem_of_In, Hin. unfold is_file in Hf. by destruct (fs w !! _).
Qed.

Lemma sweep_spec st w :
  ensure_ok (fs w) (key st) = true ->
  exists w' pngs es,
    archive_only_from_old_incoming scandir st w =
      (w', Ok (Some (sweep_infos st (plan (fs w) (key st)) pngs))) /\
    NoDup pngs /\
    (forall p, p ∈ pngs <-> is_backlog_png (fs w) (key st) p) /\
    StronglySorted (fun p q => mtime_of (fs w) p <= mtime_of (fs w) q) pngs /\
    evolve (under (ARCHIVE_DIR ++ [key st])) (backlog_of (key st)) w w' /\
    db w' = sweep_db st (plan (fs w) (key st)) (db w) pngs /\
    out w' = out w ++ zip_with Warn (failed (plan (fs w) (key st)) pngs) es /\
    length es = length (failed (plan (fs w) (key st)) pngs) /\
    (forall p, p ∈ pngs ->
       fs w' !! p = match plan (fs w) (key st) p with
                    | Some _ => None
                    | None => fs w !! p
                    end).
Proof.
  intros Hens. set (dir := OLD_INCOMING_DIR ++ [key st]).
  destruct (ensure_dirs_ok _ _ Hens) as (w1 & R1 & E1 & T1 & D1).
  assert (Hd : is_dir (fs w1) dir = true).
  { apply D1. unfold station_dirs, dir. by repeat constructor. }
  destruct (glob_png_files_list dir w1 Hd) as (files & G & Hnd & Hfiles).
  assert (Hsame : forall n, fs w1 !! (dir ++ [n]) = fs w !! (dir ++ [n])).
  { intros n. by apply (evolve_nowhere_filepos _ _ _ E1). }
  assert (Hex : forall p, p ∈ files -> is_Some (fs w1 !! p)).
  { intros p (n & -> & _ & Hf)%Hfiles. unfold is_file in Hf. by destruct (fs w1 !! _). }
  set (pngs := sorted (fun p q => mtime_of (fs w1) p <=? mtime_of (fs w1) q) files).
  assert (Hperm : pngs ≡ₚ files) by apply sorted_perm.
  assert (Hmem : forall p, p ∈ pngs <-> is_backlog_png (fs w) (key st) p).
  { intros p. rewrite Hperm, Hfiles. unfold is_backlog_png. fold dir.
    split; intros (n & -> & Hpng & Hf); exists n; split_and!; try done;
      unfold is_file in *; [by rewrite <- Hsame | by rewrite Hsame]. }
  destruct (sweep_loop_spec st (plan (fs w) (key st)) pngs w1 [])
    as (w' & es & R & E & Hdb & Hout & Hlen & Hfs).
  { by rewrite (ensure_ok_evolve _ _ _ _ _ E1). }
  { by rewrite Hperm. }
  { intros p Hp. pose proof Hp as (n & -> & Hpng & Hf)%Hmem. fold dir in Hf |- *.
    split_and!.
    - by exists n.
    - unfold is_file in *. by rewrite Hsame.
    - apply (plan_evolve _ _ _ _ _ _ E1), Hsame. }
  exists w', pngs, es. destruct T1 as (Tdb & Tout & _).
  split_and!; try done.
  - unfold archive_only_from_old_incoming. rewrite (bind_ok _ _ _ _ _ R1).
    fold dir. unfold bind at 1. rewrite path_exists_run, bool_decide_true.
    2:{ unfold is_dir in Hd. by destruct (fs w1 !! dir). }
    cbn [negb]. unfold bind at 1. rewrite G.
    unfold bind at 1. rewrite (sorted_by_mtime_eq _ _ Hex). fold pngs.
    unfold bind. by rewrite R.
  - by rewrite Hperm.
  - eapply StronglySorted_on; [|apply (sorted_strongly
      (fun p q => mtime_of (fs w1) p <=? mtime_of (fs w1) q))].
    + intros p q (n & -> & _)%Hmem (n' & -> & _)%Hmem. fold dir.
      unfold mtime_of. rewrite !Hsame. by intros ?%Z.leb_le.
    + intros x y H%Z.leb_gt. apply Z.leb_le. lia.
    + intros x y z ?%Z.leb_le ?%Z.leb_le. apply Z.leb_le. lia.
  - etrans; [eapply evolve_mono; [| |exact E1]; by intros ? []|].
    eapply evolve_mono; [| |exact E]; [done|].
    intros p (n & -> & _)%Hmem. by exists n.
  - by rewrite Hdb, Tdb.
  - by rewrite Hout, Tout.
  - intros p Hp. rewrite (Hfs p Hp). destruct (plan _ _ p); [done|].
    pose proof Hp as (n & -> & _)%Hmem. apply Hsame.
Qed.

End SweepSpec.

(** ** C7 and C2: what a sweep leaves behind *)

Lemma last_with {A} (P : A -> Prop) `{!forall x, Decision (P x)} (l : list A) :
  Exists P l ->
  exists l1 q l2, l = l1 ++ q :: l2 /\ P q /\ Forall (fun x => ~ P x) l2.
Proof.
  induction l as [|x l IH]; intros Hex; [by apply Exists_nil in Hex|].
  destruct (decide (Exists P l)) as [Hl|Hl].
  - destruct (IH Hl) as (l1 & q & l2 & -> & Hq & Hl2). by exists (x :: l1), q, l2.
  - apply Exists_cons in Hex as [Hx|?]; [|done].
    exists [], x, l. split_and!; [done..|]. by apply not_Exists_Forall.
Qed.

Lemma StronglySorted_before {A} (R : relation A) l1 q l2 x :
  StronglySorted R (l1 ++ q :: l2) -> x ∈ l1 -> R x q.
Proof.
  induction l1 as [|y l1 IH]; intros H Hx; [by apply elem_of_nil in Hx|].
  apply StronglySorted_inv in H as [H Hy].
  apply elem_of_cons in Hx as [->|Hx]; [|by apply IH].
  eapply Forall_forall in Hy; [exact Hy|]. apply elem_of_app. right. by left.
Qed.

Lemma sweep_db_app st pl rows l1 l2 :
  sweep_db st pl rows (l1 ++ l2) = sweep_db st pl (sweep_db st pl rows l1) l2.
Proof. apply foldl_app. Qed.

Lemma upsert_other_day img ctry stn d k fp rows r k' D :
  (k, d) <> (k', D) ->
  r ∈ records_for k' D (upsert img ctry stn d k fp rows) <-> r ∈ records_for k' D rows.
Proof.
  intros Hne. rewrite !elem_of_records_for. split.
  - intros [Hin Hk]. split; [|done].
    apply upsert_elem_of in Hin as [[? _]|(Hk' & _)]; [done|congruence].
  - intros [Hin Hk]. split; [|done]. apply upsert_keeps_others; [congruence|done].
Qed.

(** The record of station [st] for the file [q]. *)
Definition record_of (st : station_cfg) (q : path) (D : string) (r : row) : Prop :=
  image_name r = name q /\
  file_path r = Text.join_posix (ARCHIVE_DIR ++ [key st] ++ Text.split_on "-" D ++ [name q]) /\
  row_country r = country st /\ row_station r = station st.

Lemma archive_dir_split k dt :
  archive_dir k dt = ARCHIVE_DIR ++ [k] ++ Text.split_on "-" (Calendar.strftime_ymd dt).
Proof. destruct dt as [[y m] d]. by rewrite split_strftime. Qed.

Lemma sweep_db_last st pl rows l1 q l2 dtq :
  pl q = Some dtq ->
  (forall p dt, p ∈ l2 -> pl p = Some dt ->
     Calendar.strftime_ymd dt <> Calendar.strftime_ymd dtq) ->
  let D := Calendar.strftime_ymd dtq in
  let rows' := sweep_db st pl rows (l1 ++ q :: l2) in
  (exists r, r ∈ records_for (key st) D rows') /\
  forall r, r ∈ records_for (key st) D rows' -> record_of st q D r.
Proof.
  intros Hq Hl2 D rows'. subst rows'.
  rewrite sweep_db_app, sweep_db_cons, Hq. cbn [from_option].
  set (rows1 := sweep_db st pl rows l1).
  set (rows2 := upsert_for st q dtq rows1).
  assert (H2 : (exists r, r ∈ records_for (key st) D rows2) /\
               forall r, r ∈ records_for (key st) D rows2 -> record_of st q D r).
  { split; [apply upsert_has_record|].
    intros r [Hin Hk]%elem_of_records_for.
    apply upsert_elem_of in Hin as [[_ ?]|(_ & ? & ? & ? & Hfp)]; [done|].
    unfold record_of. split_and!; try done.
    rewrite Hfp, archive_dir_split. fold D. by rewrite <- !app_assoc. }
  clearbody rows2. clear rows1. revert rows2 H2.
  induction l2 as [|p l2 IH]; intros rows2 H2; [done|].
  rewrite sweep_db_cons. apply IH.
  - intros p' dt Hp'. apply Hl2. by right.
  - destruct (pl p) as [dt|] eqn:Ep; cbn [from_option]; [|done].
    assert (Hne : (key st, Calendar.strftime_ymd dt) <> (key st, D)).
    { intros [= E]. eapply Hl2; [by left|done..]. }
    destruct H2 as [[r Hr] Hall]. split.
    + exists r. by apply upsert_other_day.
    + intros r' Hr'. apply Hall. by eapply upsert_other_day.
Qed.

Lemma failed_nil pl l : (forall p, p ∈ l -> is_Some (pl p)) -> failed pl l = [].
Proof.
  induction l as [|p l IH]; intros H; [done|].
  rewrite failed_cons. destruct (H p) as [dt ->]; [by left|].
  apply IH. intros q Hq. apply H. by right.
Qed.

Section SweepClaims.

Variable scandir : gmap path node -> path -> list string.

Hypothesis scandir_spec : forall f d,
  NoDup (scandir f d) /\ forall n, n ∈ scandir f d <-> is_Some (f !! (d ++ [n])).

(** C7: the sweep takes the [*.png] files of the backlog in ascending
    order of modification time.  A file whose archival raises is left
    where it is, a warning for it is printed, and the sweep goes on with
    the next file; a file whose archival succeeds is removed and its
    entry is appended to the returned list.  So the files removed, and
    the entries returned, are exactly those that could be archived. *)
Theorem sweep_keeps_failed_files_and_goes_on st w :
  ensure_ok (fs w) (key st) = true ->
  exists w' pngs es,
    let pl := plan (fs w) (key st) in
    archive_only_from_old_incoming scandir st w =
      (w', Ok (Some (sweep_infos st pl pngs))) /\
    NoDup pngs /\
    (forall p, p ∈ pngs <-> is_backlog_png (fs w) (key st) p) /\
    StronglySorted (fun p q => mtime_of (fs w) p <= mtime_of (fs w) q) pngs /\
    (forall p, p ∈ pngs ->
       match pl p with
       | Some dt =>
           (exists w1, _archive_file p st w = (w1, Ok (Some (info_of st p dt)))) /\
           fs w' !! p = None /\ info_of st p dt ∈ sweep_infos st pl pngs
       | None =>
           (exists w1 e, _archive_file p st w = (w1, Raise e)) /\
           fs w' !! p = fs w !! p /\ exists e, Warn p e ∈ out w'
       end) /\
    out w' = out w ++ zip_with Warn (failed pl pngs) es /\
    length es = length (failed pl pngs) /\
    db w' = sweep_db st pl (db w) pngs.
Proof.
  intros Hens.
  destruct (sweep_spec scandir scandir_spec st w Hens)
    as (w' & pngs & es & R & Hnd & Hmem & Hsort & Hev & Hdb & Hout & Hlen & Hfs).
  exists w', pngs, es. cbn zeta. split_and!; try done.
  intros p Hp. pose proof (Hfs p Hp) as Hfp.
  pose proof Hp as (n & Hn & _ & Hf)%Hmem.
  assert (Hb : backlog_of (key st) p) by by exists n.
  destruct (plan (fs w) (key st) p) as [dt|] eqn:Hpl.
  - apply plan_Some in Hpl as Hpl'. destruct Hpl' as (Harch & file & Hfile & Hdt).
    destruct (archive_file_success p st w file dt (backlog_deep _ _ Hb) Hens Hfile Hdt Harch)
      as (w1 & R1 & _). split_and!; [by exists w1 | done |].
    unfold sweep_infos. apply list_elem_of_omap. exists p. by rewrite Hpl.
  - apply plan_None in Hpl as Harch.
    destruct (archive_file_failure p st w (backlog_deep _ _ Hb) Hens) as (w1 & e & R1 & _);
      [unfold is_file in Hf; by destruct (fs w !! p) | done |].
    split_and!; [by exists w1, e | done |].
    assert (Hin : p ∈ failed (plan (fs w) (key st)) pngs).
    { unfold failed. apply list_elem_of_In, filter_In. split; [by apply list_elem_of_In|].
      by apply bool_decide_eq_true. }
    apply list_elem_of_lookup in Hin as [i Hi].
    destruct (lookup_lt_is_Some_2 es i) as [e' He'].
    { rewrite Hlen. by eapply lookup_lt_Some. }
    exists e'. rewrite Hout. apply elem_of_app. right.
    apply list_elem_of_lookup. exists i. rewrite lookup_zip_with, Hi. simpl. by rewrite He'.
Qed.

(** C2: when every [*.png] file of the station's backlog can be
    archived, one sweep archives them in ascending order of modification
    time and removes each of them, so that no [*.png] file is left (and
    nothing at all when the directory held nothing else); no warning is
    printed; and for every day on which one of the files falls, the
    records of the station for that day are those of a file of that day
    that no other file of that day is newer than. *)
Theorem backfill_drains_and_keeps_last_of_each_day st w :
  ensure_ok (fs w) (key st) = true ->
  (forall p, is_backlog_png (fs w) (key st) p -> archivable (fs w) (key st) p = true) ->
  let pl := plan (fs w) (key st) in
  let dir := OLD_INCOMING_DIR ++ [key st] in
  exists w' pngs archived,
    archive_only_from_old_incoming scandir st w = (w', Ok (Some archived)) /\
    NoDup pngs /\
    (forall p, p ∈ pngs <-> is_backlog_png (fs w) (key st) p) /\
    StronglySorted (fun p q => mtime_of (fs w) p <= mtime_of (fs w) q) pngs /\
    Forall2 (fun p it => exists dt, pl p = Some dt /\ it = info_of st p dt) pngs archived /\
    (forall p, p ∈ pngs -> fs w' !! p = None) /\
    (forall n, Text.is_png n = true -> is_file (fs w') (dir ++ [n]) = false) /\
    ((forall n, is_Some (fs w !! (dir ++ [n])) -> is_backlog_png (fs w) (key st) (dir ++ [n])) ->
     forall n, fs w' !! (dir ++ [n]) = None) /\
    out w' = out w /\
    (forall p dt, p ∈ pngs -> pl p = Some dt ->
       let D := Calendar.strftime_ymd dt in
       exists q dtq,
         q ∈ pngs /\ pl q = Some dtq /\ Calendar.strftime_ymd dtq = D /\
         (forall p' dt', p' ∈ pngs -> pl p' = Some dt' -> Calendar.strftime_ymd dt' = D ->
            mtime_of (fs w) p' <= mtime_of (fs w) q) /\
         (exists r, r ∈ records_for (key st) D (db w')) /\
         (forall r, r ∈ records_for (key st) D (db w') -> record_of st q D r)).
Proof.
  intros Hens Hall pl dir.
  destruct (sweep_spec scandir scandir_spec st w Hens)
    as (w' & pngs & es & R & Hnd & Hmem & Hsort & Hev & Hdb & Hout & Hlen & Hfs).
  fold pl in R, Hdb, Hout, Hlen, Hfs.
  assert (Hsome : forall p, p ∈ pngs -> exists dt, pl p = Some dt).
  { intros p Hp%Hmem. pose proof (Hall p Hp) as Harch. unfold pl, plan. rewrite Harch.
    unfold archivable in Harch. destruct (fs w !! p) as [[|file]|]; try done.
    destruct (Calendar.fromtimestamp_utc _); [eauto|done]. }
  assert (Hnofail : failed pl pngs = []).
  { apply failed_nil. intros p Hp. destruct (Hsome p Hp) as [dt Hdt]. by exists dt. }
  assert (Hgone : forall p, p ∈ pngs -> fs w' !! p = None).
  { intros p Hp. rewrite (Hfs p Hp). by destruct (Hsome p Hp) as [dt ->]. }
  assert (Hnonew : forall n file, fs w' !! (dir ++ [n]) = Some (File file) ->
            fs w !! (dir ++ [n]) = Some (File file)).
  { intros n file. apply (evolve_no_new_file Hev).
    apply (backlog_not_under_archive (key st)). by exists n. }
  exists w', pngs, (sweep_infos st pl pngs). split_and!; try done.
  - unfold sweep_infos. clear -Hsome. induction pngs as [|p pngs IH]; [constructor|].
    destruct (Hsome p) as [dt Hdt]; [by left|].
    cbn. rewrite Hdt. cbn. constructor; [by exists dt|].
    apply IH. intros q Hq. apply Hsome. by right.
  - intros n Hpng. destruct (is_file (fs w') (dir ++ [n])) eqn:Hf; [|done].
    unfold is_file in Hf. destruct (fs w' !! (dir ++ [n])) as [[|file]|] eqn:E; try done.
    rewrite Hgone in E; [done|]. apply Hmem. exists n. split_and!; [done..|].
    unfold is_file. by rewrite (Hnonew _ _ E).
  - intros Honly n. destruct (fs w' !! (dir ++ [n])) as [nd|] eqn:E; [|done].
    rewrite Hgone in E; [done|]. apply Hmem, Honly.
    destruct nd as [m|file].
    + assert (Hd : is_dir (fs w') (dir ++ [n]) = true) by (unfold is_dir; by rewrite E).
      rewrite (evolve_is_dir_filepos Hev) in Hd by done.
      unfold is_dir in Hd. by destruct (fs w !! (dir ++ [n])).
    + by rewrite (Hnonew _ _ E).
  - by rewrite Hout, Hnofail, app_nil_r.
  - intros p dt Hp Hpl D.
    destruct (last_with (fun q => Calendar.strftime_ymd <$> pl q = Some D) pngs)
      as (l1 & q & l2 & Hsplit & Hq & Hl2).
    { apply Exists_exists. exists p. split; [done|]. by rewrite Hpl. }
    destruct (pl q) as [dtq|] eqn:Hplq; [|done]. injection Hq as HD.
    assert (Hafter : forall p' dt', p' ∈ l2 -> pl p' = Some dt' ->
              Calendar.strftime_ymd dt' <> Calendar.strftime_ymd dtq).
    { intros p' dt' Hp' Hpl' E. eapply Forall_forall in Hl2; [|exact Hp'].
      apply Hl2. rewrite Hpl'. simpl. by rewrite E, HD. }
    exists q, dtq. split_and!; [|done|done| |..].
    + rewrite Hsplit. apply elem_of_app. right. by left.
    + intros p' dt' Hp' Hpl' HD'. rewrite Hsplit in Hp', Hsort.
      apply elem_of_app in Hp' as [Hp'|Hp'].
      * by eapply (StronglySorted_before _ _ _ _ _ Hsort).
      * apply elem_of_cons in Hp' as [->|Hp']; [lia|].
        exfalso. eapply Hafter; [done..|]. by rewrite HD.
    + rewrite Hdb, Hsplit, <- HD. by apply sweep_db_last.
    + rewrite Hdb, Hsplit, <- HD. by apply sweep_db_last.
Qed.

End SweepClaims.

(** ** When the mirror raises *)

(** The copy to [current] is not attempted, or it has a place to go. *)
Definition safe_copy (f : gmap path node) (st : station_cfg) : bool :=
  negb (newer f (incoming_src st) (current_dst (key st))
        && is_dir f (current_dst (key st))
        && is_dir f (current_dst (key st) ++ [incoming_filename st])).

(** [mirror_current_and_archive] returns normally. *)
Definition mirror_ok (f : gmap path node) (st : station_cfg) : bool :=
  ensure_ok f (key st)
  && match f !! incoming_src st with
     | None => true
     | Some (Dir _) => false
     | Some (File _) => safe_copy f st && archivable f (key st) (incoming_src st)
     end.

Lemma name_incoming_src st : name (incoming_src st) = incoming_filename st.
Proof. reflexivity. Qed.

Lemma mirror_inv st w w' r :
  mirror_current_and_archive st w = (w', r) ->
  match r with
  | Raise e => mirror_ok (fs w) st = false
  | Ok None =>
      mirror_ok (fs w) st = true /\ fs w !! incoming_src st = None /\ db w' = db w
  | Ok (Some it) =>
      mirror_ok (fs w) st = true /\
      exists file dt,
        fs w !! incoming_src st = Some (File file) /\
        Calendar.fromtimestamp_utc (f_mtime file) = Some dt /\
        it = info_of st (incoming_src st) dt /\
        db w' = upsert_for st (incoming_src st) dt (db w)
  end.
Proof.
  intros H. unfold mirror_ok.
  set (src := incoming_src st) in *. set (cur := current_dst (key st)) in *.
  assert (Hdeep : not_station_dir (key st) src).
  { apply not_station_dir_deep. simpl. lia. }
  destruct (ensure_ok (fs w) (key st)) eqn:Hens; cbn [andb].
  2:{ destruct (ensure_dirs_raise _ _ Hens) as (w1 & e & R1 & _).
      unfold mirror_current_and_archive in H.
      rewrite (bind_raise _ _ _ _ _ R1) in H. by injection H as <- <-. }
  destruct (ensure_dirs_ok _ _ Hens) as (w1 & R1 & E1 & T1 & D1).
  rewrite (mirror_run _ _ _ R1) in H. fold src cur in H.
  assert (Es1 : fs w1 !! src = fs w !! src) by by apply (evolve_nowhere_filepos _ _ _ E1).
  destruct T1 as (Tdb & _).
  destruct (fs w !! src) as [nd|] eqn:Esrc.
  2:{ by injection H as <- <-. }
  (* archiving from a world that differs from [w] by the copy only *)
  assert (Harch : forall w2, evolve (under cur) nowhere w w2 ->
            fs w2 !! src = fs w !! src -> db w2 = db w ->
            _archive_file src st w2 = (w', r) ->
            match r with
            | Raise e =>
                match nd with
                | Dir _ => True
                | File _ => archivable (fs w) (key st) src = false
                end
            | Ok None => False
            | Ok (Some it) =>
                exists file dt, nd = File file /\
                  Calendar.fromtimestamp_utc (f_mtime file) = Some dt /\
                  it = info_of st src dt /\
                  archivable (fs w) (key st) src = true /\
                  db w' = upsert_for st src dt (db w)
            end).
  { intros w2 E2 Es2 Edb2 R.
    destruct (archive_file_inv _ _ _ _ _ Hdeep R) as [_ Hr].
    rewrite (ensure_ok_evolve _ _ _ _ _ E2), Hens in Hr.
    rewrite (archivable_evolve _ _ _ _ _ _ E2 Es2) in Hr. rewrite Es2, Esrc in Hr.
    destruct r as [[it|]|e].
    - destruct Hr as (_ & Ha & file & dt & [= ->] & Hdt & -> & _ & Hdb & _).
      exists file, dt. split_and!; try done. by rewrite Hdb, Edb2.
    - by destruct Hr as (_ & _ & ? & _).
    - destruct Hr as (_ & [?|[_ Ha]]); [done|]. destruct nd; [done|exact Ha]. }
  destruct (newer (fs w) src cur) eqn:Hnew.
  - (* the copy to current is attempted *)
    destruct nd as [m|file].
    { destruct (copy2_raise src cur w1) as [e He]; [by rewrite Es1|].
      rewrite (bind_raise _ _ _ _ _ He) in H. by injection H as <- <-. }
    unfold safe_copy. fold src cur. rewrite Hnew. cbn [andb].
    assert (Hdc : is_dir (fs w1) cur = is_dir (fs w) cur)
      by by apply (evolve_is_dir_filepos E1).
    assert (Hdt : is_dir (fs w1) (cur ++ [incoming_filename st])
                  = is_dir (fs w) (cur ++ [incoming_filename st]))
      by by apply (evolve_is_dir_filepos E1).
    assert (Htgt : copy_target (fs w1) src cur
                   = if is_dir (fs w) cur then cur ++ [incoming_filename st] else cur).
    { unfold copy_target. by rewrite Hdc. }
    destruct (is_dir (fs w) cur && is_dir (fs w) (cur ++ [incoming_filename st])) eqn:Hblock.
    + apply andb_true_iff in Hblock as [Hc Ht]. rewrite Hc in Htgt.
      destruct (copy2_raise src cur w1) as [e He].
      { rewrite Es1. right. by rewrite Htgt, Hdt. }
      rewrite (bind_raise _ _ _ _ _ He) in H. by injection H as <- <-.
    + cbn [negb andb].
      assert (Hnd : is_dir (fs w1) (copy_target (fs w1) src cur) = false).
      { rewrite Htgt. destruct (is_dir (fs w) cur) eqn:Hc; [|by rewrite Hdc].
        rewrite Hdt. exact Hblock. }
      assert (Hpar : is_dir (fs w1) (parent (copy_target (fs w1) src cur)) = true).
      { rewrite Htgt. destruct (is_dir (fs w) cur) eqn:Hc.
        - rewrite parent_snoc. by rewrite Hdc.
        - apply D1. unfold station_dirs, cur, current_dst. by repeat constructor. }
      assert (Hne : src <> copy_target (fs w1) src cur).
      { rewrite Htgt. by destruct (is_dir (fs w) cur). }
      rewrite (bind_ok _ _ _ _ _ (copy2_ok src cur w1 file
                 ltac:(by rewrite Es1) Hne Hnd Hpar)) in H.
      apply Harch in H.
      * destruct r as [[it|]|e]; [|done|done].
        destruct H as (file' & dt & [= <-] & Hdt' & -> & Ha & Hdb).
        split; [done|]. by exists file, dt.
      * etrans; [eapply evolve_mono; [| |exact E1]; by intros ? []|].
        eapply (evolve_copy2 (under cur) nowhere src cur);
          [by exists [] | by eexists [_] | done |].
        by apply (copy2_ok src cur w1 file).
      * simpl. rewrite lookup_insert_ne; [by rewrite Es1|].
        rewrite Htgt. by destruct (is_dir (fs w) cur).
      * done.
  - (* no copy *)
    unfold safe_copy. fold src cur. rewrite Hnew. cbn [andb negb].
    apply Harch in H.
    + destruct r as [[it|]|e]; [|done|].
      * destruct H as (file' & dt & -> & Hdt' & -> & Ha & Hdb).
        split; [done|]. by exists file', dt.
      * by destruct nd.
    + eapply evolve_mono; [| |exact E1]; by intros ? [].
    + congruence.
    + done.
Qed.

(** ** A second pass finds everything settled *)

(** The day of the station's incoming file is in the table. *)
Definition recorded (f : gmap path node) (rows : list row) (st : station_cfg) : Prop :=
  match f !! incoming_src st with
  | Some (File file) =>
      match Calendar.fromtimestamp_utc (f_mtime file) with
      | Some dt => (key st, Calendar.strftime_ymd dt) ∈ unique_key <$> rows
      | None => True
      end
  | _ => True
  end.

(** Nothing is left for station [st] to do about its incoming file. *)
Definition settled (w : world) (st : station_cfg) : Prop :=
  mirror_ok (fs w) st = true /\ promoted (fs w) st = false /\
  recorded (fs w) (db w) st.

(** No file of the backlog of station key [k] can be archived. *)
Definition drained (f : gmap path node) (k : string) : Prop :=
  forall p, is_backlog_png f k p -> archivable f k p = false.

Definition any_archive (p : path) : Prop := exists k, under (ARCHIVE_DIR ++ [k]) p.
Definition any_current (p : path) : Prop := exists k, under (CURRENT_DIR ++ [k]) p.
Definition any_backlog (p : path) : Prop := exists k, backlog_of k p.
Definition any_write (p : path) : Prop := any_archive p \/ any_current p.

Lemma incoming_not_written st : ~ any_write (incoming_src st).
Proof. by intros [[k [q E]]|[k [q E]]]. Qed.

Lemma incoming_not_removed st : ~ any_backlog (incoming_src st).
Proof. by intros [k [n E]]. Qed.

Lemma backlog_not_written k p : backlog_of k p -> ~ any_write p.
Proof. by intros [n ->] [[k' [q E]]|[k' [q E]]]. Qed.

Lemma current_not_removed k r : ~ any_backlog (current_dst k ++ r).
Proof. by intros [k' [n E]]. Qed.

Lemma current_not_archive k r : ~ any_archive (current_dst k ++ r).
Proof. by intros [k' [q E]]. Qed.

Lemma upserts_keys_incl a b x :
  upserts a b -> x ∈ unique_key <$> a -> x ∈ unique_key <$> b.
Proof.
  induction 1 as [|a b img ctry stn d k fp _ IH]; [done|]. intros Hx%IH.
  rewrite upsert_keys. destruct (existsb _ b); [done|]. apply elem_of_app. by left.
Qed.

Section Settled.

Context {W D : path -> Prop} {w w' : world}.
Hypothesis Hev : evolve W D w w'.
Hypothesis HW : forall p, W p -> any_write p.
Hypothesis HD : forall p, D p -> any_backlog p.

Lemma evolve_incoming_same st : fs w' !! incoming_src st = fs w !! incoming_src st.
Proof.
  apply (evolve_untouched Hev); [|
    |done].
  - intros H%HW. by apply (incoming_not_written st).
  - intros H%HD. by apply (incoming_not_removed st).
Qed.

Lemma safe_copy_evolve st : safe_copy (fs w) st = true -> safe_copy (fs w') st = true.
Proof.
  unfold safe_copy. set (cur := current_dst (key st)).
  destruct (is_dir (fs w) cur) eqn:Hc.
  - assert (Ecur : fs w' !! cur = fs w !! cur).
    { unfold is_dir in Hc. destruct (fs w !! cur) as [[m|]|] eqn:E; try done.
      by apply (evolve_keeps_dir Hev). }
    assert (is_dir (fs w') cur = true) as -> by (unfold is_dir in *; by rewrite Ecur).
    unfold newer. rewrite Ecur, evolve_incoming_same.
    by rewrite (evolve_is_dir_filepos Hev (cur ++ _)).
  - intros _. rewrite (evolve_is_dir_filepos Hev cur), Hc by done.
    by rewrite andb_false_r.
Qed.

Lemma mirror_ok_evolve st : mirror_ok (fs w) st = true -> mirror_ok (fs w') st = true.
Proof.
  unfold mirror_ok. rewrite (ensure_ok_evolve _ _ _ _ _ Hev), evolve_incoming_same.
  destruct (ensure_ok (fs w) (key st)); [|done]. cbn [andb].
  destruct (fs w !! incoming_src st) as [[|file]|] eqn:E; try done.
  intros [Hs Ha]%andb_true_iff.
  rewrite (safe_copy_evolve _ Hs).
  rewrite (archivable_evolve _ _ _ _ _ _ Hev); [done|].
  apply evolve_incoming_same.
Qed.

Lemma promoted_evolve st :
  fs w' !! current_dst (key st) = fs w !! current_dst (key st) ->
  promoted (fs w') st = promoted (fs w) st.
Proof.
  intros Hcur. unfold promoted, is_file, newer, is_dir.
  by rewrite (ensure_ok_evolve _ _ _ _ _ Hev), evolve_incoming_same, Hcur.
Qed.

Lemma recorded_evolve st : recorded (fs w) (db w) st -> recorded (fs w') (db w') st.
Proof.
  unfold recorded. rewrite evolve_incoming_same.
  destruct (fs w !! incoming_src st) as [[|file]|]; try done.
  destruct (Calendar.fromtimestamp_utc _); [|done].
  apply upserts_keys_incl, (ev_db _ _ _ _ Hev).
Qed.

Lemma settled_evolve st :
  fs w' !! current_dst (key st) = fs w !! current_dst (key st) ->
  settled w st -> settled w' st.
Proof.
  intros Hcur (H1 & H2 & H3). split_and!.
  - by apply mirror_ok_evolve.
  - by rewrite promoted_evolve.
  - by apply recorded_evolve.
Qed.

Lemma drained_evolve k : drained (fs w) k -> drained (fs w') k.
Proof.
  intros Hd p (n & -> & Hpng & Hf).
  set (p := (OLD_INCOMING_DIR ++ [k]) ++ [n]) in *.
  assert (Hb : backlog_of k p) by by exists n.
  unfold is_file in Hf. destruct (fs w' !! p) as [[|file]|] eqn:E; try done.
  assert (E0 : fs w !! p = Some (File file)).
  { apply (evolve_no_new_file Hev); [|done]. intros H%HW. by eapply backlog_not_written. }
  rewrite (archivable_evolve _ _ _ _ _ _ Hev) by congruence.
  apply Hd. exists n. split_and!; [done..|]. unfold is_file. by rewrite E0.
Qed.

End Settled.

Lemma mirror_evolve_any st w w' r :
  mirror_current_and_archive st w = (w', r) -> evolve any_write nowhere w w'.
Proof.
  intros H. eapply (evolve_mirror any_write nowhere st); [| |exact H].
  - intros p Hp. left. by exists (key st).
  - intros p Hp. right. by exists (key st).
Qed.

Lemma mirror_settles st w w' it :
  mirror_current_and_archive st w = (w', Ok it) -> settled w' st.
Proof.
  intros H. pose proof (mirror_evolve_any _ _ _ _ H) as Hev.
  assert (HW : forall p, any_write p -> any_write p) by done.
  assert (HD : forall p, nowhere p -> any_backlog p) by by intros ? [].
  pose proof (evolve_incoming_same Hev HW HD st) as Hsrc.
  pose proof (mirror_current_after _ _ _ _ H) as Hcur.
  pose proof (mirror_inv _ _ _ _ H) as Hinv.
  assert (Hok : mirror_ok (fs w) st = true) by (destruct it; by destruct Hinv).
  split_and!.
  - by apply (mirror_ok_evolve Hev HW HD).
  - destruct (promoted (fs w) st) eqn:Hp.
    + unfold promoted in Hp |- *.
      apply andb_true_iff in Hp as [[[_ Hf]%andb_true_iff _]%andb_true_iff _].
      unfold is_file in Hf.
      destruct (fs w !! incoming_src st) as [[|file]|] eqn:E; try done.
      unfold newer. rewrite Hcur, Hsrc. cbn [node_mtime].
      assert ((f_mtime file >? f_mtime file) = false) as ->.
      { apply not_true_is_false. intros G%Z.gtb_gt. lia. }
      by rewrite !andb_false_r.
    + by rewrite (promoted_evolve Hev HW HD).
  - unfold recorded. rewrite Hsrc. destruct it as [it|].
    + destruct Hinv as (_ & file & dt & -> & -> & _ & ->).
      unfold upsert_for. rewrite upsert_keys.
      destruct (existsb _ _) eqn:Ex; [by apply existsb_conflicts|].
      apply elem_of_app. right. by apply list_elem_of_singleton.
    + destruct Hinv as (_ & -> & _). done.
Qed.

Lemma mirror_calm st w :
  settled w st ->
  exists w' it,
    mirror_current_and_archive st w = (w', Ok it) /\
    fs w' !! current_dst (key st) = fs w !! current_dst (key st) /\
    unique_key <$> db w' = unique_key <$> db w.
Proof.
  intros (Hok & Hp & Hrec).
  destruct (mirror_current_and_archive st w) as [w' r] eqn:H.
  pose proof (mirror_current_after _ _ _ _ H) as Hcur. rewrite Hp in Hcur.
  pose proof (mirror_inv _ _ _ _ H) as Hinv.
  destruct r as [[it|]|e]; [| |congruence].
  - exists w', (Some it). split_and!; [done..|].
    destruct Hinv as (_ & file & dt & Hf & Hdt & _ & ->).
    unfold recorded in Hrec. rewrite Hf, Hdt in Hrec.
    unfold upsert_for. rewrite upsert_keys.
    by rewrite (proj2 (existsb_conflicts _ _ _) Hrec).
  - exists w', None. destruct Hinv as (_ & _ & ->). by split_and!.
Qed.

Lemma settled_ext w w' st :
  fs w' = fs w -> db w' = db w -> settled w st -> settled w' st.
Proof. unfold settled. by intros -> ->. Qed.

Lemma stations_keys_nodup : NoDup (key <$> STATIONS).
Proof. apply (bool_decide_unpack _). by vm_compute. Qed.

Lemma print_same l w w' r :
  print l w = (w', r) -> fs w' = fs w /\ db w' = db w /\ r = Ok tt.
Proof. by intros [= <- <-]. Qed.

Lemma print_all_same ls w w' r :
  print_all ls w = (w', r) -> fs w' = fs w /\ db w' = db w /\ r = Ok tt.
Proof.
  revert w. induction ls as [|l ls IH]; intros w H; simpl in H.
  - by injection H as <- <-.
  - apply bind_inv in H as [(w1 & [] & H1 & H)|(e & H1 & _)].
    + apply print_same in H1 as (Hf & Hd & _). rewrite <- Hf, <- Hd. by apply IH.
    + by apply print_same in H1 as (_ & _ & ?).
Qed.

Lemma sweep_db_none st pl rows pngs :
  (forall p, p ∈ pngs -> pl p = None) -> sweep_db st pl rows pngs = rows.
Proof.
  induction pngs as [|p pngs IH]; intros H; [done|].
  rewrite sweep_db_cons, (H p) by by left. cbn [from_option].
  apply IH. intros q Hq. apply H. by right.
Qed.

Lemma scan_incoming_settles sts :
  NoDup (key <$> sts) ->
  forall created w w' l,
    scan_incoming sts created w = (w', Ok l) ->
    forall st, st ∈ sts -> settled w' st.
Proof.
  induction sts as [|st sts IH]; intros Hnd created w w' l H st' Hin.
  { by apply elem_of_nil in Hin. }
  rewrite fmap_cons in Hnd. apply NoDup_cons in Hnd as [Hk Hnd].
  cbn [scan_incoming] in H.
  apply bind_inv in H as [(wa & it & Ha & H)|(e & _ & ?)]; [|done].
  apply elem_of_cons in Hin as [->|Hin]; [|by eapply IH].
  pose proof (evolve_scan_incoming
                (fun p => exists s, s ∈ sts /\ writes_of (key s) p) nowhere sts _
                ltac:(by intros s p ? ?; exists s) _ _ _ H) as Hev.
  eapply (settled_evolve Hev); [| |  |by eapply mirror_settles].
  - intros p (s & _ & [Hp|Hp]); [left|right]; by exists (key s).
  - by intros ? [].
  - apply (evolve_untouched Hev); [|by intros []|done].
    intros (s & Hs & Hw). apply Hk. apply list_elem_of_fmap. exists s. split; [|done].
    destruct (decide (key st = key s)) as [|Hne]; [done|].
    by apply current_not_written_by in Hw.
Qed.

Lemma scan_incoming_calm (U sts : list station_cfg) :
  forall created w,
    (forall st, st ∈ U -> settled w st) ->
    (forall st, st ∈ sts -> st ∈ U) ->
    exists w' l,
      scan_incoming sts created w = (w', Ok l) /\
      evolve any_write nowhere w w' /\
      (forall k, fs w' !! current_dst k = fs w !! current_dst k) /\
      unique_key <$> db w' = unique_key <$> db w /\
      (forall st, st ∈ U -> settled w' st).
Proof.
  induction sts as [|st sts IH]; intros created w Hall Hsub.
  { exists w, created. by split_and!. }
  cbn [scan_incoming].
  destruct (mirror_calm st w) as (wa & it & Ha & Hcur & Hkeys); [apply Hall, Hsub; by left|].
  rewrite (bind_ok _ _ _ _ _ Ha).
  pose proof (mirror_evolve_any _ _ _ _ Ha) as Hev.
  assert (Hcura : forall k, fs wa !! current_dst k = fs w !! current_dst k).
  { intros k. destruct (decide (k = key st)) as [->|Hne]; [done|].
    pose proof (evolve_mirror (writes_of (key st)) nowhere st
                  (fun _ Hp => or_introl Hp) (fun _ Hp => or_intror Hp) _ _ _ Ha) as E.
    apply (evolve_untouched E); [by apply current_not_written_by|by intros []|done]. }
  destruct (IH (match it with Some i => created ++ [i] | None => created end) wa)
    as (w' & l & R & E' & Hcur' & Hkeys' & Hall').
  - intros s Hs. eapply (settled_evolve Hev); [done|by intros ? []|apply Hcura|by apply Hall].
  - intros s Hs. apply Hsub. by right.
  - exists w', l. split_and!; [done| | | |done].
    + by etrans.
    + intros k. by rewrite Hcur', Hcura.
    + by rewrite Hkeys', Hkeys.
Qed.

Section Idempotence.

Variable scandir : gmap path node -> path -> list string.

Hypothesis scandir_spec : forall f d,
  NoDup (scandir f d) /\ forall n, n ∈ scandir f d <-> is_Some (f !! (d ++ [n])).

Lemma sweep_evolve_any st w w' r :
  archive_only_from_old_incoming scandir st w = (w', r) ->
  evolve any_archive any_backlog w w'.
Proof.
  intros H. eapply (evolve_archive_only any_archive any_backlog st); [| |exact H].
  - intros p Hp. by exists (key st).
  - intros p Hp. by exists (key st).
Qed.

Lemma archive_only_ok_ensure st w w' l :
  archive_only_from_old_incoming scandir st w = (w', Ok l) ->
  ensure_ok (fs w) (key st) = true.
Proof.
  intros H. destruct (ensure_ok (fs w) (key st)) eqn:Hens; [done|].
  destruct (ensure_dirs_raise _ _ Hens) as (w1 & e & R1 & _).
  unfold archive_only_from_old_incoming in H.
  by rewrite (bind_raise _ _ _ _ _ R1) in H.
Qed.

Lemma sweep_drains st w w' l :
  archive_only_from_old_incoming scandir st w = (w', Ok l) ->
  drained (fs w') (key st).
Proof.
  intros H. pose proof (archive_only_ok_ensure _ _ _ _ H) as Hens.
  destruct (sweep_spec scandir scandir_spec st w Hens)
    as (w'' & pngs & es & R & _ & Hmem & _ & Hev & _ & _ & _ & Hfs).
  assert (w'' = w') as -> by congruence.
  intros p (n & -> & Hpng & Hf).
  set (p := (OLD_INCOMING_DIR ++ [key st]) ++ [n]) in *.
  unfold is_file in Hf. destruct (fs w' !! p) as [[|file]|] eqn:E; try done.
  assert (E0 : fs w !! p = Some (File file)).
  { apply (evolve_no_new_file Hev); [|done].
    apply (backlog_not_under_archive (key st)). by exists n. }
  assert (Hp : p ∈ pngs).
  { apply Hmem. exists n. split_and!; [done..|]. unfold is_file. by rewrite E0. }
  pose proof (Hfs p Hp) as Hfp. rewrite E in Hfp.
  destruct (plan (fs w) (key st) p) eqn:Hpl; [done|].
  rewrite (archivable_evolve _ _ _ _ _ _ Hev) by congruence.
  by apply plan_None.
Qed.

Lemma sweep_calm st w :
  ensure_ok (fs w) (key st) = true -> drained (fs w) (key st) ->
  exists w' l,
    archive_only_from_old_incoming scandir st w = (w', Ok (Some l)) /\ db w' = db w.
Proof.
  intros Hens Hd.
  destruct (sweep_spec scandir scandir_spec st w Hens)
    as (w' & pngs & es & R & _ & Hmem & _ & _ & Hdb & _).
  exists w', (sweep_infos st (plan (fs w) (key st)) pngs). split; [done|].
  rewrite Hdb. apply sweep_db_none. intros p Hp%Hmem.
  unfold plan. by rewrite (Hd p Hp).
Qed.

Lemma scan_old_drains sts :
  forall archived_old w w' l,
    scan_old_incoming scandir sts archived_old w = (w', Ok l) ->
    evolve any_archive any_backlog w w' /\
    forall st, st ∈ sts -> drained (fs w') (key st).
Proof.
  induction sts as [|st sts IH]; intros acc w w' l H.
  { injection H as <- <-. split; [reflexivity|]. by intros st Hst%elem_of_nil. }
  cbn [scan_old_incoming] in H.
  apply bind_inv in H as [(wa & [la|] & Ha & H)|(e & _ & ?)]; [|done|done].
  destruct (IH _ _ _ _ H) as [Hev Hrest].
  pose proof (sweep_evolve_any _ _ _ _ Ha) as Eva. split; [by etrans|].
  intros st' [->|Hin]%elem_of_cons; [|by apply Hrest].
  eapply (drained_evolve Hev); [|by apply sweep_drains in Ha].
  intros p Hp. by left.
Qed.

Lemma scan_old_calm sts :
  forall archived_old w,
    (forall st, st ∈ sts ->
       ensure_ok (fs w) (key st) = true /\ drained (fs w) (key st)) ->
    exists w' l,
      scan_old_incoming scandir sts archived_old w = (w', Ok l) /\
      evolve any_archive any_backlog w w' /\ db w' = db w.
Proof.
  induction sts as [|st sts IH]; intros acc w Hall.
  { exists w, acc. by split_and!. }
  cbn [scan_old_incoming].
  destruct (Hall st) as [Hens Hd]; [by left|].
  destruct (sweep_calm st w Hens Hd) as (wa & la & Ha & Hdb).
  rewrite (bind_ok _ _ _ _ _ Ha).
  pose proof (sweep_evolve_any _ _ _ _ Ha) as Eva.
  destruct (IH (acc ++ la) wa) as (w' & l & R & Ev & Hdb').
  - intros s Hs. destruct (Hall s) as [He Hd']; [by right|]. split.
    + by rewrite (ensure_ok_evolve _ _ _ _ _ Eva).
    + eapply (drained_evolve Eva); [|done]. intros p Hp. by left.
  - exists w', l. split_and!; [done|by etrans|congruence].
Qed.

(** C4: when a scan pass has finished normally and no file is touched
    before the next pass (the clock and the output may differ), the next
    pass finishes normally too, leaves the [current] file of every
    station as it is, and upserts only onto keys that the table already
    has: the table keeps the same (station key, day) pairs and the same
    number of records. *)
Theorem second_scan_changes_nothing w0 w1 :
  scan_cmd scandir w0 = (w1, Ok tt) ->
  forall w1', fs w1' = fs w1 -> db w1' = db w1 ->
  exists w2,
    scan_cmd scandir w1' = (w2, Ok tt) /\
    (forall k, fs w2 !! current_dst k = fs w1 !! current_dst k) /\
    unique_key <$> db w2 = unique_key <$> db w1 /\
    length (db w2) = length (db w1).
Proof.
  intros H w1' Hfs Hdb.
  (* what the first pass leaves *)
  unfold scan_cmd in H.
  apply bind_inv in H as [(wa & created & Ha & H)|(e & _ & ?)]; [|done].
  apply bind_inv in H as [(wb & old & Hb & H)|(e & _ & ?)]; [|done].
  apply bind_inv in H as [(wc & [] & Hc & H)|(e & _ & ?)]; [|done].
  apply bind_inv in H as [(wd & [] & Hd & H)|(e & _ & ?)]; [|done].
  apply print_same in Hc as (Hc1 & Hc2 & _).
  apply print_all_same in Hd as (Hd1 & Hd2 & _).
  apply print_all_same in H as (He1 & He2 & _).
  assert (Ef : fs w1' = fs wb) by congruence.
  assert (Ed : db w1' = db wb) by congruence.
  destruct (scan_old_drains _ _ _ _ _ Hb) as [Evb Hdrained].
  assert (Hset : forall st, st ∈ STATIONS -> settled w1' st).
  { intros st Hst. apply (settled_ext wb); [done..|].
    eapply (settled_evolve Evb); [by intros p Hp; left|done| |].
    - apply (evolve_untouched Evb);
        [apply (current_not_archive _ []) | apply (current_not_removed _ []) | done].
    - by eapply scan_incoming_settles; [apply stations_keys_nodup|..]. }
  (* the second pass *)
  destruct (scan_incoming_calm STATIONS STATIONS [] w1' Hset ltac:(done))
    as (w2a & l2 & R2a & Ev2a & Hcur2 & Hkeys2 & Hset2).
  destruct (scan_old_calm STATIONS [] w2a) as (w2b & o2 & R2b & Ev2b & Hdb2).
  { intros st Hst. split.
    - destruct (Hset2 st Hst) as (Hok & _). unfold mirror_ok in Hok.
      by apply andb_true_iff in Hok as [? _].
    - eapply (drained_evolve Ev2a); [done|]. rewrite Ef. by apply Hdrained. }
  unfold scan_cmd. rewrite (bind_ok _ _ _ _ _ R2a), (bind_ok _ _ _ _ _ R2b).
  unfold bind at 1, print at 1.
  set (w2c := with_out _ w2b).
  destruct (print_all (Created <$> l2) w2c) as [w2d r2d] eqn:P1.
  destruct (print_all_same _ _ _ _ P1) as (Pf1 & Pd1 & ->).
  unfold bind at 1. rewrite P1.
  destruct (print_all (Backfilled <$> o2) w2d) as [w2 r2] eqn:P2.
  destruct (print_all_same _ _ _ _ P2) as (Pf2 & Pd2 & ->).
  exists w2. split; [done|].
  assert (Hk : unique_key <$> db w2 = unique_key <$> db w1).
  { rewrite Pd2, Pd1. unfold w2c. cbn [db with_out]. by rewrite Hdb2, Hkeys2, Hdb. }
  split_and!; [|done|].
  - intros k. rewrite Pf2, Pf1. unfold w2c. cbn [fs with_out].
    rewrite <- Hfs, <- Hcur2.
    apply (evolve_untouched Ev2b);
      [apply (current_not_archive _ []) | apply (current_not_removed _ []) | done].
  - apply (f_equal length) in Hk. by rewrite !length_fmap in Hk.
Qed.

End Idempotence.

(** ** The canonical directory listing *)

Lemma path_split (p : path) : p <> [] -> p = parent p ++ [name p].
Proof. intros Hp. by apply app_removelast_last. Qed.

Lemma name_snoc (d : path) n : name (d ++ [n]) = n.
Proof. apply last_last. Qed.

Lemma listdir_of_list (l : list (path * node)) d :
  NoDup l.*1 ->
  let g := fun pn : path * node =>
             let '(p, _) := pn in
             if decide (parent p = d /\ p <> []) then Some (name p) else None in
  NoDup (omap g l) /\
  forall n, n ∈ omap g l <-> exists x : node, (d ++ [n], x) ∈ l.
Proof.
  intros Hnd g.
  assert (Hmem : forall (l' : list (path * node)) n, n ∈ omap g l' <-> exists x : node, (d ++ [n], x) ∈ l').
  { intros l' n. rewrite list_elem_of_omap. split.
    - intros ([p x] & Hin & Hg). exists x. unfold g in Hg.
      destruct (decide _) as [[Hp Hne]|]; [|done]. injection Hg as <-.
      by rewrite <- Hp, <- path_split.
    - intros (x & Hin). exists (d ++ [n], x). split; [done|]. unfold g.
      rewrite decide_True; [by rewrite name_snoc|].
      split; [apply parent_snoc|by destruct d]. }
  split; [|apply Hmem].
  induction l as [|[p x] l IH]; [constructor|].
  rewrite fmap_cons in Hnd. apply NoDup_cons in Hnd as [Hp Hnd].
  cbn [omap list_omap]. unfold g at 1.
  destruct (decide _) as [[Hpar Hne]|]; [|by apply IH].
  apply NoDup_cons. split; [|by apply IH].
  intros (y & Hin)%Hmem. apply Hp.
  rewrite <- Hpar, <- path_split in Hin by done.
  apply list_elem_of_fmap. by exists (p, y).
Qed.

Lemma listdir_spec f d :
  NoDup (listdir f d) /\ forall n, n ∈ listdir f d <-> is_Some (f !! (d ++ [n])).
Proof.
  destruct (listdir_of_list (map_to_list f) d (NoDup_fst_map_to_list f)) as [Hnd Hmem].
  split; [exact Hnd|]. intros n. unfold listdir. rewrite Hmem. split.
  - intros (x & Hin%elem_of_map_to_list). by exists x.
  - intros [x Hx]. exists x. by apply elem_of_map_to_list.
Qed.

Lemma backlog_forall f k (P : path -> bool) :
  forallb P ((fun n => (OLD_INCOMING_DIR ++ [k]) ++ [n])
               <$> listdir f (OLD_INCOMING_DIR ++ [k])) = true ->
  forall p, is_backlog_png f k p -> P p = true.
Proof.
  intros H p (n & -> & _ & Hf).
  rewrite forallb_forall in H. apply H, list_elem_of_In, list_elem_of_fmap.
  exists n. split; [done|]. apply listdir_spec.
  unfold is_file in Hf. by destruct (f !! _).
Qed.

(** * Worked examples *)

(** The station of the examples. *)
Definition piura : station_cfg :=
  {| key := "simone_piura"; project := "SIMONe"; country := "Peru";
     station := "SIMONe Piura";
     map_embed := "https://www.google.com/maps/d/embed?mid=1ynGhjIEs0zK7nZp6xt1RJE86ALFMGguI";
     incoming_filename := "multilink_overview_simone-peru2.png" |}.

Definition png (t : Z) (bytes : string) : node :=
  File {| f_mtime := t; f_data := bytes |}.

(** The data directory as the module leaves it when it is loaded: the
    four top-level directories and nothing else. *)
Definition bare_fs : gmap path node :=
  list_to_map [ (INCOMING_DIR, Dir 0); (CURRENT_DIR, Dir 0);
                (ARCHIVE_DIR, Dir 0); (OLD_INCOMING_DIR, Dir 0) ].

Definition bare : world := {| fs := bare_fs; db := []; out := []; now := 1709340000 |}.

(** An incoming image of 2024-03-01 23:50:00 UTC and a backlog of three
    images, two of that day and one of the last second of the day
    before. *)
Definition demo_fs : gmap path node :=
  list_to_map [
    (["incoming"; "simone_piura"; "multilink_overview_simone-peru2.png"],
       png 1709337000 "A");
    (["old incoming"; "simone_piura"; "a.png"], png 1709337002 "a");
    (["old incoming"; "simone_piura"; "b.png"], png 1709337001 "b");
    (["old incoming"; "simone_piura"; "c.png"], png 1709251199 "c")
  ] ∪ bare_fs.

Definition demo : world := {| fs := demo_fs; db := []; out := []; now := 1709340000 |}.

(** The same with a backlog file whose modification time lies in the
    year 10000, which [datetime] cannot represent. *)
Definition demo_bad : world :=
  with_fs (<[ ["old incoming"; "simone_piura"; "z.png"] := png 253402300800 "z" ]>
             demo_fs) demo.

(** The same with a newer [current] file and a record of the day that
    names another image, country and station. *)
Definition stale_row : row :=
  {| id := 1; image_name := "old.png"; row_country := "Perú";
     row_station := "Piura (old name)"; date := "2024-03-01";
     station_key := "simone_piura"; file_path := "archive/elsewhere/old.png" |}.

Definition demo_again : world :=
  with_db [stale_row]
    (with_fs (<[ ["current"; "simone_piura"; "latest.png"] := png 1709400000 "L" ]>
                demo_fs) demo).

Definition demo_after : world := (scan_cmd listdir demo).1.

(** The rows of the search examples. *)
Definition demo_rows : list row := [
  {| id := 1; image_name := "p.png"; row_country := "Peru";
     row_station := "SIMONe Piura"; date := "2024-03-01";
     station_key := "simone_piura"; file_path := "archive/simone_piura/2024/03/01/p.png" |};
  {| id := 2; image_name := "g.png"; row_country := "Germany";
     row_station := "MMARIA Germany"; date := "2024-03-01";
     station_key := "mmaria_germany"; file_path := "archive/mmaria_germany/2024/03/01/g.png" |};
  {| id := 3; image_name := "j.png"; row_country := "Peru";
     row_station := "SIMONe Jicamarca"; date := "2024-03-02";
     station_key := "simone_jicamarca";
     file_path := "archive/simone_jicamarca/2024/03/02/j.png" |}
].

(** The filter of the search as the specification words it: a filter
    that is absent or empty matches every record, any other value
    matches the records whose column equals it. *)
Definition matches_as_stated (args : gmap string string) (r : row) : bool :=
  forallb (fun '(k, c) =>
             match args !! k with
             | None => true
             | Some v => bool_decide (v = EmptyString \/ column_of c r = v)
             end)
          [("country", ColCountry); ("station", ColStation); ("date", ColDate)].

Lemma piura_station : piura ∈ STATIONS.
Proof. by repeat constructor. Qed.

Ltac by_run := vm_compute; reflexivity.

Lemma backlog_named f k n :
  Text.is_png n = true -> is_file f ((OLD_INCOMING_DIR ++ [k]) ++ [n]) = true ->
  is_backlog_png f k ((OLD_INCOMING_DIR ++ [k]) ++ [n]).
Proof. intros H1 H2. by exists n. Qed.

Lemma backfill_drains_and_keeps_last_of_each_day_witness :
  ensure_ok (fs demo) (key piura) = true /\
  (forall p, is_backlog_png (fs demo) (key piura) p ->
     archivable (fs demo) (key piura) p = true) /\
  exists w' archived,
    archive_only_from_old_incoming listdir piura demo = (w', Ok (Some archived)) /\
    fs w' !! ["old incoming"; "simone_piura"; "a.png"] = None /\
    fs w' !! ["old incoming"; "simone_piura"; "b.png"] = None /\
    fs w' !! ["old incoming"; "simone_piura"; "c.png"] = None /\
    out w' = out demo /\
    exists r, r ∈ records_for "simone_piura" "2024-03-01" (db w') /\
              image_name r = "a.png".
Proof.
  assert (H1 : ensure_ok (fs demo) (key piura) = true) by by_run.
  assert (H2 : forall p, is_backlog_png (fs demo) (key piura) p ->
                 archivable (fs demo) (key piura) p = true).
  { apply backlog_forall. by_run. }
  split_and!; [exact H1 | exact H2 |].
  pose proof (backfill_drains_and_keeps_last_of_each_day listdir listdir_spec
                piura demo H1 H2) as H.
  cbv zeta in H.
  destruct H as (w' & pngs & archived & R & _ & Hmem & _ & _ & Hgone & _ & _ & Hout & Hday).
  assert (Ha : (OLD_INCOMING_DIR ++ [key piura]) ++ ["a.png"] ∈ pngs).
  { apply (proj2 (Hmem _)). apply backlog_named; by_run. }
  assert (Hb : (OLD_INCOMING_DIR ++ [key piura]) ++ ["b.png"] ∈ pngs).
  { apply (proj2 (Hmem _)). apply backlog_named; by_run. }
  assert (Hc : (OLD_INCOMING_DIR ++ [key piura]) ++ ["c.png"] ∈ pngs).
  { apply (proj2 (Hmem _)). apply backlog_named; by_run. }
  exists w', archived. split_and!; [exact R| | | |exact Hout|].
  - apply (Hgone _ Ha).
  - apply (Hgone _ Hb).
  - apply (Hgone _ Hc).
  - destruct (Hday _ (2024, 3, 1) Hb ltac:(by_run))
      as (q & dtq & Hq & _ & _ & Hmax & [r Hr] & Hrec).
    exists r. split; [exact Hr|].
    destruct (Hrec r Hr) as (-> & _).
    pose proof (Hmax _ (2024, 3, 1) Ha ltac:(by_run) ltac:(by_run)) as Hle.
    apply (proj1 (Hmem _)) in Hq.
    apply (backlog_forall (fs demo) (key piura)
             (fun p => bool_decide (mtime_of (fs demo)
                          ["old incoming"; "simone_piura"; "a.png"] <= mtime_of (fs demo) p
                        -> name p = "a.png"))) in Hq; [|by_run].
    apply bool_decide_eq_true in Hq. exact (Hq Hle).
Defined.

Lemma one_record_per_station_day_witness :
  reachable listdir demo_after /\
  db demo_after <> [] /\
  (length (records_for "simone_piura" "2024-03-01" (db demo_after)) <= 1)%nat.
Proof.
  assert (H : reachable listdir demo_after).
  { apply (reach_scan listdir demo _ (scan_cmd listdir demo).2); [by apply reach_init|].
    unfold demo_after. by destruct (scan_cmd listdir demo). }
  split_and!; [exact H | by vm_compute |].
  exact (one_record_per_station_day listdir _ _ _ H).
Defined.

Lemma run_eq {A} (c : M A) w a : (c w).2 = Ok a -> c w = ((c w).1, Ok a).
Proof. destruct (c w) as [w' r]. simpl. by intros ->. Qed.

Lemma mirror_copies_iff_newer_and_never_regresses_witness :
  (* a fresh station: no current file, the incoming file is promoted *)
  newer (fs demo) (incoming_src piura) (current_dst (key piura)) = true /\
  fs (mirror_current_and_archive piura demo).1 !! current_dst (key piura)
    = Some (png 1709337000 "A") /\
  (* a current file that is newer than the incoming one stays *)
  newer (fs demo_again) (incoming_src piura) (current_dst (key piura)) = false /\
  fs (mirror_current_and_archive piura demo_again).1 !! current_dst (key piura)
    = Some (png 1709400000 "L") /\
  current_monotone (key piura) demo_again (scan_cmd listdir demo_again).1.
Proof.
  pose proof (mirror_copies_iff_newer_and_never_regresses piura demo) as H.
  pose proof (mirror_copies_iff_newer_and_never_regresses piura demo_again) as H'.
  cbv zeta in H, H'.
  destruct H as (_ & Hcopy & _). destruct H' as (_ & _ & Hkeep & _ & Hscan).
  assert (N : newer (fs demo) (incoming_src piura) (current_dst (key piura)) = true)
    by by_run.
  split_and!; [exact N | | by_run | |].
  - destruct (Hcopy {| f_mtime := 1709337000; f_data := "A" |}
                (mirror_current_and_archive piura demo).1
                (mirror_current_and_archive piura demo).2) as [Hnew _];
      [by_run | by_run | by_run | apply surjective_pairing |].
    exact (Hnew N).
  - apply (Hkeep {| f_mtime := 1709337000; f_data := "A" |}
                 {| f_mtime := 1709400000; f_data := "L" |}
                 _ (mirror_current_and_archive piura demo_again).2);
      [by_run | by_run | simpl; lia | apply surjective_pairing].
  - apply (Hscan listdir _ _ (scan_cmd listdir demo_again).2), surjective_pairing.
Defined.

Lemma second_scan_changes_nothing_witness :
  scan_cmd listdir demo = (demo_after, Ok tt) /\
  exists w2,
    scan_cmd listdir demo_after = (w2, Ok tt) /\
    fs w2 !! current_dst "simone_piura" = Some (png 1709337000 "A") /\
    length (db w2) = 2%nat.
Proof.
  assert (H : scan_cmd listdir demo = (demo_after, Ok tt)).
  { unfold demo_after. exact (run_eq (scan_cmd listdir) demo tt ltac:(by_run)). }
  split; [exact H|].
  destruct (second_scan_changes_nothing listdir listdir_spec demo demo_after H
              demo_after eq_refl eq_refl) as (w2 & R & Hcur & _ & Hlen).
  exists w2. split_and!; [exact R | | ].
  - rewrite Hcur. by_run.
  - rewrite Hlen. by_run.
Defined.



Lemma sweep_keeps_failed_files_and_goes_on_witness :
  ensure_ok (fs demo_bad) (key piura) = true /\
  exists w',
    (exists l, archive_only_from_old_incoming listdir piura demo_bad
               = (w', Ok (Some l)) /\ length l = 3%nat) /\
    (* the file that cannot be archived stays, with a warning *)
    fs w' !! ["old incoming"; "simone_piura"; "z.png"] = Some (png 253402300800 "z") /\
    (exists e, Warn ["old incoming"; "simone_piura"; "z.png"] e ∈ out w') /\
    (* the others are gone *)
    fs w' !! ["old incoming"; "simone_piura"; "a.png"] = None.
Proof.
  assert (H1 : ensure_ok (fs demo_bad) (key piura) = true) by by_run.
  split; [exact H1|].
  pose proof (sweep_keeps_failed_files_and_goes_on listdir listdir_spec piura demo_bad H1)
    as H.
  cbv zeta in H. destruct H as (w' & pngs & es & R & _ & Hmem & _ & Hfile & _).
  assert (Hz : (OLD_INCOMING_DIR ++ [key piura]) ++ ["z.png"] ∈ pngs).
  { apply (proj2 (Hmem _)). apply backlog_named; by_run. }
  assert (Ha : (OLD_INCOMING_DIR ++ [key piura]) ++ ["a.png"] ∈ pngs).
  { apply (proj2 (Hmem _)). apply backlog_named; by_run. }
  pose proof (Hfile _ Hz) as Fz. pose proof (Hfile _ Ha) as Fa.
  assert (Ez : plan (fs demo_bad) (key piura)
                 ((OLD_INCOMING_DIR ++ [key piura]) ++ ["z.png"]) = None) by by_run.
  assert (Ea : plan (fs demo_bad) (key piura)
                 ((OLD_INCOMING_DIR ++ [key piura]) ++ ["a.png"]) = Some (2024, 3, 1))
    by by_run.
  rewrite Ez in Fz. rewrite Ea in Fa.
  destruct Fz as (_ & Fz & Wz). destruct Fa as (_ & Fa & _).
  exists w'. split_and!.
  - eexists. split; [exact R|].
    assert (L : match (archive_only_from_old_incoming listdir piura demo_bad).2 with
                | Ok (Some l) => length l
                | _ => 0%nat
                end = 3%nat) by by_run.
    rewrite R in L. exact L.
  - etrans; [exact Fz | by_run].
  - exact Wz.
  - exact Fa.
Defined.


(** C8, as stated: a filter value with blanks around it is a supplied,
    non-empty filter, so by exact equality it should select the records
    whose column is that very string, here none; the search strips the
    value first and returns the records of Peru, and for a filter of
    blanks only it returns every record. *)
Lemma search_strips_filters_counterexample :
  List.filter (matches_as_stated {["country" := " Peru"]}) demo_rows = [] /\
  res_image_name <$> search {["country" := " Peru"]} (with_db demo_rows bare)
    = ["j.png"; "p.png"] /\
  List.filter (matches_as_stated {["station" := "  "]}) demo_rows = [] /\
  res_image_name <$> search {["station" := "  "]} (with_db demo_rows bare)
    = ["j.png"; "g.png"; "p.png"].
Proof. split_and!; by_run. Qed.


(** * Further properties *)

(** ** The pages *)

Lemma find_station_spec k :
  match find_station k with
  | Some row => row ∈ STATIONS /\ key row = k
  | None => k ∉ key <$> STATIONS
  end.
Proof.
  unfold find_station. destruct (find _ STATIONS) as [row|] eqn:E.
  - apply find_some in E as [Hin Hk]. split; [by apply list_elem_of_In|].
    by apply bool_decide_eq_true in Hk.
  - intros (row & Hk & Hin)%list_elem_of_fmap.
    apply list_elem_of_In in Hin.
    apply (find_none _ _ E), bool_decide_eq_false in Hin. done.
Qed.

Lemma station_of_key (a b : station_cfg) :
  a ∈ STATIONS -> b ∈ STATIONS -> key a = key b -> a = b.
Proof.
  intros Ha Hb Hk.
  apply list_elem_of_lookup in Ha as [i Hi]. apply list_elem_of_lookup in Hb as [j Hj].
  assert (i = j) as ->; [|congruence].
  apply (NoDup_lookup (key <$> STATIONS) i j (key a)); [apply stations_keys_nodup|..].
  - by rewrite list_lookup_fmap, Hi.
  - by rewrite list_lookup_fmap, Hj, Hk.
Qed.

(** X1: the station page is rendered for exactly the keys of [STATIONS],
    with the one entry of that key and the same select options as the
    index; any other key gets the answer 404 "Unknown station". *)
Theorem station_view_serves_exactly_the_configured_keys k :
  (k ∈ key <$> STATIONS ->
     exists row,
       station_view k = Rendered (StationPage row countries stations) /\
       row ∈ STATIONS /\ key row = k /\
       forall row', row' ∈ STATIONS -> key row' = k -> row' = row) /\
  (k ∉ key <$> STATIONS -> station_view k = Status "Unknown station" 404).
Proof.
  pose proof (find_station_spec k) as H. unfold station_view.
  destruct (find_station k) as [row|]; split; try done.
  - intros _. destruct H as [Hin Hk]. exists row. split_and!; [done..|].
    intros row' Hin' Hk'. apply station_of_key; congruence.
  - destruct H as [Hin Hk]. intros []. apply list_elem_of_fmap. by exists row.
Qed.

Lemma station_view_serves_exactly_the_configured_keys_witness :
  station_view "simone_piura" = Rendered (StationPage piura countries stations) /\
  station_view "simone_lima" = Status "Unknown station" 404 /\
  station_view "SIMONE_PIURA" = Status "Unknown station" 404.
Proof.
  destruct (station_view_serves_exactly_the_configured_keys "simone_piura") as [H _].
  destruct H as (row & R & Hin & Hk & Hone).
  { apply list_elem_of_fmap. exists piura. split; [reflexivity | apply piura_station]. }
  rewrite <- (Hone piura piura_station eq_refl) in R.
  split_and!; [exact R | |].
  - apply (station_view_serves_exactly_the_configured_keys "simone_lima").
    apply (bool_decide_unpack _). by_run.
  - apply (station_view_serves_exactly_the_configured_keys "SIMONE_PIURA").
    apply (bool_decide_unpack _). by_run.
Defined.

Lemma string_leb_total a b : String.leb a b = false -> String.leb b a = true.
Proof.
  unfold String.leb. rewrite (String.compare_antisym b a).
  by destruct (String.compare a b).
Qed.

Lemma string_leb_lt a b : String.leb a b = true -> a <> b -> String.compare a b = Lt.
Proof.
  unfold String.leb. destruct (String.compare a b) eqn:E; try done.
  apply String.compare_eq_iff in E. done.
Qed.

Lemma elem_of_sorted_set l x : x ∈ sorted_set l <-> x ∈ l.
Proof.
  unfold sorted_set. rewrite (sorted_perm String.leb (remove_dups l)).
  apply elem_of_remove_dups.
Qed.

(** X2: the select options of the search form, built on every page as
    [sorted({...})]: the list is strictly ascending (so it has no
    duplicates), it holds exactly the values of the field, and neither
    the order nor the multiplicity of the entries of [STATIONS] matters.
    For the configured stations these are five countries and seven
    stations. *)
Theorem select_options_are_sorted_and_distinct :
  (forall l, StronglySorted (fun a b => String.compare a b = Lt) (sorted_set l)) /\
  (forall l x, x ∈ sorted_set l <-> x ∈ l) /\
  (forall l l', (forall x, x ∈ l <-> x ∈ l') -> sorted_set l = sorted_set l') /\
  countries = ["Argentina"; "Germany"; "Norway"; "Peru"; "USA"] /\
  stations = ["MMARIA Germany"; "MMARIA Scandinavia"; "SIMONe Argentina";
              "SIMONe Haystack"; "SIMONe Jicamarca"; "SIMONe New Mexico";
              "SIMONe Piura"].
Proof.
  pose proof elem_of_sorted_set as Hmem.
  assert (Hsort : forall l, StronglySorted (fun a b => String.compare a b = Lt)
                              (sorted_set l)).
  { intros l. unfold sorted_set.
    pose proof (sorted_strongly String.leb string_leb_total string_leb_trans
                  (remove_dups l)) as Hs.
    assert (Hnd : NoDup (sorted String.leb (remove_dups l))).
    { rewrite (sorted_perm String.leb (remove_dups l)). apply NoDup_remove_dups. }
    induction Hs as [|a t Hs IH Ha]; [constructor|].
    apply NoDup_cons in Hnd as [Hnotin Hnd]. constructor; [by apply IH|].
    rewrite Forall_forall in Ha |- *. intros b Hb.
    apply string_leb_lt; [by apply Ha|]. by intros ->. }
  split_and!; [exact Hsort | exact Hmem | | by_run | by_run].
  intros l l' Hll'.
  assert (Hsame : forall x, x ∈ sorted_set l <-> x ∈ sorted_set l').
  { intros x. by rewrite !Hmem. }
  pose proof (Hsort l) as S1. pose proof (Hsort l') as S2.
  revert Hsame S1 S2. generalize (sorted_set l) (sorted_set l'). clear.
  intros l1. induction l1 as [|a l1 IH]; intros [|b l2] Hsame S1 S2; [done| | |].
  - exfalso. apply (not_elem_of_nil b), Hsame. by left.
  - exfalso. apply (not_elem_of_nil a), Hsame. by left.
  - apply StronglySorted_inv in S1 as [S1 Ha]. apply StronglySorted_inv in S2 as [S2 Hb].
    rewrite Forall_forall in Ha, Hb.
    assert (Hirr : forall s, String.compare s s <> Lt).
    { intros s. by rewrite string_compare_refl. }
    assert (a = b) as ->.
    { assert (Ha' : a ∈ b :: l2) by (apply Hsame; by left).
      assert (Hb' : b ∈ a :: l1) by (apply Hsame; by left).
      apply elem_of_cons in Ha' as [->|Ha']; [done|].
      apply elem_of_cons in Hb' as [->|Hb']; [done|].
      pose proof (Ha b Hb') as L1. pose proof (Hb a Ha') as L2.
      rewrite String.compare_antisym, L1 in L2. done. }
    f_equal. apply IH; [|done..].
    intros x. split; intros Hx.
    + assert (Hx' : x ∈ b :: l2) by (apply Hsame; by right).
      apply elem_of_cons in Hx' as [->|Hx']; [|done].
      by apply Ha, Hirr in Hx.
    + assert (Hx' : x ∈ b :: l1) by (apply Hsame; by right).
      apply elem_of_cons in Hx' as [->|Hx']; [|done].
      by apply Hb, Hirr in Hx.
Qed.

(** ** Serving files *)

Lemma replace_char_append a b s t :
  replace_char a b (s +:+ t) = replace_char a b s +:+ replace_char a b t.
Proof.
  induction s as [|c s IH]; [done|].
  rewrite append_String. cbn [replace_char]. by rewrite IH, append_String.
Qed.

Lemma data_file_norm_join parts :
  data_file_norm (Text.join_posix parts) = Text.join_posix (data_file_norm <$> parts).
Proof.
  unfold data_file_norm. induction parts as [|p [|q parts] IH]; [done..|].
  change (Text.join_posix (p :: q :: parts))
    with (p +:+ "/" +:+ Text.join_posix (q :: parts)).
  rewrite !replace_char_append, IH. reflexivity.
Qed.

Lemma digit_not_backslash n : Ascii.eqb (Calendar.digit n) backslash = false.
Proof.
  unfold Calendar.digit.
  assert (H : (Z.to_nat (n mod 10) < 10)%nat).
  { pose proof (Z.mod_pos_bound n 10). lia. }
  generalize dependent (Z.to_nat (n mod 10)). intros k H.
  do 10 (destruct k as [|k]; [reflexivity|]). lia.
Qed.

Lemma data_file_norm_pad2 n : data_file_norm (Calendar.pad2 n) = Calendar.pad2 n.
Proof.
  unfold data_file_norm, Calendar.pad2. cbn [replace_char].
  by rewrite !digit_not_backslash.
Qed.

Lemma data_file_norm_pad4 n : data_file_norm (Calendar.pad4 n) = Calendar.pad4 n.
Proof.
  unfold Calendar.pad4. unfold data_file_norm at 1. cbn [replace_char].
  rewrite !digit_not_backslash. fold (data_file_norm (Calendar.pad2 n)).
  by rewrite data_file_norm_pad2.
Qed.

(** X3: [data_file] turns every backslash of the requested path into a
    slash and changes nothing else; doing it twice is doing it once.
    The paths that the archive writer stores in the catalogue and
    returns, and the image address that the templates build for a
    station, are left as they are when the station key and the file
    name hold no backslash, which is so for every entry of [STATIONS];
    and the address of the templates is the place where the mirror puts
    the current image. *)
Theorem data_file_serves_the_stored_paths :
  (forall p i, String.get i (data_file_norm p) =
               (fun c => if Ascii.eqb c backslash then "/"%char else c) <$> String.get i p) /\
  (forall p, String.length (data_file_norm p) = String.length p) /\
  (forall p, data_file_norm (data_file_norm p) = data_file_norm p) /\
  (forall st src dt,
     data_file_norm (key st) = key st -> data_file_norm (name src) = name src ->
     data_file_norm (i_archive (info_of st src dt)) = i_archive (info_of st src dt)) /\
  (forall k, current_rel k = Text.join_posix (current_dst k)) /\
  (forall k, data_file_norm k = k -> data_file_norm (current_rel k) = current_rel k) /\
  (forall st, st ∈ STATIONS ->
     data_file_norm (key st) = key st /\
     data_file_norm (incoming_filename st) = incoming_filename st).
Proof.
  split_and!.
  - unfold data_file_norm. induction p as [|c p IH]; intros i; [done|].
    destruct i as [|i]; [done|]. apply IH.
  - unfold data_file_norm. induction p as [|c p IH]; [done|].
    cbn [replace_char String.length]. by rewrite IH.
  - unfold data_file_norm. induction p as [|c p IH]; [done|].
    cbn [replace_char]. rewrite IH. f_equal.
    destruct (Ascii.eqb c backslash) eqn:E; [reflexivity | by rewrite E].
  - intros st src [[y m] d] Hk Hn. cbn [info_of i_archive archive_dir].
    rewrite data_file_norm_join. f_equal.
    unfold ARCHIVE_DIR. cbn [app fmap list_fmap].
    by rewrite Hk, Hn, data_file_norm_pad4, !data_file_norm_pad2.
  - intros k. reflexivity.
  - intros k Hk. unfold current_rel, data_file_norm.
    rewrite !replace_char_append. fold (data_file_norm k). by rewrite Hk.
  - apply Forall_forall. by repeat constructor.
Qed.

(** ** Text *)

(** The character [c] occurs in [s]. *)
Fixpoint has_char (c : ascii) (s : string) : bool :=
  match s with
  | EmptyString => false
  | String c' s' => Ascii.eqb c' c || has_char c s'
  end.

(** [s] does not begin with a blank. *)
Definition no_lead (s : string) : Prop :=
  match s with
  | EmptyString => True
  | String c _ => Text.is_space c = false
  end.

Lemma split_on_no_sep sep s p : p ∈ Text.split_on sep s -> has_char sep p = false.
Proof.
  revert p. induction s as [|c s IH]; intros p Hp; cbn [Text.split_on] in Hp.
  - apply list_elem_of_singleton in Hp as ->. reflexivity.
  - destruct (Ascii.eqb c sep) eqn:E.
    + apply elem_of_cons in Hp as [->|Hp]; [reflexivity | by apply IH].
    + destruct (Text.split_on sep s) as [|w ws].
      * apply list_elem_of_singleton in Hp as ->. cbn [has_char]. by rewrite E.
      * apply elem_of_cons in Hp as [->|Hp].
        -- cbn [has_char]. rewrite E. apply IH. by left.
        -- apply IH. by right.
Qed.

Lemma lstrip_has_char c s : has_char c (Text.lstrip s) = true -> has_char c s = true.
Proof.
  induction s as [|a s IH]; [done|]. cbn [Text.lstrip].
  destruct (Text.is_space a); [|done].
  intros H%IH. cbn [has_char]. rewrite H. apply orb_true_r.
Qed.

Lemma rstrip_has_char c s : has_char c (Text.rstrip s) = true -> has_char c s = true.
Proof.
  induction s as [|a s IH]; [done|]. cbn [Text.rstrip has_char].
  destruct (Text.rstrip s) as [|b t].
  - destruct (Text.is_space a); [done|]. cbn [has_char]. rewrite orb_false_r.
    intros ->. reflexivity.
  - cbn [has_char] in *. destruct (Ascii.eqb a c); [done|]. cbn [orb]. apply IH.
Qed.

Lemma lstrip_no_lead s : no_lead (Text.lstrip s).
Proof.
  induction s as [|a s IH]; [done|]. cbn [Text.lstrip].
  by destruct (Text.is_space a) eqn:E.
Qed.

Lemma lstrip_id s : no_lead s -> Text.lstrip s = s.
Proof. destruct s as [|a s]; [done|]. cbn [no_lead Text.lstrip]. by intros ->. Qed.

Lemma rstrip_no_lead s : no_lead s -> no_lead (Text.rstrip s).
Proof.
  destruct s as [|a s]; [done|]. cbn [no_lead Text.rstrip]. intros H.
  destruct (Text.rstrip s); [by rewrite H | done].
Qed.

Lemma rstrip_idem s : Text.rstrip (Text.rstrip s) = Text.rstrip s.
Proof.
  induction s as [|a s IH]; [done|]. cbn [Text.rstrip].
  destruct (Text.rstrip s) as [|b t] eqn:E.
  - destruct (Text.is_space a) eqn:Ea; [done|]. cbn [Text.rstrip]. by rewrite Ea.
  - change (Text.rstrip (String a (String b t)))
      with (match Text.rstrip (String b t) with
            | EmptyString => if Text.is_space a then EmptyString else String a EmptyString
            | u => String a u
            end).
    by rewrite IH.
Qed.

Lemma strip_idem s : Text.strip (Text.strip s) = Text.strip s.
Proof.
  unfold Text.strip.
  rewrite (lstrip_id (Text.rstrip (Text.lstrip s)))
    by apply rstrip_no_lead, lstrip_no_lead.
  apply rstrip_idem.
Qed.

Lemma strip_has_char c s : has_char c (Text.strip s) = true -> has_char c s = true.
Proof. intros H. by apply lstrip_has_char, rstrip_has_char. Qed.

(** ** Creating the schema *)

(** X4: whatever the schema text, [init-db] executes only pieces that
    are not empty, carry no blank at either end and hold no [;]: a
    piece that is blank, as the one after the last [;], is skipped.
    For [SCHEMA_SQL] these are four statements, one [CREATE TABLE IF
    NOT EXISTS] and three [CREATE INDEX IF NOT EXISTS], so that running
    the command again creates nothing anew. *)
Theorem init_db_runs_four_guarded_statements :
  (forall sql s, s ∈ schema_statements sql ->
     s <> EmptyString /\ Text.strip s = s /\ has_char ";" s = false) /\
  String.substring 0 27 <$> schema_statements SCHEMA_SQL =
    ["CREATE TABLE IF NOT EXISTS "; "CREATE INDEX IF NOT EXISTS ";
     "CREATE INDEX IF NOT EXISTS "; "CREATE INDEX IF NOT EXISTS "] /\
  length (Text.split_on ";" (Text.strip SCHEMA_SQL)) = 5%nat.
Proof.
  split_and!; [|by_run..].
  intros sql s Hs. unfold schema_statements in Hs.
  apply list_elem_of_In, filter_In in Hs as [Hs Hne].
  apply list_elem_of_In, list_elem_of_fmap in Hs as (p & -> & Hp).
  split_and!.
  - intros E. by rewrite E in Hne.
  - apply strip_idem.
  - destruct (has_char ";" (Text.strip p)) eqn:E; [|done].
    apply strip_has_char in E. by rewrite (split_on_no_sep _ _ _ Hp) in E.
Qed.

(** ** The order of the sweep *)

Lemma insert_sorted_filter {A} (f : A -> Z) v x l :
  List.filter (fun a => f a =? v) (insert_sorted (fun a b => f a <=? f b) x l) =
  if f x =? v then x :: List.filter (fun a => f a =? v) l
  else List.filter (fun a => f a =? v) l.
Proof.
  induction l as [|y l IH]; cbn [insert_sorted List.filter]; [done|].
  destruct (f x <=? f y) eqn:E; cbn [List.filter]; [done|].
  rewrite IH. destruct (f x =? v) eqn:Ex; [|done].
  assert ((f y =? v) = false) as -> by lia. done.
Qed.

Lemma sorted_filter {A} (f : A -> Z) v l :
  List.filter (fun a => f a =? v) (sorted (fun a b => f a <=? f b) l) =
  List.filter (fun a => f a =? v) l.
Proof.
  induction l as [|x l IH]; [done|]. unfold sorted in *. cbn [foldr List.filter].
  rewrite insert_sorted_filter, IH. done.
Qed.

(** X5: the sort of the sweep, [sorted(..., key=lambda p:
    p.stat().st_mtime)], changes nothing in the world and returns the
    same files in ascending order of modification time, and it is
    stable: files with the same modification time stay in the order in
    which the directory listing gave them. *)
Theorem sweep_sort_is_stable ps w :
  (forall p, p ∈ ps -> is_Some (fs w !! p)) ->
  exists l,
    sorted_by_mtime ps w = (w, Ok l) /\ l ≡ₚ ps /\
    StronglySorted (fun p q => mtime_of (fs w) p <= mtime_of (fs w) q) l /\
    forall t, List.filter (fun p => mtime_of (fs w) p =? t) l =
              List.filter (fun p => mtime_of (fs w) p =? t) ps.
Proof.
  intros H. eexists. split; [by apply sorted_by_mtime_eq|]. split_and!.
  - apply sorted_perm.
  - eapply StronglySorted_on;
      [|apply (sorted_strongly (fun p q => mtime_of (fs w) p <=? mtime_of (fs w) q))].
    + intros x y _ _ Hxy. by apply Z.leb_le in Hxy.
    + intros x y Hxy. apply Z.leb_le. apply Z.leb_gt in Hxy. lia.
    + intros x y z Hxy Hyz. apply Z.leb_le. apply Z.leb_le in Hxy, Hyz. lia.
  - intros t. apply (sorted_filter (mtime_of (fs w))).
Qed.

Lemma sweep_sort_is_stable_witness :
  sorted_by_mtime [ ["old incoming"; "simone_piura"; "a.png"];
                    ["old incoming"; "simone_piura"; "c.png"];
                    ["old incoming"; "simone_piura"; "b.png"] ] demo
  = (demo, Ok [ ["old incoming"; "simone_piura"; "c.png"];
                ["old incoming"; "simone_piura"; "b.png"];
                ["old incoming"; "simone_piura"; "a.png"] ]).
Proof.
  destruct (sweep_sort_is_stable
              [ ["old incoming"; "simone_piura"; "a.png"];
                ["old incoming"; "simone_piura"; "c.png"];
                ["old incoming"; "simone_piura"; "b.png"] ] demo) as (l & R & _).
  { intros p Hp.
    repeat (apply elem_of_cons in Hp as [->|Hp]; [apply (bool_decide_unpack _); by_run|]).
    exfalso. by apply elem_of_nil in Hp. }
  rewrite R. f_equal.
  assert (E : (sorted_by_mtime [ ["old incoming"; "simone_piura"; "a.png"];
                    ["old incoming"; "simone_piura"; "c.png"];
                    ["old incoming"; "simone_piura"; "b.png"] ] demo).2
              = Ok [ ["old incoming"; "simone_piura"; "c.png"];
                ["old incoming"; "simone_piura"; "b.png"];
                ["old incoming"; "simone_piura"; "a.png"] ]) by by_run.
  rewrite R in E. exact E.
Defined.

(** ** The upsert *)

Lemma next_id_fresh rows : next_id rows ∉ id <$> rows.
Proof.
  unfold next_id.
  assert (H : forall x, x ∈ id <$> rows -> (x <= foldr Nat.max 0 (id <$> rows))%nat).
  { generalize (id <$> rows). intros l. induction l as [|y l IH]; intros x Hx.
    - by apply elem_of_nil in Hx.
    - cbn [foldr]. apply elem_of_cons in Hx as [->|Hx]; [lia|].
      specialize (IH x Hx). lia. }
  intros Hin%H. lia.
Qed.

(** X6: the upsert changes the table in place.  The identifiers and the
    (station key, day) pairs of the rows that were there stay, in the
    same order, and at most one row is added, at the end, with an
    identifier that no row had; rows of other keys or days are not
    touched; afterwards every row of the key and day carries the new
    image name, country, station and file path; and upserting the same
    values again changes nothing. *)
Theorem upsert_updates_in_place img c s d k fp rows :
  let rows' := upsert img c s d k fp rows in
  (id <$> rows) `prefix_of` (id <$> rows') /\
  (unique_key <$> rows) `prefix_of` (unique_key <$> rows') /\
  (length rows' <= S (length rows))%nat /\
  (forall r, r ∈ rows -> unique_key r <> (k, d) -> r ∈ rows') /\
  (exists r', r' ∈ rows' /\ unique_key r' = (k, d)) /\
  (forall r', r' ∈ rows' -> unique_key r' = (k, d) ->
     image_name r' = img /\ row_country r' = c /\ row_station r' = s /\
     file_path r' = fp) /\
  (NoDup (id <$> rows) -> NoDup (id <$> rows')) /\
  upsert img c s d k fp rows' = rows'.
Proof.
  cbv zeta. unfold upsert.
  set (upd := fun r => if conflicts k d r
                 then {| id := id r; image_name := img; row_country := c;
                         row_station := s; date := date r;
                         station_key := station_key r; file_path := fp |}
                 else r).
  set (new := {| id := next_id rows; image_name := img; row_country := c;
                 row_station := s; date := d; station_key := k; file_path := fp |}).
  assert (Hid : forall r, id (upd r) = id r) by (intros r; unfold upd; by destruct (conflicts k d r)).
  assert (Hkey : forall r, unique_key (upd r) = unique_key r)
    by (intros r; unfold upd; by destruct (conflicts k d r)).
  assert (Hupd : forall r, upd (upd r) = upd r).
  { intros r. unfold upd. destruct (conflicts k d r) eqn:E; [|by rewrite E].
    unfold conflicts in *. cbn. by rewrite E. }
  assert (Eid : id <$> (upd <$> rows) = id <$> rows).
  { rewrite <- list_fmap_compose. apply list_fmap_ext. intros i r _. apply Hid. }
  assert (Ekey : unique_key <$> (upd <$> rows) = unique_key <$> rows).
  { rewrite <- list_fmap_compose. apply list_fmap_ext. intros i r _. apply Hkey. }
  destruct (existsb (conflicts k d) rows) eqn:Ex.
  - assert (Ex' : existsb (conflicts k d) (upd <$> rows) = true).
    { apply existsb_conflicts. rewrite Ekey. by apply existsb_conflicts. }
    rewrite Ex', Eid, Ekey. split_and!.
    + done.
    + done.
    + rewrite length_fmap. lia.
    + intros r Hr Hne. apply list_elem_of_fmap. exists r. split; [|done].
      unfold upd. destruct (conflicts k d r) eqn:E; [|done].
      by apply conflicts_spec in E.
    + apply existsb_conflicts in Ex'. rewrite Ekey in Ex'.
      apply list_elem_of_fmap in Ex' as (r & E & Hr).
      exists (upd r). split; [apply list_elem_of_fmap; by exists r | by rewrite Hkey].
    + intros r' (r & -> & Hr)%list_elem_of_fmap Hk. rewrite Hkey in Hk.
      apply conflicts_spec in Hk. unfold upd. by rewrite Hk.
    + done.
    + rewrite <- list_fmap_compose. apply list_fmap_ext. intros i r _. apply Hupd.
  - assert (Hnone : forall r, r ∈ rows -> conflicts k d r = false).
    { intros r Hr. destruct (conflicts k d r) eqn:E; [|done].
      assert (existsb (conflicts k d) rows = true); [|congruence].
      apply existsb_exists. exists r. split; [by apply list_elem_of_In|done]. }
    assert (Hnew : conflicts k d new = true) by (by apply conflicts_spec).
    assert (Ex' : existsb (conflicts k d) (rows ++ [new]) = true).
    { rewrite existsb_app. cbn [existsb]. rewrite Hnew. by rewrite orb_true_r. }
    rewrite Ex'. split_and!.
    + rewrite fmap_app. by apply prefix_app_r.
    + rewrite fmap_app. by apply prefix_app_r.
    + rewrite length_app. simpl. lia.
    + intros r Hr _. apply elem_of_app. by left.
    + exists new. split; [apply elem_of_app; right; by left | done].
    + intros r' [Hr|Hr]%elem_of_app Hk.
      * apply conflicts_spec in Hk. by rewrite (Hnone r' Hr) in Hk.
      * apply list_elem_of_singleton in Hr as ->. done.
    + intros Hnd. rewrite fmap_app. apply NoDup_app. split_and!; [done| |by apply NoDup_singleton].
      intros x Hx ->%list_elem_of_singleton. by apply next_id_fresh in Hx.
    + rewrite fmap_app. f_equal.
      * rewrite <- (list_fmap_id rows) at 2. apply list_fmap_ext.
        intros i r Hr. unfold upd. rewrite Hnone; [done|]. by eapply list_elem_of_lookup_2.
      * cbn. unfold upd. by rewrite Hnew.
Qed.

(** ** The station directories *)

Lemma mkdir_from_noop pre comps w :
  (forall q r, comps = q ++ r -> q <> [] -> is_dir (fs w) (pre ++ q) = true) ->
  mkdir_from pre comps w = (w, Ok tt).
Proof.
  revert pre. induction comps as [|c cs IH]; intros pre H; [done|].
  cbn [mkdir_from]. pose proof (H [c] cs eq_refl ltac:(done)) as Hc.
  unfold is_dir in Hc. destruct (fs w !! (pre ++ [c])) as [[m|f]|]; try done.
  apply IH. intros q r -> Hq. rewrite <- app_assoc. by apply (H (c :: q) r).
Qed.

Lemma mkdir_from_made pre comps w w' :
  mkdir_from pre comps w = (w', Ok tt) ->
  forall q r, comps = q ++ r -> q <> [] -> is_dir (fs w') (pre ++ q) = true.
Proof.
  intros H. destruct (clear_from (fs w) pre comps) eqn:E.
  - destruct (mkdir_from_ok _ _ _ E) as (w'' & R & Hd).
    assert (w'' = w') as -> by congruence. exact Hd.
  - destruct (mkdir_from_raise _ _ _ E) as (w'' & e & R). congruence.
Qed.

Lemma is_dir_kept pre comps w w' r p :
  mkdir_from pre comps w = (w', r) -> is_dir (fs w) p = true -> is_dir (fs w') p = true.
Proof.
  intros H. unfold is_dir. destruct (fs w !! p) as [[m|f]|] eqn:E; try done.
  by rewrite (mkdir_from_keeps _ _ _ _ _ _ _ H E).
Qed.

(** X7: [_ensure_dirs_for_station] is idempotent.  When it returns, the
    four directories of the station are there, everything that was
    there before is still there, no regular file has appeared, the
    table and the output are as they were, and a second call returns
    as well and changes nothing at all. *)
Theorem ensure_dirs_is_idempotent k w w' :
  _ensure_dirs_for_station k w = (w', Ok tt) ->
  _ensure_dirs_for_station k w' = (w', Ok tt) /\
  (forall d, d ∈ station_dirs k -> is_dir (fs w') d = true) /\
  (forall p nd, fs w !! p = Some nd -> fs w' !! p = Some nd) /\
  (forall p f, fs w' !! p = Some (File f) -> fs w !! p = Some (File f)) /\
  db w' = db w /\ out w' = out w.
Proof.
  intros H.
  destruct (ensure_dirs_only_dirs _ _ _ _ H) as [(Hdb & Hout & _) Hfs].
  unfold _ensure_dirs_for_station in H.
  apply bind_inv in H as [(w1 & [] & H1 & H)|(e & _ & ?)]; [|done].
  apply bind_inv in H as [(w2 & [] & H2 & H)|(e & _ & ?)]; [|done].
  apply bind_inv in H as [(w3 & [] & H3 & H4)|(e & _ & ?)]; [|done].
  unfold mkdir in *.
  pose proof (mkdir_from_made _ _ _ _ H1) as D1.
  pose proof (mkdir_from_made _ _ _ _ H2) as D2.
  pose proof (mkdir_from_made _ _ _ _ H3) as D3.
  pose proof (mkdir_from_made _ _ _ _ H4) as D4.
  assert (A1 : forall q r, INCOMING_DIR ++ [k] = q ++ r -> q <> [] ->
                 is_dir (fs w') ([] ++ q) = true).
  { intros q r E Hq. eapply is_dir_kept; [exact H4|]. eapply is_dir_kept; [exact H3|].
    eapply is_dir_kept; [exact H2|]. by eapply D1. }
  assert (A2 : forall q r, CURRENT_DIR ++ [k] = q ++ r -> q <> [] ->
                 is_dir (fs w') ([] ++ q) = true).
  { intros q r E Hq. eapply is_dir_kept; [exact H4|]. eapply is_dir_kept; [exact H3|].
    by eapply D2. }
  assert (A3 : forall q r, ARCHIVE_DIR ++ [k] = q ++ r -> q <> [] ->
                 is_dir (fs w') ([] ++ q) = true).
  { intros q r E Hq. eapply is_dir_kept; [exact H4|]. by eapply D3. }
  split_and!; [| | | |done|done].
  - unfold _ensure_dirs_for_station, mkdir.
    rewrite (bind_ok _ _ _ _ _ (mkdir_from_noop _ _ _ A1)).
    rewrite (bind_ok _ _ _ _ _ (mkdir_from_noop _ _ _ A2)).
    rewrite (bind_ok _ _ _ _ _ (mkdir_from_noop _ _ _ A3)).
    by apply mkdir_from_noop.
  - intros d Hd. unfold station_dirs in Hd.
    repeat (apply elem_of_cons in Hd as [->|Hd];
            [first [by apply (A1 _ []) | by apply (A2 _ []) | by apply (A3 _ [])
                   | by apply (D4 _ [])]|]).
    by apply elem_of_nil in Hd.
  - intros p nd E. destruct (Hfs p) as [->|(E' & _)]; congruence.
  - intros p f E. destruct (Hfs p) as [<-|(_ & E' & _)]; congruence.
Qed.

Lemma ensure_dirs_is_idempotent_witness :
  exists w',
    _ensure_dirs_for_station "simone_piura" bare = (w', Ok tt) /\
    _ensure_dirs_for_station "simone_piura" w' = (w', Ok tt) /\
    is_dir (fs w') ["old incoming"; "simone_piura"] = true /\
    db w' = db bare.
Proof.
  exists (_ensure_dirs_for_station "simone_piura" bare).1.
  assert (H : _ensure_dirs_for_station "simone_piura" bare =
              ((_ensure_dirs_for_station "simone_piura" bare).1, Ok tt))
    by exact (run_eq (_ensure_dirs_for_station "simone_piura") bare tt ltac:(by_run)).
  destruct (ensure_dirs_is_idempotent _ _ _ H) as (H2 & Hd & _ & _ & Hdb & _).
  split_and!; [exact H | exact H2 | | exact Hdb].
  apply Hd. unfold station_dirs. by repeat constructor.
Defined.

(** X8: [_ensure_dirs_for_station] raises exactly when a regular file
    stands where one of the four directories, or a directory above it,
    has to be; the exception is then [FileExistsError] or
    [NotADirectoryError], and the files, the table and the output are
    as before. *)
Theorem ensure_dirs_fails_only_on_a_file_in_the_way k w :
  ((exists w' e, _ensure_dirs_for_station k w = (w', Raise e)) <->
   exists d q r, d ∈ station_dirs k /\ d = q ++ r /\ q <> [] /\ is_file (fs w) q = true) /\
  (forall w' e, _ensure_dirs_for_station k w = (w', Raise e) ->
     (e = FileExistsError \/ e = NotADirectoryError) /\
     (forall p f, fs w' !! p = Some (File f) <-> fs w !! p = Some (File f)) /\
     db w' = db w /\ out w' = out w).
Proof.
  assert (Hblock : ensure_ok (fs w) k = false <->
            exists d q r, d ∈ station_dirs k /\ d = q ++ r /\ q <> [] /\ is_file (fs w) q = true).
  { unfold ensure_ok. split.
    - intros H. apply not_true_iff_false in H.
      rewrite forallb_forall in H.
      destruct (decide (Forall (fun d => clear (fs w) d = true) (station_dirs k)))
        as [Hall|Hnot].
      { exfalso. apply H. intros d Hd%list_elem_of_In. by eapply Forall_forall in Hall. }
      apply not_Forall_Exists in Hnot; [|apply _].
      apply Exists_exists in Hnot as (d & Hd & Hc). exists d.
      assert (Hgen : forall pre comps, clear_from (fs w) pre comps <> true ->
                exists q r, comps = q ++ r /\ q <> [] /\ is_file (fs w) (pre ++ q) = true).
      { clear. intros pre comps. revert pre.
        induction comps as [|c cs IH]; intros pre Hc; [done|].
        cbn [clear_from] in Hc. destruct (is_file (fs w) (pre ++ [c])) eqn:E.
        - by exists [c], cs.
        - cbn [negb andb] in Hc. destruct (IH _ Hc) as (q & r & -> & _ & Hq).
          exists (c :: q), r. split_and!; [done..|]. by rewrite <- app_assoc in Hq. }
      destruct (Hgen [] d Hc) as (q & r & E & Hne & Hq). by exists q, r.
    - intros (d & q & r & Hd & -> & Hne & Hq).
      apply not_true_iff_false. rewrite forallb_forall. intros Hall.
      specialize (Hall _ (proj1 (list_elem_of_In _ _) Hd)).
      assert (Hgen : forall pre, is_file (fs w) (pre ++ q) = true ->
                clear_from (fs w) pre (q ++ r) = true -> q <> [] -> False).
      { clear. induction q as [|c q IH]; intros pre Hq Hc Hne; [done|].
        cbn [app clear_from] in Hc. apply andb_true_iff in Hc as [Hc1 Hc2].
        destruct q as [|c' q].
        - rewrite Hq in Hc1. done.
        - apply (IH (pre ++ [c])); [by rewrite <- app_assoc|done|done]. }
      by apply (Hgen [] Hq Hall). }
  split.
  - rewrite <- Hblock. split.
    + intros (w' & e & R). destruct (ensure_ok (fs w) k) eqn:E; [|done].
      destruct (ensure_dirs_ok _ _ E) as (w'' & R' & _). congruence.
    + intros E. destruct (ensure_dirs_raise _ _ E) as (w' & e & R & _). by exists w', e.
  - intros w' e R. destruct (ensure_dirs_only_dirs _ _ _ _ R) as [(Hdb & Hout & _) Hfs].
    split_and!; [by eapply ensure_dirs_exn| |done|done].
    intros p f. destruct (Hfs p) as [->|(E & E' & _)]; [done|]. rewrite E, E'. done.
Qed.

(** ** What a scan leaves alone *)

Lemma scan_writes_head p :
  scan_writes p -> head p = Some "archive" \/ head p = Some "current".
Proof. intros (st & _ & [[q ->]|[q ->]]); [by left | by right]. Qed.

Lemma scan_removes_head p : scan_removes p -> head p = Some "old incoming".
Proof. by intros (st & _ & n & ->). Qed.

(** X9: a scan, however it ends, never changes or removes anything
    below [incoming] and puts no file there; it never removes or
    replaces a directory; the only files that disappear are files
    directly in the old-incoming directory of a configured station;
    and the only files that appear or change lie below the archive or
    the current directory of a configured station.  The clock is not
    touched. *)
Theorem scan_touches_only_its_places scandir w w' r :
  scan_cmd scandir w = (w', r) ->
  now w' = now w /\
  (forall p nd, head p = Some "incoming" -> fs w !! p = Some nd -> fs w' !! p = Some nd) /\
  (forall p f, head p = Some "incoming" -> fs w' !! p = Some (File f) ->
     fs w !! p = Some (File f)) /\
  (forall p m, fs w !! p = Some (Dir m) -> fs w' !! p = Some (Dir m)) /\
  (forall p, is_Some (fs w !! p) -> fs w' !! p = None ->
     scan_removes p /\ is_file (fs w) p = true) /\
  (forall p f, fs w' !! p = Some (File f) -> fs w !! p <> Some (File f) ->
     scan_writes p).
Proof.
  intros H. pose proof (evolve_scan_cmd scandir _ _ _ H) as Hev.
  assert (Hin : forall p, head p = Some "incoming" -> ~ scan_writes p /\ ~ scan_removes p).
  { intros p Hp. split.
    - intros [E|E]%scan_writes_head; congruence.
    - intros E%scan_removes_head. congruence. }
  split_and!.
  - apply (ev_now _ _ _ _ Hev).
  - intros p nd Hp E. destruct (Hin p Hp) as [HW HD].
    destruct (ev_fs _ _ _ _ Hev p) as [E'|[(E' & _)|[(? & _)|(? & _)]]]; try done;
      congruence.
  - intros p f Hp E. destruct (Hin p Hp) as [HW HD].
    by apply (evolve_no_new_file Hev).
  - intros p m. apply (evolve_keeps_dir Hev).
  - intros p [nd E] E'.
    destruct (ev_fs _ _ _ _ Hev p) as [E''|[(E'' & _)|[(_ & _ & _ & F)|(HD & _ & F & _)]]];
      try congruence.
    + unfold is_file in F. by rewrite E' in F.
    + done.
  - intros p f E Hne.
    destruct (ev_fs _ _ _ _ Hev p) as [E''|[(_ & _ & E'')|[(HW & _)|(_ & _ & _ & E'')]]];
      try congruence.
Qed.

Lemma scan_touches_only_its_places_witness :
  fs demo_after !! incoming_src piura = fs demo !! incoming_src piura /\
  fs demo_after !! ["old incoming"; "simone_piura"; "a.png"] = None /\
  scan_removes ["old incoming"; "simone_piura"; "a.png"] /\
  scan_writes ["archive"; "simone_piura"; "2024"; "03"; "01"; "a.png"] /\
  now demo_after = now demo.
Proof.
  assert (H : scan_cmd listdir demo = (demo_after, Ok tt)).
  { unfold demo_after. exact (run_eq (scan_cmd listdir) demo tt ltac:(by_run)). }
  destruct (scan_touches_only_its_places listdir demo demo_after (Ok tt) H)
    as (Hnow & Hkeep & _ & _ & Hrm & Hwr).
  assert (Ha : fs demo_after !! ["old incoming"; "simone_piura"; "a.png"] = None) by by_run.
  split_and!; [| exact Ha | | | exact Hnow].
  - etrans; [apply (Hkeep _ (png 1709337000 "A")); [reflexivity | by_run] | by_run].
  - apply Hrm; [apply (bool_decide_unpack _); by_run | exact Ha].
  - apply (Hwr _ {| f_mtime := 1709337002; f_data := "a" |}); [by_run|].
    assert (E : fs demo !! ["archive"; "simone_piura"; "2024"; "03"; "01"; "a.png"] = None)
      by by_run.
    rewrite E. discriminate.
Defined.

(** ** When the archive writer fails *)

(** X10: the archive writer raises exactly when a regular file blocks
    a directory of the station, or when the source exists but cannot
    be archived (it is a directory, its day cannot be represented, a
    regular file blocks the day directory, or the place of the copy is
    the source itself or a directory).  A call that raises has written
    no record and printed nothing. *)
Theorem archive_writer_fails_without_a_record src st w :
  not_station_dir (key st) src ->
  ((exists w' e, _archive_file src st w = (w', Raise e)) <->
   ensure_ok (fs w) (key st) = false \/
   (is_Some (fs w !! src) /\ archivable (fs w) (key st) src = false)) /\
  (forall w' e, _archive_file src st w = (w', Raise e) ->
     db w' = db w /\ out w' = out w /\ now w' = now w).
Proof.
  intros Hsrc. split; [split|].
  - intros (w' & e & R). by destruct (archive_file_inv _ _ _ _ _ Hsrc R) as (_ & _ & ?).
  - intros [E|[Hex Harch]].
    + destruct (ensure_dirs_raise _ _ E) as (w' & e & R & _). exists w', e.
      unfold _archive_file. by rewrite (bind_raise _ _ _ _ _ R).
    + destruct (ensure_ok (fs w) (key st)) eqn:E.
      * destruct (archive_file_failure _ _ _ Hsrc E Hex Harch) as (w' & e & R & _).
        by exists w', e.
      * destruct (ensure_dirs_raise _ _ E) as (w' & e & R & _). exists w', e.
        unfold _archive_file. by rewrite (bind_raise _ _ _ _ _ R).
  - intros w' e R. by destruct (archive_file_inv _ _ _ _ _ Hsrc R) as (_ & ? & _).
Qed.

Lemma archive_writer_fails_without_a_record_witness :
  (_archive_file ["old incoming"; "simone_piura"; "z.png"] piura demo_bad).2
    = Raise ValueError /\
  db (_archive_file ["old incoming"; "simone_piura"; "z.png"] piura demo_bad).1
    = db demo_bad.
Proof.
  assert (R : (_archive_file ["old incoming"; "simone_piura"; "z.png"] piura demo_bad).2
              = Raise ValueError) by by_run.
  split; [exact R|].
  destruct (archive_writer_fails_without_a_record
              ["old incoming"; "simone_piura"; "z.png"] piura demo_bad
              ltac:(apply not_station_dir_deep; vm_compute; lia)) as [_ H].
  apply (H _ ValueError). rewrite <- R. apply surjective_pairing.
Defined.

(** ** Days and their strings *)

(** Lexicographic comparison of (year, month, day). *)
Definition compare_ymd (a b : Z * Z * Z) : comparison :=
  let '(y1, m1, d1) := a in
  let '(y2, m2, d2) := b in
  match y1 ?= y2 with
  | Eq => match m1 ?= m2 with
          | Eq => d1 ?= d2
          | c => c
          end
  | c => c
  end.

(** [P] holds for [z], [z + 1], ..., [z + n - 1]. *)
Fixpoint all_from (P : Z -> bool) (z : Z) (n : nat) : bool :=
  match n with
  | O => true
  | S n' => P z && all_from P (z + 1) n'
  end.

Lemma all_from_spec P z n :
  all_from P z n = true -> forall x, z <= x < z + Z.of_nat n -> P x = true.
Proof.
  revert z. induction n as [|n IH]; intros z H x Hx; [lia|].
  cbn [all_from] in H. apply andb_true_iff in H as [H1 H2].
  destruct (decide (x = z)) as [->|Hne]; [done|].
  apply (IH (z + 1) H2). lia.
Qed.

(** The date of day [doe] of the era that begins on 0000-03-01. *)
Definition civil_of_doe (doe : Z) : Z * Z * Z := Calendar.civil_from_days (doe - 719468).

Definition add_years (n : Z) (dt : Z * Z * Z) : Z * Z * Z :=
  let '(y, m, d) := dt in (y + n, m, d).

Lemma civil_from_days_era z :
  let era := (z + 719468) / 146097 in
  let doe := (z + 719468) mod 146097 in
  Calendar.civil_from_days z = add_years (era * 400) (civil_of_doe doe).
Proof.
  cbv zeta. unfold civil_of_doe, Calendar.civil_from_days.
  set (Z0 := z + 719468).
  assert (Hdoe : Z0 - Z0 / 146097 * 146097 = Z0 mod 146097).
  { rewrite Z.mod_eq by lia. lia. }
  rewrite Hdoe.
  pose proof (Z.mod_pos_bound Z0 146097 ltac:(lia)) as Hb.
  set (doe := Z0 mod 146097) in *.
  replace (doe - 719468 + 719468) with doe by lia.
  rewrite (Z.div_small doe 146097) by lia.
  replace (doe - 0 * 146097) with doe by lia.
  cbv zeta.
  set (yoe := (doe - doe / 1460 + doe / 36524 - doe / 146096) / 365).
  set (doy := doe - (365 * yoe + yoe / 4 - yoe / 100)).
  set (mp := (5 * doy + 2) / 153).
  unfold add_years.
  destruct ((if mp <? 10 then mp + 3 else mp - 9) <=? 2); f_equal; f_equal; lia.
Qed.

(** Within an era: months and days are in range and the date grows
    from each day to the next. *)
Definition era_day_ok (doe : Z) : bool :=
  let '(y, m, d) := civil_of_doe doe in
  (0 <=? y) && (y <=? 400) && (1 <=? m) && (m <=? 12) && (1 <=? d) && (d <=? 31)
  && match compare_ymd (civil_of_doe doe)
             (if doe =? 146096 then add_years 400 (civil_of_doe 0)
              else civil_of_doe (doe + 1)) with
     | Lt => true
     | _ => false
     end.

Lemma era_days_ok doe : 0 <= doe < 146097 -> era_day_ok doe = true.
Proof.
  intros H. apply (all_from_spec era_day_ok 0 (Z.to_nat 146097)); [|lia].
  vm_cast_no_check (eq_refl true).
Qed.

Lemma compare_ymd_add_years n a b :
  compare_ymd (add_years n a) (add_years n b) = compare_ymd a b.
Proof.
  destruct a as [[y1 m1] d1], b as [[y2 m2] d2]. cbn.
  destruct (Z.compare_spec (y1 + n) (y2 + n)), (Z.compare_spec y1 y2); try lia; done.
Qed.

Lemma add_years_add n k dt : add_years n (add_years k dt) = add_years (k + n) dt.
Proof. destruct dt as [[y m] d]. cbn. f_equal. f_equal. lia. Qed.

Lemma compare_ymd_trans a b c :
  compare_ymd a b = Lt -> compare_ymd b c = Lt -> compare_ymd a c = Lt.
Proof.
  destruct a as [[y1 m1] d1], b as [[y2 m2] d2], c as [[y3 m3] d3]. cbn.
  destruct (Z.compare_spec y1 y2), (Z.compare_spec y2 y3), (Z.compare_spec y1 y3);
    try lia; try done;
  destruct (Z.compare_spec m1 m2), (Z.compare_spec m2 m3), (Z.compare_spec m1 m3);
    try lia; try done;
  destruct (Z.compare_spec d1 d2), (Z.compare_spec d2 d3), (Z.compare_spec d1 d3);
    try lia; done.
Qed.

Lemma civil_from_days_step z :
  compare_ymd (Calendar.civil_from_days z) (Calendar.civil_from_days (z + 1)) = Lt.
Proof.
  pose proof (civil_from_days_era z) as E1.
  pose proof (civil_from_days_era (z + 1)) as E2. cbv zeta in E1, E2.
  rewrite E1, E2.
  set (Z0 := z + 719468). replace (z + 1 + 719468) with (Z0 + 1) by lia.
  pose proof (Z.mod_pos_bound Z0 146097 ltac:(lia)) as Hb.
  pose proof (Z.div_mod Z0 146097 ltac:(lia)) as Hdm.
  pose proof (era_days_ok (Z0 mod 146097) Hb) as Hok.
  unfold era_day_ok in Hok.
  destruct (civil_of_doe (Z0 mod 146097)) as [[y m] d] eqn:Ec.
  apply andb_true_iff in Hok as [_ Hok].
  destruct (Z0 mod 146097 =? 146096) eqn:Elast.
  - assert (Hq : (Z0 + 1) / 146097 = Z0 / 146097 + 1).
    { symmetry. apply (Z.div_unique _ _ _ 0); lia. }
    assert (Hr : (Z0 + 1) mod 146097 = 0).
    { symmetry. apply (Z.mod_unique _ _ (Z0 / 146097 + 1)); lia. }
    rewrite Hq, Hr.
    replace ((Z0 / 146097 + 1) * 400) with (400 + Z0 / 146097 * 400) by lia.
    rewrite <- add_years_add, compare_ymd_add_years.
    by destruct (compare_ymd _ _).
  - assert (Hq : (Z0 + 1) / 146097 = Z0 / 146097).
    { symmetry. apply (Z.div_unique _ _ _ (Z0 mod 146097 + 1)); lia. }
    assert (Hr : (Z0 + 1) mod 146097 = Z0 mod 146097 + 1).
    { symmetry. apply (Z.mod_unique _ _ (Z0 / 146097)); lia. }
    rewrite Hq, Hr, compare_ymd_add_years.
    by destruct (compare_ymd _ _).
Qed.

Lemma civil_from_days_lt z1 z2 :
  z1 < z2 ->
  compare_ymd (Calendar.civil_from_days z1) (Calendar.civil_from_days z2) = Lt.
Proof.
  intros H. replace z2 with (z1 + 1 + Z.of_nat (Z.to_nat (z2 - z1 - 1))) by lia.
  generalize (Z.to_nat (z2 - z1 - 1)). intros n. induction n as [|n IH].
  - rewrite Z.add_0_r. apply civil_from_days_step.
  - eapply compare_ymd_trans; [exact IH|].
    replace (z1 + 1 + Z.of_nat (S n)) with (z1 + 1 + Z.of_nat n + 1) by lia.
    apply civil_from_days_step.
Qed.

Lemma compare_ymd_refl a : compare_ymd a a = Eq.
Proof. destruct a as [[y m] d]. cbn. by rewrite !Z.compare_refl. Qed.

Lemma civil_from_days_compare z1 z2 :
  compare_ymd (Calendar.civil_from_days z1) (Calendar.civil_from_days z2) = (z1 ?= z2).
Proof.
  destruct (Z.compare_spec z1 z2) as [->|H|H].
  - apply compare_ymd_refl.
  - by apply civil_from_days_lt.
  - apply (civil_from_days_lt z2 z1) in H.
    destruct (Calendar.civil_from_days z1) as [[y1 m1] d1],
             (Calendar.civil_from_days z2) as [[y2 m2] d2]. cbn in *.
    rewrite (Z.compare_antisym y1 y2), (Z.compare_antisym m1 m2), (Z.compare_antisym d1 d2)
      in H.
    destruct (y1 ?= y2), (m1 ?= m2), (d1 ?= d2); done.
Qed.

Lemma civil_from_days_range z y m d :
  Calendar.civil_from_days z = (y, m, d) -> 1 <= m <= 12 /\ 1 <= d <= 31.
Proof.
  pose proof (civil_from_days_era z) as E. cbv zeta in E. rewrite E.
  pose proof (Z.mod_pos_bound (z + 719468) 146097 ltac:(lia)) as Hb.
  pose proof (era_days_ok _ Hb) as Hok. unfold era_day_ok in Hok.
  destruct (civil_of_doe _) as [[y0 m0] d0]. cbn. intros [= <- <- <-].
  apply andb_true_iff in Hok as [Hok _].
  repeat (apply andb_true_iff in Hok as [Hok ?]). lia.
Qed.

Lemma string_compare_app s1 s2 t1 t2 :
  String.length s1 = String.length s2 ->
  String.compare (s1 +:+ t1) (s2 +:+ t2) =
  match String.compare s1 s2 with
  | Eq => String.compare t1 t2
  | c => c
  end.
Proof.
  revert s2. induction s1 as [|c1 s1 IH]; intros [|c2 s2] Hlen; try done.
  rewrite !append_String. cbn [String.compare].
  destruct (Ascii.compare c1 c2); [|done..]. apply IH. by injection Hlen.
Qed.

Definition comparison_eqb (a b : comparison) : bool :=
  match a, b with
  | Eq, Eq | Lt, Lt | Gt, Gt => true
  | _, _ => false
  end.

Lemma pad2_compare a b :
  0 <= a < 100 -> 0 <= b < 100 ->
  String.compare (Calendar.pad2 a) (Calendar.pad2 b) = (a ?= b).
Proof.
  intros Ha Hb.
  assert (H : all_from (fun x => all_from (fun y =>
                comparison_eqb (String.compare (Calendar.pad2 x) (Calendar.pad2 y)) (x ?= y))
                0 100) 0 100 = true) by (vm_compute; reflexivity).
  pose proof (all_from_spec _ _ _ (all_from_spec _ _ _ H a ltac:(lia)) b ltac:(lia)) as E.
  cbv beta in E. by destruct (String.compare _ _), (a ?= b).
Qed.

Lemma digit_mod a b : a mod 10 = b mod 10 -> Calendar.digit a = Calendar.digit b.
Proof. unfold Calendar.digit. by intros ->. Qed.

Lemma pad4_split n :
  Calendar.pad4 n = Calendar.pad2 (n / 100) +:+ Calendar.pad2 (n mod 100).
Proof.
  unfold Calendar.pad4, Calendar.pad2. rewrite !append_String, append_Empty.
  pose proof (Z.div_mod n 100 ltac:(lia)).
  pose proof (Z.mod_pos_bound n 100 ltac:(lia)).
  pose proof (Z.div_mod n 10 ltac:(lia)). pose proof (Z.mod_pos_bound n 10 ltac:(lia)).
  pose proof (Z.div_mod (n / 10) 10 ltac:(lia)).
  pose proof (Z.mod_pos_bound (n / 10) 10 ltac:(lia)).
  pose proof (Z.div_mod (n mod 100) 10 ltac:(lia)).
  pose proof (Z.mod_pos_bound (n mod 100) 10 ltac:(lia)).
  pose proof (Z.div_mod (n mod 100 / 10) 10 ltac:(lia)).
  pose proof (Z.mod_pos_bound (n mod 100 / 10) 10 ltac:(lia)).
  assert (E1 : Calendar.digit (n / 100 / 10) = Calendar.digit (n / 1000)).
  { by rewrite Z.div_div by lia. }
  assert (E2 : Calendar.digit (n mod 100 / 10) = Calendar.digit (n / 10)).
  { apply digit_mod. lia. }
  assert (E3 : Calendar.digit (n mod 100) = Calendar.digit n).
  { apply digit_mod. lia. }
  by rewrite E1, E2, E3.
Qed.

Lemma pad2_length n : String.length (Calendar.pad2 n) = 2%nat.
Proof. reflexivity. Qed.

Lemma pad4_compare a b :
  0 <= a < 10000 -> 0 <= b < 10000 ->
  String.compare (Calendar.pad4 a) (Calendar.pad4 b) = (a ?= b).
Proof.
  intros Ha Hb. rewrite !pad4_split, string_compare_app by by rewrite !pad2_length.
  pose proof (Z.div_mod a 100 ltac:(lia)). pose proof (Z.mod_pos_bound a 100 ltac:(lia)).
  pose proof (Z.div_mod b 100 ltac:(lia)). pose proof (Z.mod_pos_bound b 100 ltac:(lia)).
  rewrite !pad2_compare by lia.
  destruct (Z.compare_spec (a / 100) (b / 100)), (Z.compare_spec (a mod 100) (b mod 100)),
    (Z.compare_spec a b); try lia; done.
Qed.

Lemma strftime_compare y1 m1 d1 y2 m2 d2 :
  0 <= y1 < 10000 -> 0 <= m1 < 100 -> 0 <= d1 < 100 ->
  0 <= y2 < 10000 -> 0 <= m2 < 100 -> 0 <= d2 < 100 ->
  String.compare (Calendar.strftime_ymd (y1, m1, d1)) (Calendar.strftime_ymd (y2, m2, d2))
  = compare_ymd (y1, m1, d1) (y2, m2, d2).
Proof.
  intros. unfold Calendar.strftime_ymd, compare_ymd.
  rewrite string_compare_app by by rewrite !pad4_split.
  rewrite pad4_compare by lia. destruct (y1 ?= y2); [|done..].
  rewrite (string_compare_app "-" "-") by done. cbn [String.compare Ascii.compare].
  change (Ascii.compare "-" "-") with Eq. cbv iota.
  rewrite string_compare_app by done.
  rewrite pad2_compare by lia. destruct (m1 ?= m2); [|done..].
  rewrite (string_compare_app "-" "-") by done.
  change (String.compare "-" "-") with Eq. cbv iota.
  by apply pad2_compare.
Qed.

(** X11: for files changed since 1970, the day strings that
    [utc_date_from_mtime] yields compare, as strings, like the days
    themselves: two timestamps of the same UTC day give the same
    string, and a later day gives a greater string.  So the order of
    the column [date], by which the search sorts, is the order of
    time.  The string always has the form [YYYY-MM-DD], with a month
    from 01 to 12 and a day from 01 to 31. *)
Theorem date_strings_order_like_days t1 t2 dt1 dt2 :
  0 <= t1 -> 0 <= t2 ->
  Calendar.fromtimestamp_utc t1 = Some dt1 ->
  Calendar.fromtimestamp_utc t2 = Some dt2 ->
  String.compare (Calendar.strftime_ymd dt1) (Calendar.strftime_ymd dt2)
    = (t1 / 86400 ?= t2 / 86400) /\
  (t1 / 86400 = t2 / 86400 <-> Calendar.strftime_ymd dt1 = Calendar.strftime_ymd dt2) /\
  String.length (Calendar.strftime_ymd dt1) = 10%nat /\
  let '(y, m, d) := dt1 in 1970 <= y <= 9999 /\ 1 <= m <= 12 /\ 1 <= d <= 31.
Proof.
  intros H1 H2 E1 E2. unfold Calendar.fromtimestamp_utc in E1, E2.
  destruct (Calendar.civil_from_days (t1 / 86400)) as [[y1 m1] d1] eqn:C1.
  destruct (Calendar.civil_from_days (t2 / 86400)) as [[y2 m2] d2] eqn:C2.
  destruct ((1 <=? y1) && (y1 <=? 9999)) eqn:R1; [|done].
  destruct ((1 <=? y2) && (y2 <=? 9999)) eqn:R2; [|done].
  injection E1 as <-. injection E2 as <-.
  apply andb_true_iff in R1 as [R1a R1b]. apply andb_true_iff in R2 as [R2a R2b].
  destruct (civil_from_days_range _ _ _ _ C1) as [Hm1 Hd1].
  destruct (civil_from_days_range _ _ _ _ C2) as [Hm2 Hd2].
  assert (Hcmp : String.compare (Calendar.strftime_ymd (y1, m1, d1))
                   (Calendar.strftime_ymd (y2, m2, d2)) = (t1 / 86400 ?= t2 / 86400)).
  { rewrite strftime_compare by lia. rewrite <- C1, <- C2. apply civil_from_days_compare. }
  split_and!.
  - exact Hcmp.
  - split.
    + intros E. apply String.compare_eq_iff. rewrite Hcmp, E. apply Z.compare_refl.
    + intros E. apply Z.compare_eq. rewrite <- Hcmp, E. apply string_compare_refl.
  - unfold Calendar.strftime_ymd, Calendar.pad4, Calendar.pad2.
    repeat first [rewrite append_String | rewrite append_Empty]. reflexivity.
  - assert (Hepoch : compare_ymd (Calendar.civil_from_days 0)
                       (Calendar.civil_from_days (t1 / 86400)) <> Gt).
    { rewrite civil_from_days_compare. apply Z.compare_le_iff.
      apply Z.div_pos; lia. }
    rewrite C1 in Hepoch. change (Calendar.civil_from_days 0) with (1970, 1, 1) in Hepoch.
    unfold compare_ymd in Hepoch. destruct (Z.compare_spec 1970 y1); try lia. done.
  - lia.
  - lia.
  - lia.
  - lia.
  - lia.
Qed.

Lemma date_strings_order_like_days_witness :
  Calendar.fromtimestamp_utc 1709251199 = Some (2024, 2, 29) /\
  Calendar.fromtimestamp_utc 1709337000 = Some (2024, 3, 1) /\
  String.compare "2024-02-29" "2024-03-01" = Lt.
Proof.
  assert (E1 : Calendar.fromtimestamp_utc 1709251199 = Some (2024, 2, 29)) by by_run.
  assert (E2 : Calendar.fromtimestamp_utc 1709337000 = Some (2024, 3, 1)) by by_run.
  split_and!; [exact E1 | exact E2 |].
  destruct (date_strings_order_like_days 1709251199 1709337000 _ _
              ltac:(lia) ltac:(lia) E1 E2) as [H _].
  etrans; [exact H | by_run].
Defined.

(** ** The labels of the records *)

(** The record carries the key, the country and the station name of an
    entry of [STATIONS]. *)
Definition labelled (r : row) : Prop :=
  exists st, st ∈ STATIONS /\ station_key r = key st /\
             row_country r = country st /\ row_station r = station st.

Lemma upsert_labelled st img d fp rows :
  st ∈ STATIONS -> Forall labelled rows ->
  Forall labelled (upsert img (country st) (station st) d (key st) fp rows).
Proof.
  intros Hst Hall. unfold upsert. destruct (existsb _ rows).
  - apply Forall_fmap. eapply Forall_impl; [exact Hall|]. intros r Hr. cbn.
    destruct (conflicts (key st) d r) eqn:E; [|done].
    apply conflicts_spec in E. injection E as Ek _. by exists st.
  - apply Forall_app. split; [done|]. apply Forall_singleton. by exists st.
Qed.

Lemma same_tables_copy2 src dst : respects same_tables (copy2 src dst).
Proof.
  intros w w' r H. unfold copy2 in H.
  repeat (case_match; simplify_eq); done.
Qed.

Lemma archive_file_labelled src st w w' r :
  st ∈ STATIONS -> not_station_dir (key st) src ->
  _archive_file src st w = (w', r) ->
  Forall labelled (db w) -> Forall labelled (db w').
Proof.
  intros Hst Hsrc H Hall. destruct (archive_file_inv _ _ _ _ _ Hsrc H) as [_ Hr].
  destruct r as [[it|]|e].
  - destruct Hr as (_ & _ & file & dt & _ & _ & _ & _ & -> & _). by apply upsert_labelled.
  - destruct Hr as ((-> & _) & _). done.
  - destruct Hr as ((-> & _) & _). done.
Qed.

Lemma mirror_labelled st w w' r :
  st ∈ STATIONS -> mirror_current_and_archive st w = (w', r) ->
  Forall labelled (db w) -> Forall labelled (db w').
Proof.
  intros Hst H Hall.
  assert (Hdeep : not_station_dir (key st) (incoming_src st)).
  { apply not_station_dir_deep. simpl. lia. }
  destruct (ensure_ok (fs w) (key st)) eqn:Hens.
  - destruct (ensure_dirs_ok _ _ Hens) as (w1 & R1 & _ & (E1 & _) & _).
    rewrite (mirror_run _ _ _ R1) in H. rewrite <- E1 in Hall.
    destruct (fs w !! incoming_src st); [|by injection H as <- _].
    destruct (newer _ _ _); [|by eapply archive_file_labelled].
    apply bind_inv in H as [(w2 & [] & H2 & H)|(e & H2 & _)].
    + apply same_tables_copy2 in H2 as (E2 & _). rewrite <- E2 in Hall.
      by eapply archive_file_labelled.
    + apply same_tables_copy2 in H2 as (E2 & _). by rewrite E2.
  - destruct (ensure_dirs_raise _ _ Hens) as (w1 & e & R1 & _ & (E1 & _)).
    unfold mirror_current_and_archive in H. rewrite (bind_raise _ _ _ _ _ R1) in H.
    injection H as <- _. by rewrite E1.
Qed.

Lemma scan_incoming_labelled sts :
  (forall st, st ∈ sts -> st ∈ STATIONS) ->
  forall created w w' r,
    scan_incoming sts created w = (w', r) ->
    Forall labelled (db w) -> Forall labelled (db w').
Proof.
  induction sts as [|st sts IH]; intros Hsub created w w' r H Hall.
  { by injection H as <- _. }
  cbn [scan_incoming] in H.
  apply bind_inv in H as [(w1 & it & H1 & H)|(e & H1 & _)].
  - eapply IH; [|exact H|].
    + intros s Hs. apply Hsub. by right.
    + eapply mirror_labelled; [|exact H1|exact Hall]. apply Hsub. by left.
  - eapply mirror_labelled; [|exact H1|exact Hall]. apply Hsub. by left.
Qed.

Lemma sweep_db_labelled st pl rows pngs :
  st ∈ STATIONS -> Forall labelled rows -> Forall labelled (sweep_db st pl rows pngs).
Proof.
  intros Hst. revert rows. induction pngs as [|p pngs IH]; intros rows Hall; [done|].
  rewrite sweep_db_cons. apply IH. destruct (pl p) as [dt|]; [|done].
  by apply upsert_labelled.
Qed.

Section Labels.

Variable scandir : gmap path node -> path -> list string.

Hypothesis scandir_spec : forall f d,
  NoDup (scandir f d) /\ forall n, n ∈ scandir f d <-> is_Some (f !! (d ++ [n])).

Lemma sweep_labelled st w w' r :
  st ∈ STATIONS -> archive_only_from_old_incoming scandir st w = (w', r) ->
  Forall labelled (db w) -> Forall labelled (db w').
Proof.
  intros Hst H Hall. destruct (ensure_ok (fs w) (key st)) eqn:Hens.
  - destruct (sweep_spec scandir scandir_spec st w Hens)
      as (w'' & pngs & es & R & _ & _ & _ & _ & Hdb & _).
    assert (w'' = w') as -> by congruence. rewrite Hdb. by apply sweep_db_labelled.
  - destruct (ensure_dirs_raise _ _ Hens) as (w1 & e & R1 & _ & (E1 & _)).
    unfold archive_only_from_old_incoming in H. rewrite (bind_raise _ _ _ _ _ R1) in H.
    injection H as <- _. by rewrite E1.
Qed.

Lemma scan_old_incoming_labelled sts :
  (forall st, st ∈ sts -> st ∈ STATIONS) ->
  forall archived_old w w' r,
    scan_old_incoming scandir sts archived_old w = (w', r) ->
    Forall labelled (db w) -> Forall labelled (db w').
Proof.
  induction sts as [|st sts IH]; intros Hsub acc w w' r H Hall.
  { by injection H as <- _. }
  cbn [scan_old_incoming] in H.
  apply bind_inv in H as [(w1 & l & H1 & H)|(e & H1 & _)].
  - assert (Hall1 : Forall labelled (db w1)).
    { eapply sweep_labelled; [|exact H1|exact Hall]. apply Hsub. by left. }
    destruct l as [l|]; [|by injection H as <- _].
    eapply IH; [|exact H|exact Hall1]. intros s Hs. apply Hsub. by right.
  - eapply sweep_labelled; [|exact H1|exact Hall]. apply Hsub. by left.
Qed.

(** X12: the scan labels its records from [STATIONS].  If every record
    of the table carries the key, country and station name of a
    configured station (as in an empty table), then so does every
    record after a scan, however the scan ends; hence the country and
    the station of every record are among the options that the search
    form offers, and the key of every record has a station page. *)
Theorem scan_records_carry_the_station_labels w w' r :
  Forall labelled (db w) ->
  scan_cmd scandir w = (w', r) ->
  Forall labelled (db w') /\
  forall x, x ∈ db w' ->
    row_country x ∈ countries /\ row_station x ∈ stations /\
    exists row, station_view (station_key x) = Rendered (StationPage row countries stations).
Proof.
  intros Hall H.
  assert (Hall' : Forall labelled (db w')).
  { unfold scan_cmd in H.
    apply bind_inv in H as [(wa & created & Ha & H)|(e & Ha & _)];
      [|by eapply scan_incoming_labelled; [|exact Ha|]].
    apply (scan_incoming_labelled STATIONS ltac:(done) _ _ _ _ Ha) in Hall.
    apply bind_inv in H as [(wb & old & Hb & H)|(e & Hb & _)];
      [|by eapply scan_old_incoming_labelled; [|exact Hb|]].
    apply (scan_old_incoming_labelled STATIONS ltac:(done) _ _ _ _ Hb) in Hall.
    apply bind_inv in H as [(wc & [] & Hc & H)|(e & Hc & _)];
      [|by apply print_same in Hc as (_ & _ & ?)].
    apply print_same in Hc as (_ & Hc & _).
    apply bind_inv in H as [(wd & [] & Hd & H)|(e & Hd & _)];
      [|by apply print_all_same in Hd as (_ & _ & ?)].
    apply print_all_same in Hd as (_ & Hd & _).
    apply print_all_same in H as (_ & He & _).
    by rewrite He, Hd, Hc. }
  split; [exact Hall'|]. intros x Hx.
  rewrite Forall_forall in Hall'. destruct (Hall' x Hx) as (st & Hst & Hk & Hc & Hs).
  split_and!.
  - apply elem_of_sorted_set. rewrite Hc. apply list_elem_of_fmap. by exists st.
  - apply elem_of_sorted_set. rewrite Hs. apply list_elem_of_fmap. by exists st.
  - unfold station_view. pose proof (find_station_spec (station_key x)) as Hf.
    destruct (find_station (station_key x)) as [row|]; [by exists row|].
    exfalso. apply Hf. apply list_elem_of_fmap. by exists st.
Qed.

End Labels.

Lemma scan_records_carry_the_station_labels_witness :
  Forall labelled (db demo) /\
  db demo_after <> [] /\
  forall x, x ∈ db demo_after -> row_country x ∈ countries /\ row_station x ∈ stations.
Proof.
  assert (H0 : Forall labelled (db demo)) by constructor.
  assert (H : scan_cmd listdir demo = (demo_after, Ok tt)).
  { unfold demo_after. exact (run_eq (scan_cmd listdir) demo tt ltac:(by_run)). }
  destruct (scan_records_carry_the_station_labels listdir listdir_spec _ _ _ H0 H)
    as [_ Hx].
  split_and!; [exact H0 | by vm_compute |].
  intros x Hin. destruct (Hx x Hin) as (Hc & Hs & _). by split.
Defined.

(** ** The search, at its edges *)

Lemma search_sorted_filter args w :
  search args w =
  to_result <$> sorted order_date_desc_station_asc (List.filter (passes_all args) (db w)).
Proof.
  unfold search. f_equal. f_equal.
  apply filter_ext. intros r. rewrite !where_all_app, !where_all_cond.
  unfold passes_all, passes, filter_value, arg. by rewrite andb_assoc.
Qed.

Lemma filter_all {A} (P : A -> bool) l :
  (forall x, x ∈ l -> P x = true) -> List.filter P l = l.
Proof.
  induction l as [|x l IH]; intros H; [done|]. cbn [List.filter].
  rewrite (H x) by by left. f_equal. apply IH. intros y Hy. apply H. by right.
Qed.

(** X13: the search at its edges.  Without a filter, or with filters
    that are blank, it returns every record; it never returns anything
    that is not a record of the table, and never more rows than the
    table has; only the stripped values of the three arguments matter;
    and when no argument has blanks around it, the search selects by
    exact equality with the arguments as they were sent. *)
Theorem search_edge_cases :
  (forall w, search ∅ w ≡ₚ to_result <$> db w) /\
  (forall args w,
     (forall k, k ∈ ["country"; "station"; "date"] -> filter_value args k = EmptyString) ->
     search args w ≡ₚ to_result <$> db w) /\
  (forall args w x, x ∈ search args w -> exists r, r ∈ db w /\ x = to_result r) /\
  (forall args w, (length (search args w) <= length (db w))%nat) /\
  (forall args args' w,
     (forall k, k ∈ ["country"; "station"; "date"] ->
        filter_value args k = filter_value args' k) ->
     search args w = search args' w) /\
  (forall args w,
     (forall k v, args !! k = Some v -> Text.strip v = v) ->
     search args w ≡ₚ to_result <$> List.filter (matches_as_stated args) (db w)).
Proof.
  assert (Hblank : forall args w,
            (forall k, k ∈ ["country"; "station"; "date"] ->
               filter_value args k = EmptyString) ->
            search args w ≡ₚ to_result <$> db w).
  { intros args w H. rewrite search_sorted_filter, sorted_perm.
    rewrite filter_all; [done|]. intros r _. unfold passes_all, passes.
    rewrite !H by by repeat constructor. done. }
  split_and!.
  - intros w. apply Hblank. intros k _. unfold filter_value. by rewrite lookup_empty.
  - exact Hblank.
  - intros args w x. rewrite search_sorted_filter.
    intros (r & -> & Hr)%list_elem_of_fmap. exists r. split; [|done].
    rewrite sorted_perm in Hr. by apply list_elem_of_In, filter_In in Hr as [Hr%list_elem_of_In _].
  - intros args w. rewrite search_sorted_filter, length_fmap.
    rewrite (Permutation_length (sorted_perm _ _)). apply filter_length_le.
  - intros args args' w H. rewrite !search_sorted_filter. do 2 f_equal.
    apply filter_ext. intros r. unfold passes_all, passes.
    by rewrite !H by by repeat constructor.
  - intros args w H. rewrite search_sorted_filter, sorted_perm.
    rewrite (filter_ext (passes_all args) (matches_as_stated args)); [done|].
    intros r. unfold passes_all, passes, matches_as_stated, filter_value.
    cbn [forallb]. rewrite andb_true_r, andb_assoc.
    assert (Hk : forall k c,
              bool_decide (Text.strip (default EmptyString (args !! k)) = EmptyString \/
                           column_of c r = Text.strip (default EmptyString (args !! k)))
              = match args !! k with
                | Some v => bool_decide (v = EmptyString \/ column_of c r = v)
                | None => true
                end).
    { intros k c. destruct (args !! k) as [v|] eqn:E; cbn [from_option].
      - unfold Datatypes.id. by rewrite (H k v E).
      - apply bool_decide_eq_true. by left. }
    by rewrite !Hk.
Qed.

(** ** The pattern of the sweep *)

Lemma string_length_append s t :
  String.length (s +:+ t) = (String.length s + String.length t)%nat.
Proof. induction s as [|c s IH]; [done|]. rewrite append_String. cbn. by rewrite IH. Qed.

Lemma substring_skip s t m :
  String.substring (String.length s) m (s +:+ t) = String.substring 0 m t.
Proof. induction s as [|c s IH]; [done|]. rewrite append_String. exact IH. Qed.

Lemma substring_all s : String.substring 0 (String.length s) s = s.
Proof. induction s as [|c s IH]; [done|]. cbn. by rewrite IH. Qed.

Lemma substring_split k s :
  (k <= String.length s)%nat ->
  s = String.substring 0 k s +:+ String.substring k (String.length s - k) s.
Proof.
  revert k. induction s as [|c s IH]; intros k Hk.
  - cbn in Hk. by assert (k = 0%nat) as -> by lia.
  - destruct k as [|k].
    + rewrite Nat.sub_0_r, substring_all. reflexivity.
    + cbn [String.substring String.length] in *. rewrite append_String. f_equal.
      apply IH. lia.
Qed.

(** X14: the sweep takes a file exactly when its name ends in [.png]:
    the name is some stem, possibly empty, followed by these four
    characters in lower case. *)
Theorem sweep_pattern_is_the_png_suffix n :
  Text.is_png n = true <-> exists stem, n = stem +:+ ".png".
Proof.
  unfold Text.is_png. cbv zeta. split.
  - intros [Hlen Hsuf]%andb_true_iff. apply Nat.leb_le in Hlen.
    apply String.eqb_eq in Hsuf.
    exists (String.substring 0 (String.length n - 4) n).
    rewrite <- Hsuf.
    pose proof (substring_split (String.length n - 4) n ltac:(lia)) as E.
    replace (String.length n - (String.length n - 4))%nat with 4%nat in E by lia.
    exact E.
  - intros [stem ->]. rewrite string_length_append. apply andb_true_iff. split.
    + apply Nat.leb_le. cbn. lia.
    + replace (String.length stem + String.length ".png" - 4)%nat
        with (String.length stem) by (cbn; lia).
      rewrite substring_skip. reflexivity.
Qed.

Lemma sweep_pattern_is_the_png_suffix_witness :
  Text.is_png "plot_2024.png" = true /\ Text.is_png ".png" = true /\
  Text.is_png "plot.PNG" = false /\ Text.is_png "plot.png.tmp" = false.
Proof.
  split_and!; [|by_run..].
  apply (proj2 (sweep_pattern_is_the_png_suffix "plot_2024.png")). by exists "plot_2024".
Defined.

(** ** When the mirror fails *)

(** X15: [mirror_current_and_archive] raises exactly when a regular
    file blocks a directory of the station, or the incoming path is a
    directory, or the incoming file is newer than [current] while
    [current] is a directory that holds a directory of the file's
    name, or the incoming file cannot be archived.  Otherwise it
    returns: nothing when the incoming file is absent, and the
    description of the archived file when it is there. *)
Theorem mirror_fails_exactly_when_blocked st w :
  ((exists w' e, mirror_current_and_archive st w = (w', Raise e)) <->
   mirror_ok (fs w) st = false) /\
  ((exists w', mirror_current_and_archive st w = (w', Ok None)) <->
   mirror_ok (fs w) st = true /\ fs w !! incoming_src st = None) /\
  ((exists w' it, mirror_current_and_archive st w = (w', Ok (Some it))) <->
   mirror_ok (fs w) st = true /\ is_Some (fs w !! incoming_src st)).
Proof.
  destruct (mirror_current_and_archive st w) as [w' r] eqn:H.
  pose proof (mirror_inv _ _ _ _ H) as Hinv.
  destruct r as [[it|]|e].
  - destruct Hinv as (Hok & file & dt & Hf & _). split_and!; split.
    + by intros (? & ? & [= _ ?]).
    + congruence.
    + by intros (? & [= _ ?]).
    + intros [_ ?]. congruence.
    + intros _. split; [done|]. by rewrite Hf.
    + intros _. by exists w', it.
  - destruct Hinv as (Hok & Hnone & _). split_and!; split.
    + by intros (? & ? & [= _ ?]).
    + congruence.
    + done.
    + intros _. by exists w'.
    + by intros (? & ? & [= _ ?]).
    + intros [_ [? ?]]. congruence.
  - split_and!; split.
    + done.
    + intros _. by exists w', e.
    + by intros (? & [= _ ?]).
    + intros [? _]. congruence.
    + by intros (? & ? & [= _ ?]).
    + intros [? _]. congruence.
Qed.

(** ** What a scan prints *)






Section Report.

Variable scandir : gmap path node -> path -> list string.

Hypothesis scandir_spec : forall f d,
  NoDup (scandir f d) /\ forall n, n ∈ scandir f d <-> is_Some (f !! (d ++ [n])).




End Report.


(** ** What the sweep leaves in the backlog *)

(** The [*.png] entries of the old-incoming directory of station key
    [k]. *)
Definition backlog_png_of (k : string) (p : path) : Prop :=
  exists n, p = OLD_INCOMING_DIR ++ [k; n] /\ Text.is_png n = true.

Lemma evolve_archive_only_png scandir st :
  respects (evolve (under (ARCHIVE_DIR ++ [key st])) (backlog_png_of (key st)))
           (archive_only_from_old_incoming scandir st).
Proof.
  set (R := evolve (under (ARCHIVE_DIR ++ [key st])) (backlog_png_of (key st))).
  unfold archive_only_from_old_incoming.
  apply respects_bind; [apply _ | apply evolve_ensure_dirs | intros _].
  apply respects_bind; [apply _ | apply respects_path_exists, _ | intros e].
  destruct (negb e); [apply respects_ret, _|].
  apply (respects_bind_post R (fun l => forall p, p ∈ l -> backlog_png_of (key st) p)).
  { intros w w' r H. apply glob_png_files_inv in H as [-> _]. reflexivity. }
  { intros w w1 l H. apply glob_png_files_inv in H as [-> (l' & [= <-] & Hl)].
    intros p Hp. destruct (Hl p Hp) as (_ & n & -> & Hpng & _). by exists n. }
  intros files Hfiles.
  apply (respects_bind_post R (fun l => forall p, p ∈ l -> backlog_png_of (key st) p)).
  { intros w w' r H. apply sorted_by_mtime_inv in H as [-> _]. reflexivity. }
  { intros w w1 l H. apply sorted_by_mtime_inv in H as [-> Hl].
    intros p Hp. apply Hfiles. by rewrite <- (Hl l eq_refl). }
  intros pngs Hpngs.
  apply respects_bind; [apply _ | | intros; apply respects_ret, _].
  apply evolve_sweep_loop; [done|]. intros p Hp. split; [by apply Hpngs|].
  by destruct (Hpngs p Hp) as (n & -> & _).
Qed.

(** X17: the sweep of a station removes nothing but regular files of
    the station's old-incoming directory whose names match [*.png].
    Whatever the listing order and however the sweep ends, an entry of
    that directory with another name stays as it is, no directory
    disappears, and files appear or change only below the station's
    archive directory. *)
Theorem sweep_takes_only_png_files scandir st w w' r :
  archive_only_from_old_incoming scandir st w = (w', r) ->
  (forall p, is_Some (fs w !! p) -> fs w' !! p = None ->
     backlog_png_of (key st) p /\ is_file (fs w) p = true) /\
  (forall n nd, Text.is_png n = false ->
     fs w !! (OLD_INCOMING_DIR ++ [key st; n]) = Some nd ->
     fs w' !! (OLD_INCOMING_DIR ++ [key st; n]) = Some nd) /\
  (forall p m, fs w !! p = Some (Dir m) -> fs w' !! p = Some (Dir m)) /\
  (forall p f, fs w' !! p = Some (File f) -> fs w !! p <> Some (File f) ->
     under (ARCHIVE_DIR ++ [key st]) p).
Proof.
  intros H. pose proof (evolve_archive_only_png scandir st _ _ _ H) as Hev.
  split_and!.
  - intros p [nd E] E'.
    destruct (ev_fs _ _ _ _ Hev p) as [E''|[(E'' & _)|[(_ & _ & _ & F)|(HD & _ & F & _)]]];
      try congruence.
    + unfold is_file in F. by rewrite E' in F.
    + done.
  - intros n nd Hn E.
    destruct (ev_fs _ _ _ _ Hev (OLD_INCOMING_DIR ++ [key st; n]))
      as [E'|[(E' & _)|[([q Hq] & _)|((n' & Hn' & Hpng) & _)]]]; try congruence.
    + done.
    + assert (n' = n) as -> by (by injection Hn'). congruence.
  - intros p m. apply (evolve_keeps_dir Hev).
  - intros p f E Hne.
    destruct (ev_fs _ _ _ _ Hev p) as [E''|[(_ & _ & E'')|[(HW & _)|(_ & _ & _ & E'')]]];
      try congruence.
Qed.

Lemma sweep_takes_only_png_files_witness :
  let w := with_fs (<[ ["old incoming"; "simone_piura"; "notes.txt"] := png 5 "n" ]>
                      demo_fs) demo in
  fs (archive_only_from_old_incoming listdir piura w).1
     !! ["old incoming"; "simone_piura"; "notes.txt"] = Some (png 5 "n") /\
  fs (archive_only_from_old_incoming listdir piura w).1
     !! ["old incoming"; "simone_piura"; "a.png"] = None.
Proof.
  set (w := with_fs _ demo).
  destruct (sweep_takes_only_png_files listdir piura w _ _
              (surjective_pairing (archive_only_from_old_incoming listdir piura w)))
    as (_ & Hkeep & _).
  split; [|by_run].
  apply (Hkeep "notes.txt"); by_run.
Defined.
